(** * FramerD: the incremental issue parser, the excerpt locator and the
      diagnostic assignment policy

    A shallow embedding of [parsing.ts], [excerpt-matching.ts] and of the
    diagnostic bookkeeping of [extension.ts], with the properties of the
    design document stated and settled against it. *)

From Stdlib Require Import ZArith NArith List String Ascii Bool Lia.
From stdpp Require Import base option list gmap strings pretty.
Import ListNotations.

Local Open Scope nat_scope.

(** ** JavaScript strings

    A JavaScript string is a sequence of UTF-16 code units.  Code units are
    kept as [N]; positions and lengths are [nat] where the source cannot make
    them negative and [Z] where it can. *)

Module Js.

Definition jsstring := list N.

(** ASCII literals of the source, as code units. *)
Definition js (s : string) : jsstring :=
  map N_of_ascii (list_ascii_of_string s).

Definition nl : N := 10%N.         (* \n *)
Definition dquote : N := 34%N.     (* straight double quote *)
Definition squote : N := 39%N.     (* straight single quote *)
Definition ldquote : N := 8220%N.  (* U+201C left double quotation mark *)
Definition rdquote : N := 8221%N.  (* U+201D right double quotation mark *)
Definition lsquote : N := 8216%N.  (* U+2018 left single quotation mark *)
Definition rsquote : N := 8217%N.  (* U+2019 right single quotation mark *)

(** [WhiteSpace] and [LineTerminator] of ECMAScript: what [trim] removes and
    what [\s] matches. *)
Definition isWhiteSpace (c : N) : bool :=
  ((9 <=? c) && (c <=? 13) || (c =? 32) || (c =? 160) || (c =? 5760)
   || (8192 <=? c) && (c <=? 8202) || (c =? 8232) || (c =? 8233)
   || (c =? 8239) || (c =? 8287) || (c =? 12288) || (c =? 65279))%N.

Definition isDigit (c : N) : bool := ((48 <=? c) && (c <=? 57))%N.

Definition anyChar (c : N) : bool := true.

Fixpoint trimStart (s : jsstring) : jsstring :=
  match s with
  | c :: s' => if isWhiteSpace c then trimStart s' else s
  | [] => []
  end.

Definition trimEnd (s : jsstring) : jsstring := rev (trimStart (rev s)).

Definition trim (s : jsstring) : jsstring := trimEnd (trimStart s).

Definition eqb (a b : jsstring) : bool := bool_decide (a = b).

Fixpoint startsWith (s p : jsstring) {struct p} : bool :=
  match p, s with
  | [], _ => true
  | c :: p', d :: s' => (c =? d)%N && startsWith s' p'
  | _ :: _, [] => false
  end.

Definition endsWith (s p : jsstring) : bool := startsWith (rev s) (rev p).

Definition clamp (len i : Z) : Z := Z.max 0 (Z.min i len).

Definition zlen (s : jsstring) : Z := Z.of_nat (length s).

(** [s.slice(b, e)]: a negative bound counts from the end. *)
Definition slice (s : jsstring) (b e : Z) : jsstring :=
  let len := zlen s in
  let from := if (b <? 0)%Z then Z.max (len + b) 0 else Z.min b len in
  let to := if (e <? 0)%Z then Z.max (len + e) 0 else Z.min e len in
  take (Z.to_nat (to - from)) (drop (Z.to_nat from) s).

Definition sliceFrom (s : jsstring) (b : Z) : jsstring := slice s b (zlen s).

(** [s.substring(a, b)]: bounds are clamped to the string and swapped when
    out of order. *)
Definition substring (s : jsstring) (a b : Z) : jsstring :=
  let a' := clamp (zlen s) a in
  let b' := clamp (zlen s) b in
  take (Z.to_nat (Z.max a' b' - Z.min a' b')) (drop (Z.to_nat (Z.min a' b')) s).

Definition substringFrom (s : jsstring) (a : Z) : jsstring :=
  substring s a (zlen s).

Fixpoint indexOfAt (s p : jsstring) (i : Z) : Z :=
  if startsWith s p then i
  else match s with
       | [] => (-1)%Z
       | _ :: s' => indexOfAt s' p (i + 1)%Z
       end.

(** [s.indexOf(p, start)] *)
Definition indexOf (s p : jsstring) (start : Z) : Z :=
  let st := clamp (zlen s) start in
  indexOfAt (drop (Z.to_nat st) s) p st.

Definition includes (s p : jsstring) : bool :=
  negb (indexOf s p 0 =? -1)%Z.

(** Case mapping is modelled on the ASCII letters; other code units are left
    as they are. *)
Definition lowerChar (c : N) : N :=
  if ((65 <=? c) && (c <=? 90))%N then (c + 32)%N else c.

Definition upperChar (c : N) : N :=
  if ((97 <=? c) && (c <=? 122))%N then (c - 32)%N else c.

Definition toLowerCase (s : jsstring) : jsstring := map lowerChar s.

End Js.

Import Js.

(** ** Regular expressions

    The regular expressions of the source are embedded as backtracking
    matchers in continuation-passing style: a matcher receives the text that
    is left and a continuation for the rest of the pattern, and tries its
    alternatives in the order of the ECMAScript semantics.  None of the
    patterns looks behind the current position, so a matcher only ever sees
    the text from the current position on. *)

Module Regex.

(** A literal; with the [i] flag both sides are canonicalised, which for the
    ASCII literals of the source means comparing upper-cased code units. *)
Fixpoint lit (ci : bool) (p s : jsstring) : option jsstring :=
  match p with
  | [] => Some s
  | c :: p' =>
      match s with
      | d :: s' =>
          if (if ci then upperChar c =? upperChar d else c =? d)%N
          then lit ci p' s' else None
      | [] => None
      end
  end.

(** [c*], greedy: take as many as possible, give back one at a time. *)
Fixpoint starG {A} (c : N -> bool) (s : jsstring)
    (k : jsstring -> option A) : option A :=
  match s with
  | x :: s' =>
      if c x then
        match starG c s' k with
        | Some r => Some r
        | None => k s
        end
      else k s
  | [] => k []
  end.

(** [c+], greedy. *)
Definition plusG {A} (c : N -> bool) (s : jsstring)
    (k : jsstring -> option A) : option A :=
  match s with
  | x :: s' => if c x then starG c s' k else None
  | [] => None
  end.

(** [(c*?)], lazy and capturing: try the continuation first, take one more
    only when it fails.  [acc] is what the group has taken so far. *)
Fixpoint starL {A} (c : N -> bool) (acc s : jsstring)
    (k : jsstring -> jsstring -> option A) : option A :=
  match k acc s with
  | Some r => Some r
  | None =>
      match s with
      | x :: s' => if c x then starL c (acc ++ [x]) s' k else None
      | [] => None
      end
  end.

(** [(c+?)], lazy and capturing. *)
Definition plusL {A} (c : N -> bool) (s : jsstring)
    (k : jsstring -> jsstring -> option A) : option A :=
  match s with
  | x :: s' => if c x then starL c [x] s' k else None
  | [] => None
  end.

(** [$] without the [m] flag: the end of the input. *)
Definition atEnd (s : jsstring) : bool :=
  match s with [] => true | _ => false end.

(** The first position, from the left, at which the pattern matches. *)
Fixpoint search {A} (p : jsstring -> option A) (s : jsstring)
    : option (nat * A) :=
  match p s with
  | Some r => Some (0, r)
  | None =>
      match s with
      | [] => None
      | _ :: s' =>
          match search p s' with
          | Some (i, r) => Some (S i, r)
          | None => None
          end
      end
  end.

(** [re.test(s)] *)
Definition test {A} (p : jsstring -> option A) (s : jsstring) : bool :=
  match search p s with Some _ => true | None => false end.

(** One match of a global pattern: [match.index], the length of [match[0]]
    and the captured group the caller reads. *)
Record Match := mkMatch { index : nat; matchLength : nat; group : jsstring }.

(** [[...s.matchAll(re)]]: each search starts where the previous match ended
    (one further after an empty match).  [skip] counts the code units still
    covered by the previous match, [off] is the position of [s] in the whole
    input. *)
Fixpoint matchAllFrom (p : jsstring -> option (nat * jsstring))
    (off skip : nat) (s : jsstring) : list Match :=
  match skip with
  | S k =>
      match s with
      | [] => []
      | _ :: s' => matchAllFrom p (S off) k s'
      end
  | 0 =>
      match p s with
      | Some (len, g) =>
          mkMatch off len g ::
            match s with
            | [] => []
            | _ :: s' => matchAllFrom p (S off) (pred (Nat.max len 1)) s'
            end
      | None =>
          match s with
          | [] => []
          | _ :: s' => matchAllFrom p (S off) 0 s'
          end
      end
  end.

Definition matchAll (p : jsstring -> option (nat * jsstring))
    (s : jsstring) : list Match :=
  matchAllFrom p 0 0 s.

End Regex.

Import Regex.

(** ** parsing.ts *)

Module Parsing.

Inductive Severity := High | Moderate | Low.

Record ParsedSuggestion := mkSuggestion {
  comment : jsstring;
  target_excerpt : jsstring;
  category : jsstring;
  severity : Severity;
  explanation : jsstring;
  rewrite : jsstring
}.

(** The array literal of the source holds six entries, three double and three
    single quotes, every one of them the straight ASCII character. *)
Definition quoteChars : list N :=
  [dquote; dquote; dquote; squote; squote; squote].

(** The [for] loop of [stripQuotes] over [quoteChars], on the trimmed text. *)
Fixpoint stripQuotesLoop (quotes : list N) (text : jsstring) : jsstring :=
  match quotes with
  | [] => text
  | quote :: rest =>
      if startsWith text [quote] && endsWith text [quote]
         && (1 <? length text)
      then trim (slice text 1 (-1))
      else stripQuotesLoop rest text
  end.

Definition stripQuotes (text : jsstring) : jsstring :=
  stripQuotesLoop quoteChars (trim text).

(** [(?=stopAt|$)], or [$] when no stop is given (an empty [stopAt] is falsy
    and gives [$] too).  The source splices [stopAt] into the text of the
    expression; the model takes it as a literal, which is what the
    expression means for a name without metacharacters ([plainName] below),
    such as the stop names the callers pass. *)
Definition stopPattern (stopAt : option jsstring) (s : jsstring) : bool :=
  match stopAt with
  | Some (c :: st) =>
      match lit true (c :: st) s with
      | Some _ => true
      | None => atEnd s
      end
  | _ => atEnd s
  end.

(** [fieldName:\s*(.+?)\s*stopPattern] with flags [is], tried at the head of
    [s]; yields the captured group.  The source splices [fieldName] into
    the text of the expression as it does [stopAt]; the model takes both as
    literals and so covers the names without metacharacters ([plainName]
    below), which the names every caller passes are. *)
Definition fieldPattern (fieldName : jsstring) (stopAt : option jsstring)
    (s : jsstring) : option jsstring :=
  match lit true (fieldName ++ js ":") s with
  | None => None
  | Some s1 =>
      starG isWhiteSpace s1 (fun s2 =>
        plusL anyChar s2 (fun value s3 =>
          starG isWhiteSpace s3 (fun s4 =>
            if stopPattern stopAt s4 then Some value else None)))
  end.

Definition extractField (block fieldName : jsstring)
    (stopAt : option jsstring) : option jsstring :=
  match search (fieldPattern fieldName stopAt) block with
  | Some (_, value) => Some (stripQuotes value)
  | None => None
  end.

(** [/NAME:/i.test(block)] *)
Definition hasField (fieldName block : jsstring) : bool :=
  test (lit true (fieldName ++ js ":")) block.

(** [/FIX:\s*(.+?)$/is] at the head of [s]. *)
Definition fixPattern (s : jsstring) : option jsstring :=
  match lit true (js "FIX:") s with
  | None => None
  | Some s1 =>
      starG isWhiteSpace s1 (fun s2 =>
        plusL anyChar s2 (fun value s3 =>
          if atEnd s3 then Some value else None))
  end.

(** The quote loop of [isBlockComplete]: the first quote the value starts
    with decides. *)
Fixpoint fixQuoteLoop (quotes : list N) (fixValue : jsstring) : bool :=
  match quotes with
  | [] => 0 <? length fixValue
  | quote :: rest =>
      if startsWith fixValue [quote]
      then endsWith fixValue [quote] && (1 <? length fixValue)
      else fixQuoteLoop rest fixValue
  end.

Definition isBlockComplete (block : jsstring) : bool :=
  if negb (hasField (js "EXCERPT") block)
     || negb (hasField (js "CATEGORY") block)
     || negb (hasField (js "SEVERITY") block)
     || negb (hasField (js "PROBLEM") block)
     || negb (hasField (js "FIX") block)
  then false
  else
    match search fixPattern block with
    | None => false
    | Some (_, value) => fixQuoteLoop quoteChars (trim value)
    end.

(** A string or [null] used as a condition: [null] and the empty string are
    falsy. *)
Definition truthy (v : option jsstring) : bool :=
  match v with
  | Some (_ :: _) => true
  | _ => false
  end.

Definition severityOf (s : jsstring) : option Severity :=
  let severity := toLowerCase s in
  if eqb severity (js "high") then Some High
  else if eqb severity (js "moderate") then Some Moderate
  else if eqb severity (js "low") then Some Low
  else None.

(** [/---\s*$/] at the head of [s]; yields the length of the match. *)
Definition trailingMarker (s : jsstring) : option nat :=
  match lit false (js "---") s with
  | None => None
  | Some s1 =>
      starG isWhiteSpace s1 (fun s2 =>
        if atEnd s2 then Some (length s - length s2) else None)
  end.

(** [fix.replace(/---\s*$/, '')] *)
Definition dropTrailingMarker (fix_ : jsstring) : jsstring :=
  match search trailingMarker fix_ with
  | Some (i, n) => take i fix_ ++ drop (i + n) fix_
  | None => fix_
  end.

(** None of the operations of the model throws, so the [try]/[catch] of the
    source has no counterpart; the calls to the logger are left out.  Behind
    the test for missing fields every field read is a non-empty string, so
    [default []] only unwraps it. *)
Definition parseIssueBlock (block : jsstring) : option ParsedSuggestion :=
  let excerpt := extractField block (js "EXCERPT") (Some (js "CATEGORY:")) in
  let category := extractField block (js "CATEGORY") (Some (js "SEVERITY:")) in
  let severityStr := extractField block (js "SEVERITY") (Some (js "PROBLEM:")) in
  let problem := extractField block (js "PROBLEM") (Some (js "FIX:")) in
  let fix_ := extractField block (js "FIX") None in
  if negb (truthy excerpt) || negb (truthy category)
     || negb (truthy severityStr) || negb (truthy problem)
  then None
  else
    match severityOf (default [] severityStr) with
    | None => None
    | Some severity =>
        let cleanFix :=
          if truthy fix_ then trim (dropTrailingMarker (default [] fix_))
          else [] in
        Some (mkSuggestion (default [] problem) (default [] excerpt)
                           (default [] category) severity
                           (default [] problem) cleanFix)
    end.

(** The lookahead [(?=---\s*\n|$)] that ends a block. *)
Definition blockEnd (s : jsstring) : bool :=
  match lit true (js "---") s with
  | Some s1 =>
      match starG isWhiteSpace s1 (fun s2 => lit true [nl] s2) with
      | Some _ => true
      | None => atEnd s
      end
  | None => atEnd s
  end.

(** [/---\s*\nISSUE\s+(\d+)\s*\n(.*?)(?=---\s*\n|$)/gis] at the head of [s];
    yields the length of the match and the block, group 2. *)
Definition issuePattern (s : jsstring) : option (nat * jsstring) :=
  match lit true (js "---") s with
  | None => None
  | Some s1 =>
      starG isWhiteSpace s1 (fun s2 =>
        match lit true [nl] s2 with
        | None => None
        | Some s3 =>
            match lit true (js "ISSUE") s3 with
            | None => None
            | Some s4 =>
                plusG isWhiteSpace s4 (fun s5 =>
                  plusG isDigit s5 (fun s6 =>
                    starG isWhiteSpace s6 (fun s7 =>
                      match lit true [nl] s7 with
                      | None => None
                      | Some s8 =>
                          starL anyChar [] s8 (fun block s9 =>
                            if blockEnd s9
                            then Some (length s - length s9, block)
                            else None)
                      end)))
            end
        end)
  end.

Fixpoint completeLoop (matches : list Match) : list ParsedSuggestion :=
  match matches with
  | [] => []
  | m :: rest =>
      let block := group m in
      if negb (isBlockComplete block) then completeLoop rest
      else
        match parseIssueBlock block with
        | Some suggestion => suggestion :: completeLoop rest
        | None => completeLoop rest
        end
  end.

Definition parseCompleteIssueBlocks (text : jsstring) : list ParsedSuggestion :=
  completeLoop (matchAll issuePattern text).

(** The [for] loop of [parsePartialBuffer], threading [suggestions] and
    [lastCompleteIndex]. *)
Fixpoint partialLoop (matches : list Match)
    (suggestions : list ParsedSuggestion) (lastCompleteIndex : nat)
    : list ParsedSuggestion * nat :=
  match matches with
  | [] => (suggestions, lastCompleteIndex)
  | m :: rest =>
      let block := group m in
      let isFollowedByAnother :=
        match rest with [] => false | _ => true end in
      if negb isFollowedByAnother && negb (isBlockComplete block)
      then (suggestions, lastCompleteIndex)
      else
        match parseIssueBlock block with
        | Some suggestion =>
            partialLoop rest (suggestions ++ [suggestion])
                        (index m + matchLength m)
        | None => partialLoop rest suggestions lastCompleteIndex
        end
  end.

Record PartialResult := mkPartial {
  parsed : list ParsedSuggestion;
  remainder : jsstring
}.

Definition parsePartialBuffer (buffer : jsstring) : PartialResult :=
  let '(suggestions, lastCompleteIndex) :=
    partialLoop (matchAll issuePattern buffer) [] 0 in
  mkPartial suggestions (sliceFrom buffer (Z.of_nat lastCompleteIndex)).

Definition hintOnlyCategories : list jsstring :=
  [js "consistency"; js "structure"; js "word_choice"].

Definition isQuickFixable (suggestion : ParsedSuggestion) : bool :=
  if atEnd (rewrite suggestion) || atEnd (trim (rewrite suggestion)) then false
  else if includes (rewrite suggestion) (js " or ") then false
  else if 100 <? length (rewrite suggestion) then false
  else if bool_decide (toLowerCase (category suggestion) ∈ hintOnlyCategories)
  then false
  else true.

(** [/---\s*\nISSUE\s+\d+/i] at the head of [s]. *)
Definition summaryMarker (s : jsstring) : option unit :=
  match lit true (js "---") s with
  | None => None
  | Some s1 =>
      starG isWhiteSpace s1 (fun s2 =>
        match lit true [nl] s2 with
        | None => None
        | Some s3 =>
            match lit true (js "ISSUE") s3 with
            | None => None
            | Some s4 =>
                plusG isWhiteSpace s4 (fun s5 =>
                  plusG isDigit s5 (fun _ => Some tt))
            end
        end)
  end.

Definition extractSummary (text : jsstring) : jsstring :=
  match search summaryMarker text with
  | None => trim text
  | Some (i, _) =>
      let summary := trim (slice text 0 (Z.of_nat i)) in
      match summary with
      | [] => js "Review complete."
      | _ :: _ => summary
      end
  end.

End Parsing.

Import Parsing.

(** ** The streaming loop of extension.ts *)

Module Streaming.

(** The [for await] loop of [callClaudeAPIStreaming] over the fragments of a
    review that is not aborted, and its final parse with the terminator
    appended; [emitted] collects the suggestions handed to [onSuggestion],
    in order. *)
Fixpoint stream (fragments : list jsstring) (buffer : jsstring)
    (emitted : list ParsedSuggestion) : list ParsedSuggestion :=
  match fragments with
  | text :: rest =>
      let r := parsePartialBuffer (buffer ++ text) in
      stream rest (remainder r) (emitted ++ parsed r)
  | [] =>
      if negb (atEnd (trim buffer))
      then emitted ++ parsed (parsePartialBuffer (buffer ++ nl :: js "---"))
      else emitted
  end.

Definition review (fragments : list jsstring) : list ParsedSuggestion :=
  stream fragments [] [].

End Streaming.

Import Streaming.

(** ** excerpt-matching.ts *)

Module ExcerptMatching.

Definition searchWindow : Z := 50.

Record PartialMatch := mkPartialMatch { index : Z; length : Z }.

Section FindExcerptPartialMatch.

Variables text excerpt : jsstring.

(** [Math.min(50, Math.floor(excerpt.length * 0.25))]; a quarter of an
    integer is exact in floating point, so its floor is the integer
    quotient by four. *)
Definition matchLength : Z := Z.min 50 (zlen excerpt / 4).

Definition prefix : jsstring := substring excerpt 0 matchLength.

Definition suffix : jsstring := substringFrom excerpt (zlen excerpt - matchLength).

(** The [for] loop over [offset], with [n] iterations left. *)
Fixpoint offsetLoop (prefixIndex expectedSuffixStart : Z) (n : nat)
    (offset : Z) : option PartialMatch :=
  match n with
  | 0 => None
  | S n' =>
      let suffixIndex := (expectedSuffixStart + offset)%Z in
      if (0 <=? suffixIndex)%Z
         && eqb (substring text suffixIndex (suffixIndex + matchLength)) suffix
      then
        let actualLength := (suffixIndex + matchLength - prefixIndex)%Z in
        Some (mkPartialMatch prefixIndex actualLength)
      else offsetLoop prefixIndex expectedSuffixStart n' (offset + 1)%Z
  end.

(** The [while (true)] loop; every round moves [searchStart] past one more
    occurrence of the prefix, so [fuel] rounds are enough once [fuel] exceeds
    the length of the text (lemma [prefixLoop_fuel] below). *)
Fixpoint prefixLoop (fuel : nat) (searchStart : Z) : option PartialMatch :=
  match fuel with
  | 0 => None
  | S fuel' =>
      let prefixIndex := indexOf text prefix searchStart in
      if (prefixIndex =? -1)%Z then None
      else
        let expectedSuffixStart := (prefixIndex + zlen excerpt - matchLength)%Z in
        match offsetLoop prefixIndex expectedSuffixStart
                (Z.to_nat (2 * searchWindow + 1)) (- searchWindow) with
        | Some r => Some r
        | None => prefixLoop fuel' (prefixIndex + 1)%Z
        end
  end.

Definition findExcerptPartialMatch : option PartialMatch :=
  if (zlen excerpt <? 20)%Z then None
  else prefixLoop (S (List.length text)) 0.

End FindExcerptPartialMatch.

End ExcerptMatching.

(** ** dictionary-utils.ts *)

Module DictionaryUtils.

Definition isQuote (c : N) : bool := ((c =? dquote) || (c =? squote))%N.

Definition notDquote (c : N) : bool := negb (c =? dquote)%N.

Definition notQuote (c : N) : bool := negb (isQuote c).

(** [c?], greedy: take one if it is there, give it back when the rest of the
    pattern fails. *)
Definition optG {A} (c : N -> bool) (s : jsstring)
    (k : jsstring -> option A) : option A :=
  match s with
  | x :: s' =>
      if c x then
        match k s' with
        | Some r => Some r
        | None => k s
        end
      else k s
  | [] => k []
  end.

(** The text a greedy group took, between where it started and where the
    rest of the pattern went on. *)
Definition captured (from rest : jsstring) : jsstring :=
  take (length from - length rest) from.

(** The first pattern, at the head of [s]: [Spelling error], any run without
    a double quote, then a word of one or more such characters between
    double quotes; the word is the group. *)
Definition spellingErrorPattern (s : jsstring) : option jsstring :=
  match lit false (js "Spelling error") s with
  | None => None
  | Some s1 =>
      starG notDquote s1 (fun s2 =>
        match lit false [dquote] s2 with
        | None => None
        | Some s3 =>
            plusG notDquote s3 (fun s4 =>
              match lit false [dquote] s4 with
              | None => None
              | Some _ => Some (captured s3 s4)
              end)
        end)
  end.

(** The second pattern, at the head of [s]: [Misspelling of ], a quote or
    not, a word of one or more characters that are no quotes, a quote or
    not; the word is the group. *)
Definition misspellingOfPattern (s : jsstring) : option jsstring :=
  match lit false (js "Misspelling of ") s with
  | None => None
  | Some s1 =>
      optG isQuote s1 (fun s2 =>
        plusG notQuote s2 (fun s3 =>
          optG isQuote s3 (fun _ => Some (captured s2 s3))))
  end.

(** A quote at the end of the input, at the head of [s]. *)
Definition trailingQuote (s : jsstring) : option unit :=
  match s with
  | [x] => if isQuote x then Some tt else None
  | _ => None
  end.

(** The [replace] that takes a quote off the end of the word. *)
Definition dropTrailingQuote (word : jsstring) : jsstring :=
  match search trailingQuote word with
  | Some (i, _) => take i word ++ drop (i + 1) word
  | None => word
  end.

(** The third pattern: at the start of the comment a word between quotes,
    then [ should be]; the anchor leaves only the start of the comment to
    try. *)
Definition quotedShouldBePattern (s : jsstring) : option jsstring :=
  match s with
  | x :: s1 =>
      if isQuote x then
        plusG notQuote s1 (fun s2 =>
          match s2 with
          | q :: s3 =>
              if isQuote q then
                match lit false (js " should be") s3 with
                | Some _ => Some (captured s1 s2)
                | None => None
                end
              else None
          | [] => None
          end)
      else None
  | [] => None
  end.

(** The fourth pattern, at the head of [s]: [should be ], a word between
    quotes, then [ not]. *)
Definition shouldBeNotPattern (s : jsstring) : option jsstring :=
  match lit false (js "should be ") s with
  | None => None
  | Some s0 =>
      match s0 with
      | x :: s1 =>
          if isQuote x then
            plusG notQuote s1 (fun s2 =>
              match s2 with
              | q :: s3 =>
                  if isQuote q then
                    match lit false (js " not") s3 with
                    | Some _ => Some (captured s1 s2)
                    | None => None
                    end
                  else None
              | [] => None
              end)
          else None
      | [] => None
      end
  end.

Definition extractMisspelledWord (comment : jsstring) : option jsstring :=
  match search spellingErrorPattern comment with
  | Some (_, word) => Some word
  | None =>
      match search misspellingOfPattern comment with
      | Some (_, word) => Some (trim (dropTrailingQuote word))
      | None =>
          match quotedShouldBePattern comment with
          | Some word => Some word
          | None =>
              match search shouldBeNotPattern comment with
              | Some _ => None
              | None => None
              end
          end
      end
  end.

Definition isSpellingError (suggestion : ParsedSuggestion) : bool :=
  let comment := comment suggestion in
  let hasSpellingLanguage :=
    includes comment (js "Spelling error")
    || includes comment (js "Misspelling of")
    || includes comment (js "Misspelling") in
  let isSpellingCategory := eqb (category suggestion) (js "spelling") in
  let isWrongWord :=
    includes comment (js "Wrong word")
    || includes comment (js "Wrong homophone")
    || includes comment (js "homophone") in
  (hasSpellingLanguage || isSpellingCategory) && negb isWrongWord.

End DictionaryUtils.

(** ** The diagnostic bookkeeping of extension.ts *)

Module Extension.

Record Position := mkPosition { line : nat; character : nat }.

Record Range := mkRange { start : Position; end_ : Position }.

Inductive DiagnosticSeverity := Error | Warning | Information | Hint.

Record Diagnostic := mkDiagnostic {
  range : Range;
  message : jsstring;
  dseverity : DiagnosticSeverity;
  source : jsstring;
  code : option string
}.

(** The module-level state of the extension, with the diagnostics of the
    reviewed document standing for [diagnosticCollection]. *)
Record State := mkState {
  suggestionMap : gmap string ParsedSuggestion;
  diagnosticCounter : nat;
  usedRanges : list Range;
  diagnostics : list Diagnostic
}.

(** What the [framerd.review] command leaves before the first fragment, and
    what [framerd.clearDiagnostics] leaves. *)
Definition cleared : State := mkState ∅ 0 [] [].

Section Editor.

(** The editor's side of the interface: [Range.intersection] and
    [document.positionAt] of the host API, and the word extraction of
    dictionary-utils.ts, whose result only decides whether a spelling
    suggestion is skipped. *)
Variable intersection : Range -> Range -> option Range.
Variable positionAt : Z -> Position.
Variable extractMisspelledWord : jsstring -> option jsstring.

(** The text of the document, read once when the review starts. *)
Variable text : jsstring.

Definition overlapsUsed (used : list Range) (r : Range) : bool :=
  existsb (fun usedRange =>
             match intersection usedRange r with
             | Some _ => true
             | None => false
             end) used.

(** The dictionary filter at the head of [addSuggestionAsDiagnostic]. *)
Definition dictionarySkips (dictionary : list jsstring)
    (suggestion : ParsedSuggestion) : bool :=
  (0 <? length dictionary) && eqb (category suggestion) (js "spelling")
  && match extractMisspelledWord (comment suggestion) with
     | Some (c :: w) => bool_decide ((c :: w) ∈ dictionary)
     | _ => false
     end.

Definition severityFor (s : Severity) : DiagnosticSeverity :=
  match s with
  | High => Error
  | Moderate => Warning
  | Low => Information
  end.

Definition candidateRange (suggestion : ParsedSuggestion) (i : Z) : Range :=
  mkRange (positionAt i) (positionAt (i + zlen (target_excerpt suggestion))).

Definition topOfDocument : Range := mkRange (mkPosition 0 0) (mkPosition 0 0).

(** A diagnostic without quick fix, appended to the collection. *)
Definition pushHint (st : State) (r : Range) (suggestion : ParsedSuggestion)
    : State :=
  mkState (suggestionMap st) (diagnosticCounter st) (usedRanges st)
          (diagnostics st ++
             [mkDiagnostic r (comment suggestion) Hint (js "FramerD") None]).

Definition addSuggestionAsDiagnostic (dictionary : list jsstring)
    (suggestion : ParsedSuggestion) (st : State) : State :=
  if dictionarySkips dictionary suggestion then st
  else
    match target_excerpt suggestion with
    | [] => pushHint st topOfDocument suggestion
    | _ :: _ =>
        let i := indexOf text (target_excerpt suggestion) 0 in
        if (i =? -1)%Z then pushHint st topOfDocument suggestion
        else
          let r := candidateRange suggestion i in
          let overlaps := overlapsUsed (usedRanges st) r in
          let canQuickFix := isQuickFixable suggestion && negb overlaps in
          if negb canQuickFix then pushHint st r suggestion
          else
            let counter := S (diagnosticCounter st) in
            let id := pretty counter in
            mkState (<[id := suggestion]> (suggestionMap st))
                    counter
                    (usedRanges st ++ [r])
                    (diagnostics st ++
                       [mkDiagnostic r (comment suggestion)
                          (severityFor (severity suggestion))
                          (js "FramerD") (Some id)])
    end.

(** [framerd.removeDiagnostic], and the state change of
    [framerd.addToDictionary]. *)
Definition removeDiagnostic (diagnosticCode : string) (st : State) : State :=
  mkState (delete diagnosticCode (suggestionMap st))
          (diagnosticCounter st) (usedRanges st)
          (filter (fun d => code d ≠ Some diagnosticCode) (diagnostics st)).

(** The handler of [onDidChangeTextDocument] during a review. *)
Definition documentChanged (st : State) : State :=
  mkState (suggestionMap st) (diagnosticCounter st) (usedRanges st) [].

(** What can happen to the state in the course of a review. *)
Inductive Event :=
| Suggested (dictionary : list jsstring) (suggestion : ParsedSuggestion)
| Removed (diagnosticCode : string)
| Changed
| Cleared.

Definition step (st : State) (e : Event) : State :=
  match e with
  | Suggested dictionary suggestion =>
      addSuggestionAsDiagnostic dictionary suggestion st
  | Removed diagnosticCode => removeDiagnostic diagnosticCode st
  | Changed => documentChanged st
  | Cleared => cleared
  end.

(** The state after a sequence of events of a review session. *)
Definition session (events : list Event) : State :=
  fold_left step events cleared.

Definition autoFixable (d : Diagnostic) : bool :=
  match code d with Some _ => true | None => false end.

(** The earlier of two ranges does not intersect the later one. *)
Definition apart (r1 r2 : Range) : Prop := intersection r1 r2 = None.

(** The ranges of the diagnostics that carry an identifier. *)
Definition committed (ds : list Diagnostic) : list Range :=
  map range (List.filter autoFixable ds).

Definition invariant (st : State) : Prop :=
  ForallOrdPairs apart (usedRanges st)
  /\ committed (diagnostics st) `sublist_of` usedRanges st.

(** What [provideCodeActions] offers: the fix of a diagnostic, and for a
    spelling error the entry of its word into the dictionary. *)
Inductive CodeAction :=
| ApplyFix (r : Range) (newText : jsstring) (diagnosticCode : option string)
| AddToDictionary (word : jsstring) (diagnosticCode : option string).

(** [FramerDCodeActionProvider.provideCodeActions] over the diagnostics of
    the context, with the module-level [suggestionMap]. *)
Fixpoint provideCodeActions (suggestions : gmap string ParsedSuggestion)
    (context : list Diagnostic) : list CodeAction :=
  match context with
  | [] => []
  | diagnostic :: rest =>
      if negb (eqb (source diagnostic) (js "FramerD"))
      then provideCodeActions suggestions rest
      else
        match code diagnostic ≫= (fun id => suggestions !! id) with
        | Some suggestion =>
            match rewrite suggestion with
            | [] => provideCodeActions suggestions rest
            | _ :: _ =>
                ApplyFix (range diagnostic) (rewrite suggestion)
                         (code diagnostic)
                :: (if DictionaryUtils.isSpellingError suggestion
                    then
                      match extractMisspelledWord (comment suggestion) with
                      | Some (c :: w) =>
                          [AddToDictionary (c :: w) (code diagnostic)]
                      | _ => []
                      end
                    else [])
                ++ provideCodeActions suggestions rest
            end
        | None => provideCodeActions suggestions rest
        end
  end.

(** Every diagnostic of the state is the extension's own; one without
    identifier is a Hint; one with an identifier carries the decimal form of
    a counter value reached so far, and the map resolves it to a
    quick-fixable suggestion with the diagnostic's message and severity. *)
Definition resolved (st : State) : Prop :=
  forall d, d ∈ diagnostics st ->
    source d = js "FramerD"
    /\ match code d with
       | None => dseverity d = Hint
       | Some id =>
           exists k s,
             id = pretty k /\ 1 <= k <= diagnosticCounter st
             /\ suggestionMap st !! id = Some s
             /\ isQuickFixable s = true
             /\ message d = comment s
             /\ dseverity d = severityFor (severity s)
       end.

End Editor.

(** An editor with a document of one line: a position is a column, and two
    ranges intersect unless one ends before the other starts. *)
Definition before (a b : Position) : bool :=
  (line a <? line b) || (line a =? line b) && (character a <=? character b).

Definition lineIntersection (r1 r2 : Range) : option Range :=
  let s := if before (start r1) (start r2) then start r2 else start r1 in
  let e := if before (end_ r1) (end_ r2) then end_ r1 else end_ r2 in
  if before s e then Some (mkRange s e) else None.

Definition columnAt (i : Z) : Position := mkPosition 0 (Z.to_nat i).

Definition noWord (c : jsstring) : option jsstring := None.

Definition catFix : ParsedSuggestion :=
  mkSuggestion (js "Missing article") (js "The cat sat on mat")
               (js "grammar") High (js "Missing article")
               (js "The cat sat on the mat").

Definition matFix : ParsedSuggestion :=
  mkSuggestion (js "Vague noun") (js "on mat") (js "style") Low
               (js "Vague noun") (js "on the rug").

End Extension.

(** ** The mocks of the tests *)

Module Mocks.

Import Extension.

(** [text.split('\n')], with [cur] the line read so far. *)
Fixpoint splitLines (s cur : jsstring) : list jsstring :=
  match s with
  | [] => [cur]
  | c :: s' =>
      if (c =? nl)%N then cur :: splitLines s' []
      else splitLines s' (cur ++ [c])
  end.

(** The loop of [offsetAt]: the lengths of the first [n] lines, each with
    its line break. *)
Fixpoint lineOffset (n : nat) (lines : list jsstring) : nat :=
  match n, lines with
  | S n', l :: rest => length l + 1 + lineOffset n' rest
  | _, _ => 0
  end.

(** The loop of [positionAt] from line [line] on; offsets are never
    negative where the code calls it. *)
Fixpoint positionLoop (lines : list jsstring) (line currentOffset offset : nat)
    : option Position :=
  match lines with
  | [] => None
  | l :: rest =>
      let lineLength := length l + 1 in
      if offset <? currentOffset + lineLength
      then Some (mkPosition line (offset - currentOffset))
      else positionLoop rest (S line) (currentOffset + lineLength) offset
  end.

Section MockDocument.

(** [createMockDocument(text)] *)
Variable text : jsstring.

Definition lines : list jsstring := splitLines text [].

Definition offsetAt (position : Position) : nat :=
  lineOffset (line position) lines + character position.

Definition positionAt (offset : nat) : Position :=
  match positionLoop lines 0 0 offset with
  | Some position => position
  | None =>
      mkPosition (length lines - 1)
                 (match last lines with Some l => length l | None => 0 end)
  end.

Definition getText (r : Range) : jsstring :=
  slice text (Z.of_nat (offsetAt (start r))) (Z.of_nat (offsetAt (end_ r))).

End MockDocument.

(** [Range.intersection] of the mock of the editor API. *)
Definition mockIntersection (this other : Range) : option Range :=
  if (line (end_ this) <? line (start other))
     || (line (end_ other) <? line (start this))
  then None
  else Some this.

Definition isDelimiter (c : N) : bool :=
  ((c =? 32) || (c =? nl) || (c =? 46) || (c =? 44) || (c =? 58))%N.

(** The loop of [createRealisticChunks]. *)
Fixpoint realisticLoop (text buffer : jsstring) (chunks : list jsstring)
    : list jsstring :=
  match text with
  | [] =>
      match buffer with
      | [] => chunks
      | _ :: _ => chunks ++ [buffer]
      end
  | char :: rest =>
      let buffer := buffer ++ [char] in
      if isDelimiter char
      then realisticLoop rest [] (chunks ++ [buffer])
      else realisticLoop rest buffer chunks
  end.

Definition createRealisticChunks (text : jsstring) : list jsstring :=
  realisticLoop text [] [].

(** The options of [MockAnthropicStream]; an option that is not set, or set
    to zero, is falsy and counts as zero here. *)
Record StreamOptions := mkOptions {
  charsPerChunk : nat;
  abortAfterChunks : nat;
  errorAfterChunks : nat
}.

Inductive Outcome := Finished | StreamAborted | NetworkError.

(** The loop of the iterator over what is left of [responseText], with the
    chunks yielded and how the stream ended. *)
Fixpoint streamLoop (options : StreamOptions) (fuel : nat) (rest : jsstring)
    (chunkCount : nat) : list jsstring * Outcome :=
  match fuel, rest with
  | S fuel', _ :: _ =>
      let n := match charsPerChunk options with 0 => 1 | n => n end in
      let chunkCount := S chunkCount in
      if (0 <? abortAfterChunks options)
         && (abortAfterChunks options <? chunkCount)
      then ([], StreamAborted)
      else if (0 <? errorAfterChunks options)
              && (errorAfterChunks options <? chunkCount)
      then ([], NetworkError)
      else
        let '(chunks, outcome) :=
          streamLoop options fuel' (drop n rest) chunkCount in
        (take n rest :: chunks, outcome)
  | _, _ => ([], Finished)
  end.

Definition mockStream (responseText : jsstring) (options : StreamOptions)
    : list jsstring * Outcome :=
  streamLoop options (length responseText) responseText 0.

End Mocks.

(** * The vocabulary of the properties *)

(** Literals with quotes and line breaks: a backquote in the literal stands
    for the straight double quote, and [lines] joins with line feeds. *)
Definition jsq (s : string) : jsstring :=
  map (fun c => if (c =? 96)%N then dquote else c) (js s).

Fixpoint lines (ls : list string) : jsstring :=
  match ls with
  | [] => []
  | [l] => jsq l
  | l :: rest => jsq l ++ nl :: lines rest
  end.

(** A match found [d] code units into the text, seen from its start. *)
Definition shiftMatch (d : nat) (m : Match) : Match :=
  mkMatch (d + index m) (matchLength m) (group m).

(** The suggestions the loop emits depend on the blocks alone. *)
Fixpoint emitted (blocks : list jsstring) : list ParsedSuggestion :=
  match blocks with
  | [] => []
  | block :: rest =>
      if (match rest with [] => true | _ => false end)
         && negb (isBlockComplete block)
      then []
      else
        match parseIssueBlock block with
        | Some suggestion => suggestion :: emitted rest
        | None => emitted rest
        end
  end.

(** The required fields other than FIX. *)
Definition requiredFields : list jsstring :=
  [js "EXCERPT"; js "CATEGORY"; js "SEVERITY"; js "PROBLEM"].

Definition severityTokens : list jsstring :=
  [js "high"; js "moderate"; js "low"].

(** A block is malformed at the field level when the name of a required
    field other than FIX is absent from it, or when its SEVERITY token is
    none of the three recognised ones. *)
Definition malformed (block : jsstring) : Prop :=
  (exists f, f ∈ requiredFields /\ hasField f block = false)
  \/ (exists token,
        extractField block (js "SEVERITY") (Some (js "PROBLEM:")) = Some token
        /\ toLowerCase token ∉ severityTokens).

(** A block both the completeness detector and the assembler accept. *)
Definition wellFormed (block : jsstring) : Prop :=
  isBlockComplete block = true /\ is_Some (parseIssueBlock block).

(** The literal [p], compared without regard to case, stands at position
    [i] of [s]. *)
Definition occursAt (p s : jsstring) (i : nat) : Prop :=
  is_Some (lit true p (drop i s)).

(** The first, or the last, code unit of a text exists and is no white
    space. *)
Definition solid (o : option N) : Prop :=
  exists c, o = Some c /\ isWhiteSpace c = false.

Definition space : N := 32%N.

Definition lineTerminator (c : N) : bool :=
  ((c =? 10) || (c =? 13) || (c =? 8232) || (c =? 8233))%N.

(** A name that stands for itself in the text of a regular expression: it
    is made of ASCII letters, digits, spaces, underscores and colons, none
    of which is a metacharacter, and with the [i] flag its letters match in
    either case and nothing else does. *)
Definition plainChar (c : N) : bool :=
  ((65 <=? c) && (c <=? 90) || (97 <=? c) && (c <=? 122)
   || isDigit c || (c =? 32) || (c =? 95) || (c =? 58))%N.

Definition plainName (name : jsstring) : bool := forallb plainChar name.

(** Two texts that differ at most in the case of their ASCII letters. *)
Definition sameLetters (a b : jsstring) : Prop :=
  map upperChar a = map upperChar b.

(** The typographic quotation marks, single and double, U+2018 to U+201F. *)
Definition typographic (c : N) : bool := ((8216 <=? c) && (c <=? 8223))%N.

(** C9 as the design document words it: the stop name ends a value only
    where it starts a line.  So a value [v] on one line, closed by a line
    break and the stop name, would come back whole whatever it holds. *)
Definition stop_only_at_line_start : Prop :=
  forall name stop v rest : jsstring,
    stop <> [] ->
    solid (head v) -> solid (last v) ->
    Forall (fun c => lineTerminator c = false) v ->
    extractField ((name ++ js ":") ++ [space] ++ v ++ [nl] ++ stop ++ rest)
                 name (Some stop)
    = Some (stripQuotes v).

Definition hasAllFields (block : jsstring) : bool :=
  hasField (js "EXCERPT") block && hasField (js "CATEGORY") block
  && hasField (js "SEVERITY") block && hasField (js "PROBLEM") block
  && hasField (js "FIX") block.

(** The text behind the first place where [marker] stands. *)
Fixpoint afterMarker (marker s : jsstring) : option jsstring :=
  match lit true marker s with
  | Some t => Some t
  | None =>
      match s with
      | [] => None
      | _ :: s' => afterMarker marker s'
      end
  end.

(** The raw FIX value in the words of the design document: what follows the
    FIX marker up to the end of the block, trimmed and with its quotes. *)
Definition fixValue (block : jsstring) : jsstring :=
  match afterMarker (js "FIX:") block with
  | Some t => trim t
  | None => []
  end.

(** A value that begins with a quote character of [quoteChars], the
    straight double or the straight single quote, also ends with that quote
    and is longer than one character. *)
Definition quoteClosed (v : jsstring) : Prop :=
  forall q, q ∈ quoteChars ->
    startsWith v [q] = true -> endsWith v [q] = true /\ 1 < length v.

(** C2 as worded: with all five names present, the block is complete
    exactly when a quote that opens the FIX value is closed; a value without
    quotes and an empty value both count as complete. *)
Definition completeness_as_claimed : Prop :=
  forall block, hasAllFields block = true ->
    (isBlockComplete block = true <-> quoteClosed (fixValue block)).

(** The stream of the design document's end-to-end scenario. *)
Definition scenario : jsstring :=
  js "---" ++ [nl] ++ js "ISSUE 1" ++ [nl]
  ++ js "EXCERPT: " ++ [dquote] ++ js "The cat sat on mat" ++ [dquote] ++ [nl]
  ++ js "CATEGORY: grammar" ++ [nl]
  ++ js "SEVERITY: high" ++ [nl]
  ++ js "PROBLEM: Missing article" ++ [nl]
  ++ js "FIX: The cat sat on the mat".

(** The fragments of the mock stream of the tests: [charsPerChunk] code
    units at a time. *)
Fixpoint fragments (fuel charsPerChunk : nat) (responseText : jsstring)
    : list jsstring :=
  match fuel, responseText with
  | S fuel', _ :: _ =>
      take charsPerChunk responseText
        :: fragments fuel' charsPerChunk (drop charsPerChunk responseText)
  | _, _ => []
  end.

Definition scenarioRecord (fix_ : jsstring) : ParsedSuggestion :=
  mkSuggestion (js "Missing article") (js "The cat sat on mat") (js "grammar")
               High (js "Missing article") fix_.

(** A buffer of three blocks: the first carries a SEVERITY token that is
    not recognised, the two behind it are well-formed. *)
Definition issueHeader (n : string) : jsstring :=
  js "---" ++ [nl] ++ js "ISSUE " ++ js n ++ [nl].

Definition issueBody (excerpt severity fix_ : string) : jsstring :=
  js "EXCERPT: " ++ js excerpt ++ [nl]
  ++ js "CATEGORY: grammar" ++ [nl]
  ++ js "SEVERITY: " ++ js severity ++ [nl]
  ++ js "PROBLEM: wrong" ++ [nl]
  ++ js "FIX: " ++ js fix_ ++ [nl].

(** A text without white space at either end: it is empty, or its first and
    its last code unit are no white space. *)
Definition solidEnds (s : jsstring) : Prop :=
  s = [] \/ (solid (head s) /\ solid (last s)).

(** * Properties *)

(** ** Facts about strings *)

Section StringFacts.

Lemma trimStart_ws c s : isWhiteSpace c = true -> trimStart (c :: s) = trimStart s.
Proof. intros H. simpl. now rewrite H. Qed.

Lemma trim_ws c s : isWhiteSpace c = true -> trim (c :: s) = trim s.
Proof. intros H. unfold trim. now rewrite trimStart_ws. Qed.

Lemma sliceFrom_drop (s : jsstring) (n : nat) :
  sliceFrom s (Z.of_nat n) = drop n s.
Proof.
  unfold sliceFrom, slice, zlen.
  destruct (Z.ltb_spec (Z.of_nat n) 0) as [Hn | _]; [lia |].
  destruct (Z.ltb_spec (Z.of_nat (length s)) 0) as [Hl | _]; [lia |].
  rewrite Z.min_id.
  destruct (Nat.le_gt_cases n (length s)) as [Hle | Hgt].
  - rewrite Z.min_l by lia. rewrite Nat2Z.id.
    apply take_ge. rewrite length_drop. lia.
  - rewrite Z.min_r by lia. rewrite Nat2Z.id.
    rewrite !drop_ge by lia. now rewrite take_nil.
Qed.

Lemma slice_inner (a b : N) (mid : jsstring) :
  slice (a :: mid ++ [b]) 1 (-1) = mid.
Proof.
  unfold slice, zlen. simpl length. rewrite length_app. simpl length.
  change (1 <? 0)%Z with false. change (-1 <? 0)%Z with true. cbv iota.
  rewrite Z.min_l by lia. rewrite Z.max_l by lia.
  change (Z.to_nat 1) with 1. simpl drop. rewrite drop_0.
  replace (Z.to_nat _) with (length mid) by lia.
  now rewrite take_app_length.
Qed.

Lemma startsWith_head (c q : N) (s : jsstring) :
  startsWith (c :: s) [q] = (q =? c)%N.
Proof. destruct s; simpl; now rewrite andb_true_r. Qed.

Lemma endsWith_last (c q : N) (s : jsstring) :
  endsWith (s ++ [c]) [q] = (q =? c)%N.
Proof.
  unfold endsWith. rewrite rev_app_distr. simpl.
  destruct (rev s); simpl; now rewrite andb_true_r.
Qed.

End StringFacts.

(** ** Facts about the matchers *)

Section RegexFacts.

Context {A : Type}.

Lemma lit_app ci (p t : jsstring) : lit ci p (p ++ t) = Some t.
Proof.
  induction p as [| c p IH]; simpl; [reflexivity |].
  destruct ci; now rewrite N.eqb_refl.
Qed.

Lemma lit_length ci (p s s' : jsstring) :
  lit ci p s = Some s' -> length s = length p + length s'.
Proof.
  revert s. induction p as [| c p IH]; intros s H; simpl in *.
  - now inversion H.
  - destruct s as [| d s]; [discriminate |].
    destruct (if ci then _ else _); [| discriminate].
    apply IH in H. simpl. lia.
Qed.

Lemma starG_inv c (s : jsstring) (k : jsstring -> option A) r :
  starG c s k = Some r -> exists s', k s' = Some r /\ length s' <= length s.
Proof.
  induction s as [| x s IH]; simpl; intros H.
  - eauto.
  - destruct (c x).
    + destruct (starG c s k) as [r' |] eqn:E.
      * inversion H; subst. destruct (IH eq_refl) as (s' & ? & ?).
        exists s'. split; [assumption | lia].
      * exists (x :: s). split; [assumption | simpl; lia].
    + exists (x :: s). split; [assumption | simpl; lia].
Qed.

Lemma plusG_inv c (s : jsstring) (k : jsstring -> option A) r :
  plusG c s k = Some r -> exists s', k s' = Some r /\ length s' < length s.
Proof.
  destruct s as [| x s]; simpl; [discriminate |].
  destruct (c x); [| discriminate].
  intros H. apply starG_inv in H as (s' & ? & ?).
  exists s'. split; [assumption | lia].
Qed.

Lemma starL_inv c (acc s : jsstring) (k : jsstring -> jsstring -> option A) r :
  starL c acc s k = Some r ->
  exists acc' s', k acc' s' = Some r /\ length s' <= length s.
Proof.
  revert acc. induction s as [| x s IH]; intros acc; simpl.
  - destruct (k acc []) eqn:E; [| discriminate].
    intros H; inversion H; subst. eauto.
  - destruct (k acc (x :: s)) eqn:E.
    + intros H; inversion H; subst. exists acc, (x :: s). auto.
    + destruct (c x); [| discriminate].
      intros H. apply IH in H as (acc' & s' & ? & ?).
      exists acc', s'. split; [assumption | simpl; lia].
Qed.

(** Greedy repetition stops in front of a character outside the class. *)
Lemma starG_exact c (w t : jsstring) (k : jsstring -> option A) r :
  Forall (fun x => c x = true) w ->
  match t with [] => True | y :: _ => c y = false end ->
  k t = Some r ->
  starG c (w ++ t) k = Some r.
Proof.
  intros Hw Ht Hk. induction Hw as [| x w Hx Hw IH]; simpl.
  - destruct t as [| y t]; simpl; [assumption |]. now rewrite Ht.
  - now rewrite Hx, IH.
Qed.

(** When every success of the continuation yields the same result, greedy
    repetition succeeds as soon as some split does. *)
Lemma starG_const c (w t : jsstring) (k : jsstring -> option A) r :
  (forall u r', k u = Some r' -> r' = r) ->
  Forall (fun x => c x = true) w ->
  k t = Some r ->
  starG c (w ++ t) k = Some r.
Proof.
  intros Hconst Hw Hk. induction Hw as [| x w Hx Hw IH]; simpl.
  - destruct t as [| y t]; simpl; [assumption |].
    destruct (c y); [| assumption].
    destruct (starG c t k) as [r' |] eqn:E; [| assumption].
    apply starG_inv in E as (u & Hu & _). f_equal. eauto.
  - now rewrite Hx, IH.
Qed.

(** Greedy repetition fails when the continuation fails after every run of
    the class it can take. *)
Lemma starG_none c (s : jsstring) (k : jsstring -> option A) :
  (forall m, m <= length s -> Forall (fun x => c x = true) (take m s) ->
             k (drop m s) = None) ->
  starG c s k = None.
Proof.
  induction s as [| x s IH]; intros H; simpl.
  - apply (H 0); [simpl; lia | constructor].
  - assert (H0 : k (x :: s) = None) by (apply (H 0); [simpl; lia | constructor]).
    destruct (c x) eqn:Hx; [| assumption].
    rewrite IH; [assumption |].
    intros m Hm Hall. apply (H (S m)); [simpl; lia |].
    simpl. constructor; assumption.
Qed.

(** Lazy repetition stops at the first split at which the continuation
    succeeds. *)
Lemma starL_first c (acc a t : jsstring)
    (k : jsstring -> jsstring -> option A) r :
  Forall (fun x => c x = true) a ->
  (forall j, j < length a -> k (acc ++ take j a) (drop j a ++ t) = None) ->
  k (acc ++ a) t = Some r ->
  starL c acc (a ++ t) k = Some r.
Proof.
  intros Ha. revert acc. induction Ha as [| x a Hx Ha IH]; intros acc Hnone Hk.
  - rewrite app_nil_r in Hk. simpl.
    destruct t; simpl; now rewrite Hk.
  - simpl. pose proof (Hnone 0 ltac:(simpl; lia)) as H0.
    simpl in H0. rewrite app_nil_r in H0. rewrite H0, Hx.
    apply IH.
    + intros j Hj. specialize (Hnone (S j) ltac:(simpl; lia)).
      simpl in Hnone. now rewrite <- app_assoc.
    + now rewrite <- app_assoc.
Qed.

Lemma search_here (p : jsstring -> option A) (s : jsstring) r :
  p s = Some r -> search p s = Some (0, r).
Proof. intros H. destruct s; simpl; now rewrite H. Qed.

Lemma search_skip (p : jsstring -> option A) (pre s : jsstring) r :
  (forall i, i < length pre -> p (drop i (pre ++ s)) = None) ->
  p s = Some r ->
  search p (pre ++ s) = Some (length pre, r).
Proof.
  induction pre as [| x pre IH]; intros Hnone Hp; simpl.
  - now apply search_here.
  - pose proof (Hnone 0 ltac:(simpl; lia)) as H0. simpl in H0. rewrite H0.
    rewrite IH; [reflexivity | | assumption].
    intros i Hi. apply (Hnone (S i)). simpl. lia.
Qed.

Lemma search_none_mono {B} (p : jsstring -> option A)
    (q : jsstring -> option B) (s : jsstring) :
  (forall t, p t = None -> q t = None) ->
  search p s = None -> search q s = None.
Proof.
  intros Hpq. induction s as [| x s IH]; simpl.
  - destruct (p []) eqn:E; [discriminate |]. now rewrite (Hpq _ E).
  - destruct (p (x :: s)) eqn:E; [discriminate |]. rewrite (Hpq _ E).
    destruct (search p s) as [[i r] |]; [discriminate |].
    intros _. now rewrite IH.
Qed.

Lemma search_short (p : jsstring -> option A) (n : nat) (s : jsstring) :
  (forall t, length t < n -> p t = None) ->
  length s < n -> search p s = None.
Proof.
  intros Hp. induction s as [| x s IH]; intros Hs; simpl.
  - now rewrite Hp.
  - rewrite Hp by assumption. rewrite IH; [reflexivity | simpl in Hs; lia].
Qed.

End RegexFacts.

(** ** Global matching restarts on the rest of the text *)

Section MatchAllFacts.

Variable p : jsstring -> option (nat * jsstring).

(** The pattern never matches the empty string and never past the text. *)
Hypothesis p_length :
  forall s len g, p s = Some (len, g) -> 1 <= len <= length s.

Lemma shiftMatch_group d ms : map group (map (shiftMatch d) ms) = map group ms.
Proof. induction ms; simpl; congruence. Qed.

Lemma matchAllFrom_skip skip : forall off s,
  skip <= length s ->
  matchAllFrom p off skip s = matchAllFrom p (off + skip) 0 (drop skip s).
Proof.
  induction skip as [| k IH]; intros off s Hs.
  - now rewrite Nat.add_0_r, drop_0.
  - destruct s as [| x s]; simpl in Hs; [lia |].
    simpl matchAllFrom at 1. rewrite IH by lia.
    now replace (S off + k) with (off + S k) by lia.
Qed.

(** What follows a match in the list of all matches is the list of all
    matches of the text behind it. *)
Lemma matchAllFrom_tail : forall n s off ms1 m ms2,
  length s <= n ->
  matchAllFrom p off 0 s = ms1 ++ m :: ms2 ->
  off <= index m + matchLength m
  /\ ms2 = matchAllFrom p (index m + matchLength m) 0
             (drop (index m + matchLength m - off) s).
Proof.
  induction n as [| n IH]; intros s off ms1 m ms2 Hn Hms.
  - destruct s; simpl in Hn; [| lia].
    simpl in Hms. destruct (p []) as [[len g] |] eqn:E.
    + apply p_length in E. simpl in E. lia.
    + destruct ms1; discriminate.
  - destruct s as [| x s].
    { simpl in Hms. destruct (p []) as [[len g] |] eqn:E.
      - apply p_length in E. simpl in E. lia.
      - destruct ms1; discriminate. }
    simpl in Hn. simpl in Hms.
    destruct (p (x :: s)) as [[len g] |] eqn:E.
    + pose proof (p_length _ _ _ E) as Hlen. simpl in Hlen.
      rewrite Nat.max_l in Hms by lia.
      rewrite matchAllFrom_skip in Hms by lia.
      replace (S off + pred len) with (off + len) in Hms by lia.
      destruct ms1 as [| m1 ms1]; simpl in Hms.
      * inversion Hms; subst m ms2. simpl. split; [lia |].
        replace (off + len - off) with (S (pred len)) by lia.
        reflexivity.
      * inversion Hms as [[Hm1 Hrest]].
        apply IH in Hrest as [Hle Hms2]; [| rewrite length_drop; lia].
        split; [lia |].
        rewrite Hms2. f_equal. rewrite drop_drop.
        replace (index m + matchLength m - off)
          with (S (pred len + (index m + matchLength m - (off + len)))) by lia.
        reflexivity.
    + apply IH in Hms as [Hle Hms2]; [| lia].
      split; [lia |].
      rewrite Hms2. f_equal.
      replace (index m + matchLength m - off)
        with (S (index m + matchLength m - S off)) by lia.
      reflexivity.
Qed.

Lemma matchAllFrom_shift : forall s off skip,
  matchAllFrom p off skip s = map (shiftMatch off) (matchAllFrom p 0 skip s).
Proof.
  assert (Hcomp : forall off ms,
             map (shiftMatch off) (map (shiftMatch 1) ms)
             = map (shiftMatch (S off)) ms).
  { intros off ms. rewrite map_map. apply map_ext. intros [i l g].
    unfold shiftMatch. simpl. f_equal. lia. }
  induction s as [| x s IH]; intros off skip.
  - destruct skip; simpl; [| reflexivity].
    destruct (p []) as [[len g] |]; simpl; [| reflexivity].
    unfold shiftMatch. simpl. now rewrite Nat.add_0_r.
  - destruct skip as [| k]; simpl.
    + destruct (p (x :: s)) as [[len g] |]; simpl.
      * unfold shiftMatch at 1. simpl. rewrite Nat.add_0_r. f_equal.
        rewrite (IH 1), Hcomp. apply IH.
      * rewrite (IH 1), Hcomp. apply IH.
    + rewrite (IH 1), Hcomp. apply IH.
Qed.

Lemma matchAll_tail (s : jsstring) ms1 m ms2 :
  matchAll p s = ms1 ++ m :: ms2 ->
  map group ms2
  = map group (matchAll p (drop (index m + matchLength m) s)).
Proof.
  intros H. unfold matchAll in *.
  apply (matchAllFrom_tail (length s)) in H as [_ H]; [| lia].
  rewrite Nat.sub_0_r in H. rewrite H.
  rewrite matchAllFrom_shift. apply shiftMatch_group.
Qed.

End MatchAllFacts.

Lemma issuePattern_length (s : jsstring) len g :
  issuePattern s = Some (len, g) -> 1 <= len <= length s.
Proof.
  unfold issuePattern. intros H.
  destruct (lit true (js "---") s) as [s1 |] eqn:E1; [| discriminate].
  apply lit_length in E1. simpl in E1.
  apply starG_inv in H as (s2 & H & L2).
  destruct (lit true [nl] s2) as [s3 |] eqn:E3; [| discriminate].
  apply lit_length in E3.
  destruct (lit true (js "ISSUE") s3) as [s4 |] eqn:E4; [| discriminate].
  apply lit_length in E4.
  apply plusG_inv in H as (s5 & H & L5).
  apply plusG_inv in H as (s6 & H & L6).
  apply starG_inv in H as (s7 & H & L7).
  destruct (lit true [nl] s7) as [s8 |] eqn:E8; [| discriminate].
  apply lit_length in E8.
  apply starL_inv in H as (block & s9 & H & L9).
  destruct (blockEnd s9); [| discriminate].
  inversion H; subst. simpl in *. lia.
Qed.

(** ** The loop of [parsePartialBuffer] *)

Lemma partialLoop_emitted ms : forall acc n,
  fst (partialLoop ms acc n) = acc ++ emitted (map group ms).
Proof.
  induction ms as [| m ms IH]; intros acc n; simpl.
  - now rewrite app_nil_r.
  - replace (negb match ms with [] => false | _ => true end)
      with (match map group ms with [] => true | _ => false end)
      by (destruct ms; reflexivity).
    destruct (_ && _); simpl; [now rewrite app_nil_r |].
    destruct (parseIssueBlock (group m)); rewrite IH; [| reflexivity].
    now rewrite <- app_assoc.
Qed.

(** Either nothing was emitted and [lastCompleteIndex] is untouched, or it
    is the end of a match behind which nothing more is emitted. *)
Lemma partialLoop_last ms : forall acc n,
  (emitted (map group ms) = [] /\ snd (partialLoop ms acc n) = n)
  \/ exists ms1 m ms2,
       ms = ms1 ++ m :: ms2
       /\ snd (partialLoop ms acc n) = index m + matchLength m
       /\ emitted (map group ms2) = [].
Proof.
  induction ms as [| m ms IH]; intros acc n; simpl.
  - left. auto.
  - replace (negb match ms with [] => false | _ => true end)
      with (match map group ms with [] => true | _ => false end)
      by (destruct ms; reflexivity).
    destruct (_ && _); simpl; [left; auto |].
    destruct (parseIssueBlock (group m)) as [sg |].
    + right.
      destruct (IH (acc ++ [sg]) (index m + matchLength m))
        as [[He Hn] | (ms1 & m' & ms2 & -> & Hn & He)].
      * exists [], m, ms. auto.
      * exists (m :: ms1), m', ms2. auto.
    + destruct (IH acc n) as [[He Hn] | (ms1 & m' & ms2 & -> & Hn & He)].
      * left. auto.
      * right. exists (m :: ms1), m', ms2. auto.
Qed.

Lemma parsePartialBuffer_parsed (buffer : jsstring) :
  parsed (parsePartialBuffer buffer)
  = emitted (map group (matchAll issuePattern buffer)).
Proof.
  unfold parsePartialBuffer.
  pose proof (partialLoop_emitted (matchAll issuePattern buffer) [] 0) as H.
  destruct (partialLoop _ _ _) as [sugg n]. simpl in *. assumption.
Qed.

Lemma parsePartialBuffer_remainder (buffer : jsstring) :
  remainder (parsePartialBuffer buffer)
  = drop (snd (partialLoop (matchAll issuePattern buffer) [] 0)) buffer.
Proof.
  unfold parsePartialBuffer.
  destruct (partialLoop _ _ _) as [sugg n]. simpl.
  apply sliceFrom_drop.
Qed.

(** C3. Idempotence of the incremental parser: parsing the remainder that
    [parsePartialBuffer] returned, with no new input, yields no record. *)
Theorem parsePartialBuffer_idempotent (b : jsstring) :
  parsed (parsePartialBuffer (remainder (parsePartialBuffer b))) = [].
Proof.
  rewrite parsePartialBuffer_remainder, parsePartialBuffer_parsed.
  destruct (partialLoop_last (matchAll issuePattern b) [] 0)
    as [[He Hn] | (ms1 & m & ms2 & Hms & Hn & He)].
  - rewrite Hn, drop_0. assumption.
  - rewrite Hn.
    rewrite <- (matchAll_tail issuePattern issuePattern_length b ms1 m ms2 Hms).
    assumption.
Qed.

(** ** Malformed blocks *)

Lemma extractField_absent (block f : jsstring) stopAt :
  hasField f block = false -> extractField block f stopAt = None.
Proof.
  unfold hasField, test, extractField. intros H.
  destruct (search (lit true (f ++ js ":")) block) eqn:E; [discriminate |].
  rewrite (search_none_mono (lit true (f ++ js ":"))
             (fieldPattern f stopAt) block); [reflexivity | | exact E].
  intros t Ht. unfold fieldPattern. now rewrite Ht.
Qed.

Lemma severityOf_unknown (token : jsstring) :
  toLowerCase token ∉ severityTokens -> severityOf token = None.
Proof.
  intros H. unfold severityOf, eqb.
  repeat case_bool_decide; try reflexivity;
    exfalso; apply H; unfold severityTokens;
    match goal with E : toLowerCase token = _ |- _ => rewrite E end;
    set_solver.
Qed.

Lemma malformed_dropped (block : jsstring) :
  malformed block -> parseIssueBlock block = None.
Proof.
  unfold parseIssueBlock.
  intros [(f & Hf & Habs) | (token & Htok & Hsev)].
  - unfold requiredFields in Hf.
    repeat (apply elem_of_cons in Hf as [-> | Hf];
            [rewrite (extractField_absent _ _ _ Habs); cbn [truthy negb];
             now rewrite ?orb_true_r |]).
    inversion Hf.
  - rewrite Htok. change (default [] (Some token)) with token.
    destruct (_ || _); [reflexivity |].
    now rewrite (severityOf_unknown _ Hsev).
Qed.

(** When the last block is complete, every block is handed to the
    assembler and every record it builds is emitted. *)
Lemma emitted_all (blocks : list jsstring) :
  (forall b, last blocks = Some b -> isBlockComplete b = true) ->
  emitted blocks = omap parseIssueBlock blocks.
Proof.
  induction blocks as [| b blocks IH]; intros Hlast; simpl; [reflexivity |].
  assert (Hrest : emitted blocks = omap parseIssueBlock blocks).
  { apply IH. intros b' Hb'. apply Hlast.
    destruct blocks; [discriminate | exact Hb']. }
  destruct blocks as [| b' blocks].
  - rewrite (Hlast b eq_refl). simpl.
    destruct (parseIssueBlock b); reflexivity.
  - simpl andb. cbv iota. rewrite Hrest.
    destruct (parseIssueBlock b); reflexivity.
Qed.

(** C4. Malformed blocks never halt ingestion: when the blocks of a buffer
    are some blocks [pre], then a block malformed at the field level, then
    well-formed complete blocks [goods], one call of [parsePartialBuffer]
    yields no record for the malformed block and yields the record of every
    block of [goods], in order, behind those of [pre]. *)
Theorem malformed_block_does_not_halt (buffer : jsstring)
    (pre : list jsstring) (bad : jsstring) (goods : list jsstring) :
  map group (matchAll issuePattern buffer) = pre ++ bad :: goods ->
  malformed bad ->
  goods <> [] ->
  Forall wellFormed goods ->
  parseIssueBlock bad = None
  /\ exists records,
       Forall2 (fun g r => parseIssueBlock g = Some r) goods records
       /\ parsed (parsePartialBuffer buffer)
          = omap parseIssueBlock pre ++ records.
Proof.
  intros Hblocks Hbad Hne Hgoods.
  pose proof (malformed_dropped bad Hbad) as Hnone.
  split; [assumption |].
  exists (omap parseIssueBlock goods). split.
  - clear Hne Hblocks. induction Hgoods as [| g goods [_ [r Hr]] _ IH]; simpl.
    + constructor.
    + rewrite Hr. simpl. constructor; assumption.
  - rewrite parsePartialBuffer_parsed, Hblocks.
    rewrite emitted_all.
    + rewrite omap_app. simpl. now rewrite Hnone.
    + intros b Hb. rewrite last_app in Hb.
      destruct goods as [| g goods]; [contradiction |].
      rewrite last_cons in Hb.
      destruct (last (g :: goods)) as [b' |] eqn:El;
        [| apply last_None in El; discriminate].
      inversion Hb; subst b'.
      apply last_Some in El as (l' & El).
      rewrite El in Hgoods. apply Forall_app in Hgoods as [_ Hg].
      inversion Hg as [| ? ? [Hc _] _]; subst. assumption.
Qed.

(** ** Where a field value ends *)

(** With the [i] flag a literal matches every text with the same letters,
    whatever their case. *)
Lemma lit_sameLetters (p p' t : jsstring) :
  sameLetters p' p -> lit true p (p' ++ t) = Some t.
Proof.
  unfold sameLetters. revert p'.
  induction p as [| c p IH]; intros [| d p'] H; simpl in *;
    try discriminate; [reflexivity |].
  inversion H as [[Hc Hp]]. rewrite Hc, N.eqb_refl. now apply IH.
Qed.

Lemma sameLetters_app (a a' b b' : jsstring) :
  sameLetters a' a -> sameLetters b' b -> sameLetters (a' ++ b') (a ++ b).
Proof. unfold sameLetters. intros Ha Hb. now rewrite !map_app, Ha, Hb. Qed.

Lemma stopPattern_lit (stop stop' t : jsstring) :
  stop <> [] -> sameLetters stop' stop ->
  stopPattern (Some stop) (stop' ++ t) = true.
Proof.
  intros Hne Hsame. destruct stop as [| d stop]; [contradiction |].
  unfold stopPattern. now rewrite lit_sameLetters.
Qed.

Lemma stopPattern_inside (stop s : jsstring) :
  stop <> [] -> s <> [] -> lit true stop s = None ->
  stopPattern (Some stop) s = false.
Proof.
  intros Hne Hs Hlit. destruct stop as [| d stop]; [contradiction |].
  unfold stopPattern. rewrite Hlit. now destruct s.
Qed.

(** A run of white space inside a value that ends in a solid character ends
    inside the value. *)
Lemma ws_run_inside (v t : jsstring) (j m : nat) :
  solid (last v) ->
  j < length v ->
  Forall (fun x => isWhiteSpace x = true) (take m (drop j (v ++ t))) ->
  j + m < length v.
Proof.
  intros (z & Hlast & Hz) Hj Hws.
  destruct (Nat.lt_ge_cases (j + m) (length v)) as [Hlt | Hge]; [assumption |].
  exfalso.
  rewrite last_lookup in Hlast.
  assert (Hl : take m (drop j (v ++ t)) !! (pred (length v) - j) = Some z).
  { rewrite lookup_take_lt by lia. rewrite lookup_drop.
    replace (j + (pred (length v) - j)) with (pred (length v)) by lia.
    rewrite lookup_app_l by lia. assumption. }
  rewrite Forall_lookup in Hws. specialize (Hws _ _ Hl). congruence.
Qed.

Section FieldValue.

Variables name stop : jsstring.

(** The names as the block writes them, in whatever case. *)
Variables name' stop' : jsstring.

Hypothesis name_written : sameLetters name' name.
Hypothesis stop_written : sameLetters stop' stop.

(** The pattern of [extractField], started in front of a value [v] that is
    followed by white space [ws2] and the stop name, captures [v] when the
    stop name stands nowhere inside [v] behind its first character. *)
Lemma fieldPattern_value (ws1 v ws2 rest : jsstring) :
  stop <> [] ->
  Forall (fun x => isWhiteSpace x = true) ws1 ->
  Forall (fun x => isWhiteSpace x = true) ws2 ->
  solid (head v) -> solid (last v) ->
  (forall j, 1 <= j < length v ->
             ~ occursAt stop (v ++ ws2 ++ stop' ++ rest) j) ->
  fieldPattern name (Some stop)
    ((name' ++ js ":") ++ ws1 ++ v ++ ws2 ++ stop' ++ rest) = Some v.
Proof.
  intros Hstop Hws1 Hws2 (c & Hhead & Hc) Hlast Hfree.
  destruct v as [| c' v']; [discriminate |].
  simpl in Hhead. inversion Hhead; subst c'.
  unfold fieldPattern.
  rewrite (lit_sameLetters (name ++ js ":") (name' ++ js ":"))
    by (apply sameLetters_app; [exact name_written | reflexivity]).
  apply starG_exact; [assumption | simpl; assumption |].
  change ((c :: v') ++ ws2 ++ stop' ++ rest)
    with (c :: v' ++ ws2 ++ stop' ++ rest).
  unfold plusL, anyChar at 1. 
  apply starL_first.
  - apply Forall_forall. reflexivity.
  - intros j Hj. apply starG_none. intros m Hm Hrun.
    assert (Hin : S j + m < length (c :: v')).
    { apply (ws_run_inside (c :: v') (ws2 ++ stop' ++ rest)); [assumption | simpl; lia |].
      simpl. rewrite drop_app_le by lia. assumption. }
    rewrite stopPattern_inside; [reflexivity | assumption | |].
    + intros Hnil. apply (f_equal length) in Hnil.
      rewrite length_drop, length_app, length_drop in Hnil.
      simpl in Hin, Hnil. lia.
    + specialize (Hfree (S j + m) ltac:(lia)).
      unfold occursAt in Hfree.
      replace (drop (S j + m) ((c :: v') ++ ws2 ++ stop' ++ rest))
        with (drop m (drop j v' ++ ws2 ++ stop' ++ rest)) in Hfree.
      * destruct (lit true stop _); [exfalso; apply Hfree; eauto | reflexivity].
      * rewrite <- (drop_app_le v') by lia. rewrite drop_drop. reflexivity.
  - apply starG_const.
    + intros u r'. destruct (stopPattern _ u); simpl; congruence.
    + assumption.
    + now rewrite stopPattern_lit.
Qed.

End FieldValue.

(** C9, counterexample: in the block
    [EXCERPT: see CATEGORY: x] / [CATEGORY: g] the stop name inside the first
    line ends the value, which comes back as [see]. *)
Lemma stop_inside_line_ends_value : ~ stop_only_at_line_start.
Proof.
  intros H.
  specialize (H (js "EXCERPT") (js "CATEGORY:") (js "see CATEGORY: x") (js " g")).
  assert (E : extractField
                ((js "EXCERPT" ++ js ":") ++ [space] ++ js "see CATEGORY: x"
                   ++ [nl] ++ js "CATEGORY:" ++ js " g")
                (js "EXCERPT") (Some (js "CATEGORY:"))
              = Some (js "see")) by (vm_compute; reflexivity).
  rewrite H in E.
  - vm_compute in E. discriminate.
  - discriminate.
  - eexists. split; [reflexivity | reflexivity].
  - eexists. split; [reflexivity | reflexivity].
  - repeat constructor.
Qed.

(** C9, amended. For a field name and a stop name without metacharacters,
    [extractField] ends the value at the first place behind the value's
    first character where the stop name stands, in whatever case the block
    writes it and wherever in a line that place is: a value [v] without
    white space at its ends that holds no such place comes back as
    [stripQuotes v], whether white space, a line break or nothing at all
    separates it from the stop name.  The field name too is found in
    whatever case the block writes it.  Only the whole stop name counts, a
    truncated prefix of it does not end the value. *)
Theorem extractField_stops_at_first_stop
    (pre name name' ws1 v ws2 stop stop' rest : jsstring) :
  plainName name = true -> plainName stop = true ->
  stop <> [] ->
  sameLetters name' name -> sameLetters stop' stop ->
  (forall i, i < length pre ->
     ~ occursAt (name ++ js ":")
         (pre ++ (name' ++ js ":") ++ ws1 ++ v ++ ws2 ++ stop' ++ rest) i) ->
  Forall (fun x => isWhiteSpace x = true) ws1 ->
  Forall (fun x => isWhiteSpace x = true) ws2 ->
  solid (head v) -> solid (last v) ->
  (forall j, 1 <= j < length v ->
     ~ occursAt stop (v ++ ws2 ++ stop' ++ rest) j) ->
  extractField (pre ++ (name' ++ js ":") ++ ws1 ++ v ++ ws2 ++ stop' ++ rest)
               name (Some stop)
  = Some (stripQuotes v).
Proof.
  intros _ _ Hstop Hname Hstop' Hpre Hws1 Hws2 Hhead Hlast Hfree.
  unfold extractField.
  rewrite (search_skip _ pre _ v); [reflexivity | |].
  - intros i Hi. specialize (Hpre i Hi). unfold occursAt in Hpre.
    unfold fieldPattern.
    destruct (lit true (name ++ js ":") _); [| reflexivity].
    exfalso. apply Hpre. eauto.
  - now apply fieldPattern_value.
Qed.

(** The theorem at a block that writes the names in lower case and holds a
    truncated stop name inside the value: the value is [see CATEG]. *)
Lemma extractField_stops_at_first_stop_witness :
  extractField (js "excerpt: see CATEG category: x" ++ [nl]
                  ++ js "CATEGORY: g")
               (js "EXCERPT") (Some (js "CATEGORY:"))
  = Some (stripQuotes (js "see CATEG")).
Proof.
  apply (extractField_stops_at_first_stop
           [] (js "EXCERPT") (js "excerpt") [space] (js "see CATEG") [space]
           (js "CATEGORY:") (js "category:")
           (js " x" ++ [nl] ++ js "CATEGORY: g")).
  - vm_compute. reflexivity.
  - vm_compute. reflexivity.
  - discriminate.
  - vm_compute. reflexivity.
  - vm_compute. reflexivity.
  - simpl. lia.
  - repeat constructor.
  - repeat constructor.
  - eexists. split; reflexivity.
  - eexists. split; reflexivity.
  - intros j Hj. simpl in Hj.
    assert (Hcases : j = 1 \/ j = 2 \/ j = 3 \/ j = 4 \/ j = 5 \/ j = 6
                     \/ j = 7 \/ j = 8) by lia.
    repeat (destruct Hcases as [-> | Hcases]);
      try subst j; vm_compute; intros [x Hx]; discriminate.
Defined.

(** ** The completeness rule *)

(** C2, counterexample: a block with all five names whose FIX value is
    empty is not complete. *)
Lemma empty_fix_is_incomplete : ~ completeness_as_claimed.
Proof.
  intros H.
  specialize (H (js "EXCERPT: a CATEGORY: b SEVERITY: c PROBLEM: d FIX: ")
                ltac:(vm_compute; reflexivity)).
  assert (E : isBlockComplete
                (js "EXCERPT: a CATEGORY: b SEVERITY: c PROBLEM: d FIX: ")
              = false) by (vm_compute; reflexivity).
  rewrite E in H. destruct H as [_ H].
  enough (false = true) by discriminate. apply H.
  intros q _ Hq. vm_compute in Hq. discriminate.
Qed.

Lemma starL_to_end (acc s : jsstring) :
  starL anyChar acc s (fun value s3 => if atEnd s3 then Some value else None)
  = Some (acc ++ s).
Proof.
  revert acc. induction s as [| x s IH]; intros acc; simpl.
  - now rewrite app_nil_r.
  - rewrite IH. now rewrite <- app_assoc.
Qed.

Lemma fixCapture (t : jsstring) :
  t <> [] ->
  exists value,
    starG isWhiteSpace t (fun s2 =>
      plusL anyChar s2 (fun value s3 =>
        if atEnd s3 then Some value else None)) = Some value
    /\ trim value = trim t.
Proof.
  induction t as [| x t IH]; intros Hne; [contradiction |].
  cbn [starG].
  assert (Hhere : plusL anyChar (x :: t)
                    (fun value s3 => if atEnd s3 then Some value else None)
                  = Some (x :: t)).
  { unfold plusL, anyChar. now rewrite starL_to_end. }
  destruct (isWhiteSpace x) eqn:Hx.
  - destruct t as [| y t].
    + exists [x]. split; reflexivity.
    + destruct IH as (value & -> & Htrim); [discriminate |].
      exists value. split; [reflexivity |]. now rewrite (trim_ws x).
  - rewrite Hhere. eauto.
Qed.

Lemma fixPattern_short (t : jsstring) : length t < 4 -> fixPattern t = None.
Proof.
  intros Ht. unfold fixPattern.
  destruct (lit true (js "FIX:") t) as [s1 |] eqn:E; [| reflexivity].
  apply lit_length in E. simpl in E. lia.
Qed.

Lemma fixPattern_search (block t : jsstring) :
  afterMarker (js "FIX:") block = Some t ->
  match search fixPattern block with
  | Some (_, value) => t <> [] /\ trim value = trim t
  | None => t = []
  end.
Proof.
  induction block as [| x b IH]; intros H.
  - simpl in H. discriminate.
  - cbn [afterMarker] in H. cbn [search].
    destruct (lit true (js "FIX:") (x :: b)) as [t' |] eqn:E.
    + inversion H; subst t'. unfold fixPattern at 1. rewrite E.
      destruct t as [| y t].
      * simpl starG. simpl plusL.
        apply lit_length in E. simpl in E.
        rewrite (search_short fixPattern 4 b fixPattern_short); [reflexivity | lia].
      * destruct (fixCapture (y :: t)) as (value & -> & Htrim); [discriminate |].
        split; [discriminate | assumption].
    + unfold fixPattern at 1. rewrite E.
      specialize (IH H). destruct (search fixPattern b) as [[i value] |]; assumption.
Qed.

Lemma hasField_afterMarker (marker block : jsstring) :
  test (lit true marker) block = true ->
  exists t, afterMarker marker block = Some t.
Proof.
  unfold test. induction block as [| x b IH]; cbn [search afterMarker].
  - destruct (lit true marker []); [eauto | discriminate].
  - destruct (lit true marker (x :: b)); [eauto |].
    destruct (search (lit true marker) b) as [[i r] |]; [| discriminate].
    intros _. now apply IH.
Qed.

Lemma fixQuoteLoop_rule (v : jsstring) :
  fixQuoteLoop quoteChars v = true <-> v <> [] /\ quoteClosed v.
Proof.
  unfold quoteClosed, quoteChars. destruct v as [| c v].
  - simpl. split; [discriminate | intros [H _]; contradiction].
  - cbn [fixQuoteLoop]. rewrite !startsWith_head.
    destruct (N.eqb_spec dquote c) as [<- | Hd].
    + rewrite andb_true_iff, Nat.ltb_lt. split.
      * intros [He Hl]. split; [discriminate |].
        intros q Hq Hs. rewrite startsWith_head in Hs.
        apply N.eqb_eq in Hs. subst q. auto.
      * intros [_ H]. apply (H dquote); [repeat constructor |].
        rewrite startsWith_head. apply N.eqb_refl.
    + destruct (N.eqb_spec squote c) as [<- | Hs].
      * rewrite andb_true_iff, Nat.ltb_lt. split.
        -- intros [He Hl]. split; [discriminate |].
           intros q Hq Hst. rewrite startsWith_head in Hst.
           apply N.eqb_eq in Hst. subst q. auto.
        -- intros [_ H]. apply (H squote); [repeat constructor |].
           rewrite startsWith_head. apply N.eqb_refl.
      * split; [| reflexivity].
        intros _. split; [discriminate |].
        intros q Hq Hst. rewrite startsWith_head in Hst.
        apply N.eqb_eq in Hst. subst q. exfalso.
        repeat (apply elem_of_cons in Hq as [Hq | Hq]; [congruence |]).
        inversion Hq.
Qed.

(** C2, amended. For a block that contains all five field names and whose
    FIX value does not open with a typographic quotation mark,
    [isBlockComplete] returns true exactly when the FIX value is not empty
    after trimming and, if it begins with a straight double or single
    quote, also ends with that same character and is longer than one
    character; a block whose FIX value is empty is not complete.  The
    straight quotes are the only quote characters of the array the function
    consults, so a value that opens with a typographic mark is outside the
    rule: the function takes the mark for content. *)
Theorem isBlockComplete_rule (block : jsstring) :
  hasAllFields block = true ->
  (forall c, head (fixValue block) = Some c -> typographic c = false) ->
  (isBlockComplete block = true
   <-> fixValue block <> [] /\ quoteClosed (fixValue block)).
Proof.
  unfold hasAllFields, isBlockComplete, fixValue. intros Hall _.
  apply andb_true_iff in Hall as [Hall Hfix].
  apply andb_true_iff in Hall as [Hall Hproblem].
  apply andb_true_iff in Hall as [Hall Hseverity].
  apply andb_true_iff in Hall as [Hexcerpt Hcategory].
  rewrite Hexcerpt, Hcategory, Hseverity, Hproblem, Hfix. simpl.
  destruct (hasField_afterMarker (js "FIX:") block Hfix) as (t & Ht).
  rewrite Ht. pose proof (fixPattern_search block t Ht) as Hs.
  destruct (search fixPattern block) as [[i value] |].
  - destruct Hs as [_ <-]. apply fixQuoteLoop_rule.
  - subst t. split; [discriminate | intros [H _]; exfalso; now apply H].
Qed.

(** The rule at a block with the unquoted FIX value [e]. *)
Lemma isBlockComplete_rule_witness :
  isBlockComplete (js "EXCERPT: a CATEGORY: b SEVERITY: c PROBLEM: d FIX: e")
    = true
  <-> fixValue (js "EXCERPT: a CATEGORY: b SEVERITY: c PROBLEM: d FIX: e")
        <> []
      /\ quoteClosed
           (fixValue (js "EXCERPT: a CATEGORY: b SEVERITY: c PROBLEM: d FIX: e")).
Proof.
  apply (isBlockComplete_rule
           (js "EXCERPT: a CATEGORY: b SEVERITY: c PROBLEM: d FIX: e")).
  - vm_compute. reflexivity.
  - intros c Hc. vm_compute in Hc. inversion Hc. reflexivity.
Defined.

(** Outside the rule: a FIX value that opens with a left double quotation
    mark and never closes it counts as complete, and so does one that opens
    with a left single quotation mark. *)
Example typographic_opening_is_content :
  isBlockComplete
    (js "EXCERPT: a CATEGORY: b SEVERITY: c PROBLEM: d FIX: "
       ++ [ldquote] ++ js "I was") = true
  /\ isBlockComplete
       (js "EXCERPT: a CATEGORY: b SEVERITY: c PROBLEM: d FIX: "
          ++ [lsquote] ++ js "I was") = true.
Proof. split; vm_compute; reflexivity. Qed.

(** ** Quote stripping *)

(** C8. Quote stripping is single-layer: the triple-quoted [a] loses one
    pair of quotes and keeps the other two; and every value that, once
    trimmed, begins and ends with the same recognised quote character loses
    exactly that outer pair, what stood between the two, quote characters
    included, coming back trimmed and otherwise untouched. *)
Theorem stripQuotes_single_layer :
  stripQuotes ([dquote; dquote; dquote] ++ js "a" ++ [dquote; dquote; dquote])
    = [dquote; dquote] ++ js "a" ++ [dquote; dquote]
  /\ forall (text : jsstring) (q : N) (inner : jsstring),
       q ∈ quoteChars ->
       trim text = q :: inner ++ [q] ->
       stripQuotes text = trim inner.
Proof.
  split; [vm_compute; reflexivity |].
  intros text q inner Hq Htrim. unfold stripQuotes. rewrite Htrim.
  assert (Hends : endsWith (q :: inner ++ [q]) [q] = true).
  { change (q :: inner ++ [q]) with ((q :: inner) ++ [q]).
    rewrite endsWith_last. apply N.eqb_refl. }
  assert (Hlen : (1 <? length (q :: inner ++ [q])) = true).
  { apply Nat.ltb_lt. simpl. rewrite length_app. simpl. lia. }
  unfold quoteChars in *.
  assert (Hcases : q = dquote \/ q = squote).
  { repeat (apply elem_of_cons in Hq as [Hq | Hq]; [auto |]). inversion Hq. }
  destruct Hcases; subst q; cbn [stripQuotesLoop];
    rewrite ?startsWith_head; cbn [N.eqb dquote squote Pos.eqb andb];
    rewrite Hends, Hlen; cbn [andb]; now rewrite slice_inner.
Qed.

(** The general part at the triple-quoted [a]. *)
Lemma stripQuotes_single_layer_witness :
  stripQuotes ([dquote; dquote; dquote] ++ js "a" ++ [dquote; dquote; dquote])
  = trim ([dquote; dquote] ++ js "a" ++ [dquote; dquote]).
Proof.
  apply (proj2 stripQuotes_single_layer
           ([dquote; dquote; dquote] ++ js "a" ++ [dquote; dquote; dquote])
           dquote
           ([dquote; dquote] ++ js "a" ++ [dquote; dquote])).
  - vm_compute. repeat constructor.
  - vm_compute. reflexivity.
Defined.

(** C7. A value between a typographic left quotation mark and its right
    counterpart comes back from [stripQuotes] with both marks still on: the
    loop compares each end of the value with one and the same straight
    quote. *)
Theorem stripQuotes_keeps_typographic_pair :
  stripQuotes ([ldquote] ++ js "a" ++ [rdquote])
    = [ldquote] ++ js "a" ++ [rdquote]
  /\ stripQuotes ([lsquote] ++ js "a" ++ [rsquote])
    = [lsquote] ++ js "a" ++ [rsquote].
Proof. split; vm_compute; reflexivity. Qed.

(** ** The excerpt locator *)

(** C6. Fuzzy match tolerance: for the document and the excerpt of the
    design document, [findExcerptPartialMatch] finds a span, and the text of
    the document under that span contains both [trying not] and
    [squint too much]. *)
Theorem fuzzy_match_tolerance :
  let text := js "She was trying not to squint too much in the light." in
  let excerpt := js "trying not squint too much" in
  exists m,
    ExcerptMatching.findExcerptPartialMatch text excerpt = Some m
    /\ let covered :=
         substring text (ExcerptMatching.index m)
           (ExcerptMatching.index m + ExcerptMatching.length m) in
       includes covered (js "trying not") = true
       /\ includes covered (js "squint too much") = true.
Proof.
  eexists. split; [vm_compute; reflexivity |].
  split; vm_compute; reflexivity.
Qed.

(** C10. When the suffix of the excerpt stands in the document in front of
    the prefix, inside the window of fifty characters, the span that
    [findExcerptPartialMatch] returns has a negative length: here the prefix
    is found at 35, the suffix at 0, and the length is 0 + 5 - 35. *)
Theorem fuzzy_span_negative_length :
  ExcerptMatching.findExcerptPartialMatch
    (js "vwxyz" ++ repeat 120%N 30 ++ js "abcde")
    (js "abcde0123456789vwxyz")
  = Some (ExcerptMatching.mkPartialMatch 35 (-30)).
Proof. vm_compute. reflexivity. Qed.

(** ** Streaming *)

(** C1. The stream of the end-to-end scenario is one well-formed block.
    Parsed in one shot it gives the record with the rewrite
    [The cat sat on the mat]; fed three code units at a time it gives a
    record as soon as the first fragment of the FIX value has arrived, with
    the rewrite [The], and nothing of what follows is parsed any more. *)
Theorem chunked_stream_truncates_rewrite :
  let chunks := fragments (length scenario) 3 scenario in
  concat chunks = scenario
  /\ Forall wellFormed (map group (matchAll issuePattern scenario))
  /\ review [scenario] = [scenarioRecord (js "The cat sat on the mat")]
  /\ parseCompleteIssueBlocks scenario
     = [scenarioRecord (js "The cat sat on the mat")]
  /\ review chunks = [scenarioRecord (js "The")].
Proof.
  cbv zeta. split; [vm_compute; reflexivity |].
  split.
  - set (blocks := map group (matchAll issuePattern scenario)).
    vm_compute in blocks. subst blocks.
    constructor; [| constructor].
    split; [vm_compute; reflexivity | eexists; vm_compute; reflexivity].
  - repeat split; vm_compute; reflexivity.
Qed.

(** The theorem at a buffer of three blocks, the first with the SEVERITY
    token [urgent]. *)
Lemma malformed_block_does_not_halt_witness :
  parseIssueBlock (issueBody "one" "urgent" "uno") = None
  /\ exists records,
       Forall2 (fun g r => parseIssueBlock g = Some r)
         [issueBody "two" "high" "due"; issueBody "three" "low" "tre"] records
       /\ parsed (parsePartialBuffer
                    (issueHeader "1" ++ issueBody "one" "urgent" "uno"
                     ++ issueHeader "2" ++ issueBody "two" "high" "due"
                     ++ issueHeader "3" ++ issueBody "three" "low" "tre"))
          = omap parseIssueBlock [] ++ records.
Proof.
  apply (malformed_block_does_not_halt _ [] (issueBody "one" "urgent" "uno")
           [issueBody "two" "high" "due"; issueBody "three" "low" "tre"]).
  - vm_compute. reflexivity.
  - right. exists (js "urgent"). split; [vm_compute; reflexivity |].
    vm_compute. intros H.
    repeat (apply elem_of_cons in H as [H | H]; [discriminate |]).
    inversion H.
  - discriminate.
  - repeat constructor; try (vm_compute; reflexivity);
      eexists; vm_compute; reflexivity.
Defined.

(** ** The assignment policy *)

Module Policy.

Import Extension.

Section OrderedPairs.

Context {A : Type} (R : A -> A -> Prop).

Lemma pairs_snoc (l : list A) (x : A) :
  ForallOrdPairs R l -> Forall (fun a => R a x) l ->
  ForallOrdPairs R (l ++ [x]).
Proof.
  induction 1 as [| a l Ha Hl IH]; intros Hx; simpl.
  - repeat constructor.
  - inversion Hx; subst. constructor.
    + apply Forall_app. split; [assumption | repeat constructor; assumption].
    + now apply IH.
Qed.

Lemma pairs_sublist (l1 l2 : list A) :
  l1 `sublist_of` l2 -> ForallOrdPairs R l2 -> ForallOrdPairs R l1.
Proof.
  induction 1 as [| x l1 l2 Hsub IH | x l1 l2 Hsub IH]; intros H2.
  - constructor.
  - inversion H2; subst. constructor; [| now apply IH].
    eapply Forall_impl with (P := R x); [| auto].
    rewrite Forall_forall in *. intros y Hy.
    match goal with H : forall _, _ -> R x _ |- _ => apply H end.
    eapply sublist_subseteq; eassumption.
  - inversion H2; subst. now apply IH.
Qed.

Lemma pairs_map {B} (f : B -> A) (l : list B) :
  ForallOrdPairs R (map f l) ->
  ForallOrdPairs (fun x y => R (f x) (f y)) l.
Proof.
  induction l as [| b l IH]; simpl; intros H; [constructor |].
  inversion H; subst. constructor; [| now apply IH].
  now rewrite Forall_map in *.
Qed.

End OrderedPairs.

Section Session.

Variable intersection : Range -> Range -> option Range.
Variable positionAt : Z -> Position.
Variable extractMisspelledWord : jsstring -> option jsstring.
Variable text : jsstring.

Abbreviation overlaps := (overlapsUsed intersection).
Abbreviation add := (addSuggestionAsDiagnostic intersection positionAt
                   extractMisspelledWord text).
Abbreviation run := (session intersection positionAt extractMisspelledWord text).

Lemma overlaps_false (used : list Range) (r : Range) :
  overlaps used r = false -> Forall (fun u => apart intersection u r) used.
Proof.
  unfold overlapsUsed, apart. induction used as [| u used IH]; simpl.
  - constructor.
  - intros H. destruct (intersection u r) eqn:E; simpl in H; [discriminate H |].
    constructor; auto.
Qed.

Lemma committed_app (ds1 ds2 : list Diagnostic) :
  committed (ds1 ++ ds2) = committed ds1 ++ committed ds2.
Proof. unfold committed. now rewrite List.filter_app, map_app. Qed.

Lemma committed_filter (P : Diagnostic -> Prop)
    `{forall d, Decision (P d)} (ds : list Diagnostic) :
  committed (filter P ds) `sublist_of` committed ds.
Proof.
  induction ds as [| d ds IH]; [constructor |].
  rewrite filter_cons. unfold committed in *.
  destruct (decide (P d)); simpl; destruct (autoFixable d); simpl;
    try assumption; now constructor.
Qed.

Lemma invariant_pushHint st r suggestion :
  invariant intersection st ->
  invariant intersection (pushHint st r suggestion).
Proof.
  intros [Hused Hsub]. split; simpl; [assumption |].
  rewrite committed_app. simpl. now rewrite app_nil_r.
Qed.

Lemma invariant_add dictionary suggestion st :
  invariant intersection st ->
  invariant intersection (add dictionary suggestion st).
Proof.
  intros Hinv. unfold addSuggestionAsDiagnostic.
  destruct (dictionarySkips _ _ _); [assumption |].
  destruct (target_excerpt suggestion) as [| c e] eqn:Hexc;
    [now apply invariant_pushHint |].
  destruct (_ =? -1)%Z; [now apply invariant_pushHint |].
  destruct (isQuickFixable suggestion); simpl;
    [| now apply invariant_pushHint].
  destruct (overlaps (usedRanges st) _) eqn:Hov; simpl;
    [now apply invariant_pushHint |].
  destruct Hinv as [Hused Hsub]. split; simpl.
  - apply pairs_snoc; [assumption | now apply overlaps_false].
  - rewrite committed_app. simpl. now apply sublist_app.
Qed.

Lemma invariant_step st e :
  invariant intersection st ->
  invariant intersection
    (step intersection positionAt extractMisspelledWord text st e).
Proof.
  intros Hinv. destruct e; simpl.
  - now apply invariant_add.
  - destruct Hinv as [Hused Hsub]. split; simpl; [assumption |].
    etransitivity; [apply committed_filter | assumption].
  - destruct Hinv as [Hused Hsub]. split; simpl; [assumption |].
    apply sublist_nil_l.
  - split; simpl; constructor.
Qed.

Lemma invariant_session events : invariant intersection (run events).
Proof.
  unfold session.
  assert (H : invariant intersection cleared) by (split; simpl; constructor).
  revert H. generalize cleared.
  induction events as [| e events IH]; intros st H; simpl; [assumption |].
  apply IH. now apply invariant_step.
Qed.

(** C5. Overlap downgrade: after any sequence of events of a review
    session, no range committed as auto-fixable intersects one committed
    after it, and the same holds for the diagnostics that carry an
    identifier; and a suggestion whose excerpt is found at a range that
    intersects a committed one leaves the identifier map, the counter and
    the committed ranges as they are and gets, unless the dictionary filter
    drops it, one diagnostic of severity Hint without identifier, whatever
    [isQuickFixable] says of it. *)
Theorem overlap_downgrade (events : list Event) :
  ForallOrdPairs (apart intersection) (usedRanges (run events))
  /\ ForallOrdPairs (fun d1 d2 => apart intersection (range d1) (range d2))
       (List.filter autoFixable (diagnostics (run events)))
  /\ forall dictionary suggestion (i : Z),
       target_excerpt suggestion <> [] ->
       indexOf text (target_excerpt suggestion) 0 = i ->
       i <> (-1)%Z ->
       overlaps (usedRanges (run events))
                (candidateRange positionAt suggestion i) = true ->
       suggestionMap (add dictionary suggestion (run events))
         = suggestionMap (run events)
       /\ diagnosticCounter (add dictionary suggestion (run events))
          = diagnosticCounter (run events)
       /\ usedRanges (add dictionary suggestion (run events))
          = usedRanges (run events)
       /\ diagnostics (add dictionary suggestion (run events))
          = diagnostics (run events)
            ++ (if dictionarySkips extractMisspelledWord dictionary suggestion
                then []
                else [mkDiagnostic (candidateRange positionAt suggestion i)
                        (comment suggestion) Hint (js "FramerD") None]).
Proof.
  destruct (invariant_session events) as [Hused Hsub].
  split; [assumption |]. split.
  - apply pairs_map. eapply pairs_sublist; eassumption.
  - intros dictionary suggestion i Hexc Hi Hfound Hov.
    unfold addSuggestionAsDiagnostic.
    destruct (dictionarySkips _ _ _);
      [now rewrite app_nil_r |].
    destruct (target_excerpt suggestion) as [| c e] eqn:E; [contradiction |].
    rewrite Hi.
    destruct (Z.eqb_spec i (-1)) as [| _]; [contradiction |].
    rewrite Hov, andb_false_r. simpl. auto.
Qed.

End Session.

(** The theorem in a one-line document: the excerpt of [matFix] lies inside
    the range committed for [catFix], and [matFix] gets a Hint although it
    is quick-fixable. *)
Lemma overlap_downgrade_witness :
  let st := session lineIntersection columnAt noWord
              (js "The cat sat on mat.") [Suggested [] catFix] in
  let st' := addSuggestionAsDiagnostic lineIntersection columnAt noWord
               (js "The cat sat on mat.") [] matFix st in
  isQuickFixable matFix = true
  /\ suggestionMap st' = suggestionMap st
  /\ diagnosticCounter st' = diagnosticCounter st
  /\ usedRanges st' = usedRanges st
  /\ diagnostics st'
     = diagnostics st
       ++ [mkDiagnostic (mkRange (mkPosition 0 12) (mkPosition 0 18))
             (js "Vague noun") Hint (js "FramerD") None].
Proof.
  cbv zeta. split; [vm_compute; reflexivity |].
  apply (proj2 (proj2 (overlap_downgrade lineIntersection columnAt noWord
                         (js "The cat sat on mat.") [Suggested [] catFix]))
           [] matFix 12%Z).
  - discriminate.
  - vm_compute. reflexivity.
  - discriminate.
  - vm_compute. reflexivity.
Defined.

End Policy.

(** ** The search loop of the locator ends *)

Lemma startsWith_nil (p : jsstring) : p <> [] -> startsWith [] p = false.
Proof. destruct p; [contradiction | reflexivity]. Qed.

Lemma indexOfAt_bounds (p : jsstring) : p <> [] ->
  forall (s : jsstring) (i : Z),
    indexOfAt s p i <> (-1)%Z -> (0 <= i)%Z ->
    (i <= indexOfAt s p i < i + zlen s)%Z.
Proof.
  intros Hp. induction s as [| x s IH]; intros i Hr Hi.
  - simpl in Hr. rewrite startsWith_nil in Hr by assumption. contradiction.
  - cbn [indexOfAt] in *. unfold zlen in *. cbn [length].
    destruct (startsWith (x :: s) p); [lia |].
    specialize (IH (i + 1)%Z Hr ltac:(lia)). lia.
Qed.

Lemma indexOf_bounds (s p : jsstring) (start : Z) :
  p <> [] -> indexOf s p start <> (-1)%Z -> (0 <= start)%Z ->
  (start <= indexOf s p start < zlen s)%Z.
Proof.
  intros Hp Hr Hs. unfold indexOf in *.
  assert (Hc : (0 <= clamp (zlen s) start <= zlen s)%Z)
    by (unfold clamp, zlen; lia).
  pose proof (indexOfAt_bounds p Hp _ _ Hr (proj1 Hc)) as Hb.
  assert (Hd : zlen (drop (Z.to_nat (clamp (zlen s) start)) s)
               = (zlen s - clamp (zlen s) start)%Z).
  { unfold zlen in *. rewrite length_drop. lia. }
  rewrite Hd in Hb.
  assert (Hst : (start <= zlen s)%Z \/ (zlen s < start)%Z) by lia.
  destruct Hst as [Hle | Hgt].
  - replace (clamp (zlen s) start) with start in * by (unfold clamp; lia). lia.
  - replace (clamp (zlen s) start) with (zlen s) in * by (unfold clamp; lia).
    lia.
Qed.

(** Once the fuel exceeds what is left of the text behind [searchStart],
    more fuel changes nothing: the bound on the rounds of the [while] loop is
    never what ends the search. *)
Lemma prefixLoop_fuel (text excerpt : jsstring) :
  ExcerptMatching.prefix excerpt <> [] ->
  forall (fuel extra : nat) (searchStart : Z),
    (0 <= searchStart)%Z ->
    Z.to_nat (zlen text - searchStart) < fuel ->
    ExcerptMatching.prefixLoop text excerpt (fuel + extra) searchStart
    = ExcerptMatching.prefixLoop text excerpt fuel searchStart.
Proof.
  intros Hp. induction fuel as [| fuel IH]; intros extra searchStart Hs Hf;
    [lia |].
  cbn [Nat.add ExcerptMatching.prefixLoop].
  destruct (Z.eqb_spec
              (indexOf text (ExcerptMatching.prefix excerpt) searchStart) (-1))
    as [| Hfound]; [reflexivity |].
  destruct (ExcerptMatching.offsetLoop _ _ _ _ _ _); [reflexivity |].
  pose proof (indexOf_bounds _ _ _ Hp Hfound Hs) as Hb.
  apply IH; lia.
Qed.

Lemma prefix_nonempty (excerpt : jsstring) :
  (20 <= zlen excerpt)%Z -> ExcerptMatching.prefix excerpt <> [].
Proof.
  intros H Hnil. apply (f_equal length) in Hnil.
  unfold ExcerptMatching.prefix, ExcerptMatching.matchLength, substring in Hnil.
  assert (Hq : (5 <= zlen excerpt / 4)%Z)
    by (apply Z.div_le_lower_bound; lia).
  assert (Hq' : (zlen excerpt / 4 <= zlen excerpt)%Z)
    by (apply Z.div_le_upper_bound; lia).
  rewrite length_take, length_drop in Hnil. unfold clamp, zlen in *.
  simpl in Hnil. lia.
Qed.

(** [findExcerptPartialMatch] is what the unbounded loop of the source
    computes: any larger bound on its rounds gives the same answer. *)
Lemma findExcerptPartialMatch_fuel (text excerpt : jsstring) (extra : nat) :
  (20 <= zlen excerpt)%Z ->
  ExcerptMatching.prefixLoop text excerpt (S (length text) + extra) 0
  = ExcerptMatching.findExcerptPartialMatch text excerpt.
Proof.
  intros H. unfold ExcerptMatching.findExcerptPartialMatch.
  destruct (Z.ltb_spec (zlen excerpt) 20); [lia |].
  apply prefixLoop_fuel; [now apply prefix_nonempty | lia |].
  unfold zlen. lia.
Qed.

(** ** Agreement with the tests of the repository

    The embedding run on inputs of parsing.test.ts, of the quotes-bug tests
    and of partial-matching.test.ts, with the results those tests expect. *)

Example test_isBlockComplete_complete :
  isBlockComplete
    (lines ["EXCERPT: `test`"; "CATEGORY: grammar"; "SEVERITY: high";
            "PROBLEM: Test problem"; "FIX: Test fix"]) = true.
Proof. vm_compute. reflexivity. Qed.

Example test_isBlockComplete_missing_fix :
  isBlockComplete
    (lines ["EXCERPT: `test`"; "CATEGORY: grammar"; "SEVERITY: high";
            "PROBLEM: Test problem"]) = false.
Proof. vm_compute. reflexivity. Qed.

Example test_isBlockComplete_open_quote :
  isBlockComplete
    (lines ["EXCERPT: `I was trying not squint`"; "CATEGORY: grammar";
            "SEVERITY: high"; "PROBLEM: Missing `to` before infinitive verb";
            "FIX: `I was"]) = false
  /\ isBlockComplete
       (lines ["EXCERPT: `I was trying not squint`"; "CATEGORY: grammar";
               "SEVERITY: high"; "PROBLEM: Missing `to` before infinitive verb";
               "FIX: `trying not to squint`"]) = true.
Proof. split; vm_compute; reflexivity. Qed.

Example test_parseIssueBlock_simple :
  parseIssueBlock
    (lines ["EXCERPT: `test excerpt`"; "CATEGORY: grammar"; "SEVERITY: high";
            "PROBLEM: Test problem"; "FIX: test fix"])
  = Some (mkSuggestion (js "Test problem") (js "test excerpt") (js "grammar")
            High (js "Test problem") (js "test fix")).
Proof. vm_compute. reflexivity. Qed.

Example test_parseIssueBlock_multi_line :
  parseIssueBlock
    (lines ["EXCERPT: `first line"; "second line"; "third line`";
            "CATEGORY: grammar"; "SEVERITY: moderate";
            "PROBLEM: Multi-line problem"; "FIX: fixed first line";
            "fixed second line"])
  = Some (mkSuggestion (js "Multi-line problem")
            (lines ["first line"; "second line"; "third line"]) (js "grammar")
            Moderate (js "Multi-line problem")
            (lines ["fixed first line"; "fixed second line"])).
Proof. vm_compute. reflexivity. Qed.

Example test_parseIssueBlock_incomplete :
  parseIssueBlock (lines ["EXCERPT: `test`"; "CATEGORY: grammar"]) = None.
Proof. vm_compute. reflexivity. Qed.

Example test_parseIssueBlock_empty_fix :
  option_map rewrite
    (parseIssueBlock
       (lines ["EXCERPT: `test excerpt`"; "CATEGORY: style"; "SEVERITY: low";
               "PROBLEM: Just a comment"; "FIX: "]))
  = Some [].
Proof. vm_compute. reflexivity. Qed.

Example test_parseIssueBlock_internal_quotes :
  option_map rewrite
    (parseIssueBlock
       (lines ["EXCERPT: `she said hello`"; "CATEGORY: grammar";
               "SEVERITY: high"; "PROBLEM: Missing quotation marks";
               "FIX: `she said `hello``"]))
  = Some (jsq "she said `hello`").
Proof. vm_compute. reflexivity. Qed.

Example test_parsePartialBuffer_remainder :
  let r := parsePartialBuffer
             (lines ["---"; "ISSUE 1"; "EXCERPT: `complete`";
                     "CATEGORY: grammar"; "SEVERITY: high"; "PROBLEM: Test";
                     "FIX: Fixed"; ""; "---"; "ISSUE 2";
                     "EXCERPT: `incomplete`"; "CATEGORY: grammar"]) in
  map target_excerpt (parsed r) = [js "complete"]
  /\ remainder r
     = lines ["---"; "ISSUE 2"; "EXCERPT: `incomplete`"; "CATEGORY: grammar"].
Proof. split; vm_compute; reflexivity. Qed.

Example test_parsePartialBuffer_waits_for_fix :
  let buffer := lines ["---"; "ISSUE 1"; "EXCERPT: `test`";
                       "CATEGORY: grammar"; "SEVERITY: high";
                       "PROBLEM: Test problem"] in
  parsed (parsePartialBuffer buffer) = []
  /\ remainder (parsePartialBuffer buffer) = buffer.
Proof. split; vm_compute; reflexivity. Qed.

Example test_streaming_chunks :
  map (fun s => (target_excerpt s, rewrite s))
    (review
       [lines ["---"; "ISSUE 1"; "EXCERP"];
        lines ["T: `test`"; "CATEGORY: grammar"; ""];
        lines ["SEVERITY: high"; "PROBLEM: Test"; "FIX: Fixed"; ""];
        lines ["---"; "ISSUE 2"; "EXCERPT: `test2`"; ""];
        lines ["CATEGORY: spelling"; "SEVERITY: moderate"; ""];
        lines ["PROBLEM: Test2"; "FIX: Fixed2"; "---"]])
  = [(js "test", js "Fixed"); (js "test2", js "Fixed2")].
Proof. vm_compute. reflexivity. Qed.

Example test_parseCompleteIssueBlocks_no_issues :
  parseCompleteIssueBlocks [] = []
  /\ parseCompleteIssueBlocks
       (lines ["# Some header"; ""; "Some text without issues"]) = [].
Proof. split; vm_compute; reflexivity. Qed.

Example test_isQuickFixable :
  isQuickFixable
    (mkSuggestion (js "Test") (js "test") (js "grammar") High (js "Test")
                  (js "fixed test")) = true
  /\ isQuickFixable
       (mkSuggestion (js "Test") (js "test") (js "grammar") High (js "Test")
                     []) = false
  /\ isQuickFixable
       (mkSuggestion (js "Test") (js "Georgian terraced") (js "grammar") High
                     (js "Test")
                     (js "Georgian terraced houses or Georgian terrace"))
     = false
  /\ isQuickFixable
       (mkSuggestion (js "Test") (js "test") (js "grammar") High (js "Test")
                     (repeat 97%N 150)) = false
  /\ isQuickFixable
       (mkSuggestion (js "Test") (js "test") (js "consistency") Moderate
                     (js "Test") (js "fixed test")) = false.
Proof. repeat split; vm_compute; reflexivity. Qed.

Example test_findExcerptPartialMatch_none :
  ExcerptMatching.findExcerptPartialMatch
    (js "This is a short test") (js "short test") = None
  /\ ExcerptMatching.findExcerptPartialMatch
       (js "The quick brown fox jumps over the lazy dog.")
       (js "A completely different sentence that is long enough.") = None
  /\ ExcerptMatching.findExcerptPartialMatch
       (js "This is exactly twenty characters long and more.")
       (js "exactly twenty char") = None.
Proof. repeat split; vm_compute; reflexivity. Qed.

Example test_findExcerptPartialMatch_found :
  ExcerptMatching.findExcerptPartialMatch
    (js "The cat sat on the mat. The cat also sat on the chair.")
    (js "The cat sat on the mat")
  = Some (ExcerptMatching.mkPartialMatch 0 22)
  /\ ExcerptMatching.findExcerptPartialMatch
       (js "The cat sat on mat and fell asleep.")
       (js "The cat sat on the mat and fell asleep.")
     = Some (ExcerptMatching.mkPartialMatch 0 35).
Proof. split; vm_compute; reflexivity. Qed.

(** ** The length of a fuzzy span

    What [findExcerptPartialMatch] returns as length is the length of the
    excerpt plus the offset at which the suffix was found in the window; it
    is positive for every excerpt of more than fifty characters. *)

Lemma offsetLoop_length (text excerpt : jsstring) (prefixIndex expected : Z) :
  forall (n : nat) (offset : Z) m,
    ExcerptMatching.offsetLoop text excerpt prefixIndex expected n offset
      = Some m ->
    exists o, (offset <= o < offset + Z.of_nat n)%Z
      /\ ExcerptMatching.index m = prefixIndex
      /\ ExcerptMatching.length m
         = (expected + o + ExcerptMatching.matchLength excerpt - prefixIndex)%Z.
Proof.
  induction n as [| n IH]; intros offset m H; [discriminate |].
  cbn [ExcerptMatching.offsetLoop] in H.
  destruct (_ && _).
  - inversion H; subst m. exists offset. simpl. lia.
  - apply IH in H as (o & Ho & Hi & Hl). exists o. lia.
Qed.

Lemma prefixLoop_length (text excerpt : jsstring) :
  forall (fuel : nat) (searchStart : Z) m,
    ExcerptMatching.prefixLoop text excerpt fuel searchStart = Some m ->
    exists o, (- 50 <= o <= 50)%Z
      /\ ExcerptMatching.length m = (zlen excerpt + o)%Z.
Proof.
  induction fuel as [| fuel IH]; intros searchStart m H; [discriminate |].
  cbn [ExcerptMatching.prefixLoop] in H.
  destruct (_ =? -1)%Z; [discriminate |].
  destruct (ExcerptMatching.offsetLoop _ _ _ _ _ _) as [r |] eqn:E.
  - inversion H; subst r.
    apply offsetLoop_length in E as (o & Ho & _ & Hl).
    exists o. unfold ExcerptMatching.searchWindow in *. split; lia.
  - now apply IH in H.
Qed.

Lemma long_excerpt_positive_length (text excerpt : jsstring) m :
  (50 < zlen excerpt)%Z ->
  ExcerptMatching.findExcerptPartialMatch text excerpt = Some m ->
  (0 < ExcerptMatching.length m)%Z.
Proof.
  unfold ExcerptMatching.findExcerptPartialMatch. intros Hlen H.
  destruct (_ <? 20)%Z; [discriminate |].
  apply prefixLoop_length in H as (o & Ho & Hl). lia.
Qed.

(** * Further properties of the code *)

(** ** Trimming *)

Lemma trimStart_split (s : jsstring) :
  exists w, s = w ++ trimStart s
    /\ Forall (fun x => isWhiteSpace x = true) w
    /\ (trimStart s = [] \/ solid (head (trimStart s))).
Proof.
  induction s as [| c s (w & Hs & Hw & Hh)].
  - exists []. simpl. auto.
  - simpl. destruct (isWhiteSpace c) eqn:Hc.
    + exists (c :: w). simpl. rewrite <- Hs. auto.
    + exists []. simpl. repeat split; [constructor |].
      right. exists c. auto.
Qed.

Lemma trimStart_solid (s : jsstring) :
  s = [] \/ solid (head s) -> trimStart s = s.
Proof.
  intros [-> | (c & Hh & Hc)]; [reflexivity |].
  destruct s as [| c' s]; [discriminate |].
  simpl in Hh. inversion Hh; subst c'. simpl. now rewrite Hc.
Qed.

Lemma trimEnd_split (s : jsstring) :
  exists w, s = trimEnd s ++ w
    /\ Forall (fun x => isWhiteSpace x = true) w
    /\ (trimEnd s = [] \/ solid (last (trimEnd s))).
Proof.
  unfold trimEnd.
  destruct (trimStart_split (rev s)) as (w & Hs & Hw & Hh).
  exists (rev w). repeat split.
  - rewrite <- rev_app_distr, <- Hs. now rewrite rev_involutive.
  - apply Forall_forall. intros x Hx. rewrite Forall_forall in Hw.
    apply Hw. apply list_elem_of_In. apply in_rev.
    now apply list_elem_of_In.
  - destruct Hh as [-> | Hh]; [left; reflexivity | right].
    rewrite last_lookup, head_lookup in *.
    destruct (trimStart (rev s)) as [| c t] eqn:E; [destruct Hh as (? & ? & ?); discriminate |].
    simpl in Hh. destruct Hh as (c' & Hc' & Hws). inversion Hc'; subst c'.
    exists c. split; [| assumption].
    simpl rev. rewrite length_app. simpl. rewrite Nat.add_1_r. simpl.
    rewrite lookup_app_r by (rewrite length_rev; lia).
    rewrite length_rev, Nat.sub_diag. reflexivity.
Qed.

Lemma trimEnd_solid (s : jsstring) :
  s = [] \/ solid (last s) -> trimEnd s = s.
Proof.
  intros H. unfold trimEnd. rewrite trimStart_solid.
  - apply rev_involutive.
  - destruct H as [-> | (c & Hl & Hc)]; [left; reflexivity | right].
    exists c. split; [| assumption].
    destruct s as [| x s] using rev_ind; [discriminate |].
    rewrite last_snoc in Hl. inversion Hl; subst.
    now rewrite rev_app_distr.
Qed.

Lemma trim_solidEnds (s : jsstring) : solidEnds (trim s).
Proof.
  unfold trim, solidEnds.
  destruct (trimStart_split s) as (w1 & _ & _ & Hhead).
  destruct (trimEnd_split (trimStart s)) as (w2 & Hsplit & Hw2 & Hlast).
  destruct Hlast as [-> | Hlast]; [left; reflexivity | right].
  split; [| assumption].
  destruct Hhead as [E | (c & Hc & Hws)].
  - rewrite E in Hlast. destruct Hlast as (? & Hl & ?).
    cbv in Hl. discriminate Hl.
  - destruct (trimEnd (trimStart s)) as [| x t] eqn:E.
    + destruct Hlast as (? & ? & ?). discriminate.
    + rewrite Hsplit in Hc. simpl in Hc. inversion Hc; subst x.
      exists c. auto.
Qed.

Lemma solidEnds_trim (s : jsstring) : solidEnds s -> trim s = s.
Proof.
  intros [-> | [Hh Hl]]; [reflexivity |].
  unfold trim. rewrite trimStart_solid by auto. apply trimEnd_solid. auto.
Qed.

Lemma trim_idempotent (s : jsstring) : trim (trim s) = trim s.
Proof. apply solidEnds_trim, trim_solidEnds. Qed.

Lemma trim_length (s : jsstring) : length (trim s) <= length s.
Proof.
  unfold trim.
  destruct (trimStart_split s) as (w1 & H1 & _).
  destruct (trimEnd_split (trimStart s)) as (w2 & H2 & _).
  apply (f_equal length) in H1, H2. rewrite length_app in H1, H2. lia.
Qed.

(** ** What [stripQuotes] and [extractField] return *)

Lemma slice_length (s : jsstring) (b e : Z) : length (slice s b e) <= length s.
Proof.
  unfold slice. rewrite length_take, length_drop. lia.
Qed.

Lemma stripQuotesLoop_cases (quotes : list N) (text : jsstring) :
  stripQuotesLoop quotes text = text
  \/ stripQuotesLoop quotes text = trim (slice text 1 (-1)).
Proof.
  induction quotes as [| q quotes IH]; simpl; [auto |].
  destruct (_ && _); auto.
Qed.

Lemma stripQuotesLoop_unquoted (quotes : list N) (text : jsstring) :
  (forall q, q ∈ quotes ->
     startsWith text [q] && endsWith text [q] = false) ->
  stripQuotesLoop quotes text = text.
Proof.
  induction quotes as [| q quotes IH]; intros H; cbn [stripQuotesLoop];
    [reflexivity |].
  rewrite (H q) by constructor. cbn [andb].
  apply IH. intros q' Hq'. apply H. now constructor.
Qed.

(** X1. What [stripQuotes] returns has no white space at either end and is
    never longer than its argument; and a value that, once trimmed, is not
    bracketed by one and the same quote character of [quoteChars] comes back
    trimmed and otherwise unchanged. *)
Theorem stripQuotes_result (text : jsstring) :
  trim (stripQuotes text) = stripQuotes text
  /\ length (stripQuotes text) <= length text
  /\ ((forall q, q ∈ quoteChars ->
         startsWith (trim text) [q] && endsWith (trim text) [q] = false) ->
      stripQuotes text = trim text).
Proof.
  unfold stripQuotes. pose proof (trim_length text) as Hlen.
  repeat split.
  - destruct (stripQuotesLoop_cases quoteChars (trim text)) as [-> | ->];
      apply trim_idempotent.
  - destruct (stripQuotesLoop_cases quoteChars (trim text)) as [-> | ->];
      [assumption |].
    pose proof (trim_length (slice (trim text) 1 (-1))).
    pose proof (slice_length (trim text) 1 (-1)). lia.
  - apply stripQuotesLoop_unquoted.
Qed.

(** The last part of the theorem at [  'tis ], which opens with a quote and
    does not close with one. *)
Lemma stripQuotes_result_witness :
  stripQuotes (js " " ++ [squote] ++ js "tis ") = trim (js " " ++ [squote] ++ js "tis ").
Proof.
  apply (proj2 (proj2 (stripQuotes_result (js " " ++ [squote] ++ js "tis ")))).
  intros q Hq. unfold quoteChars in Hq.
  repeat (apply elem_of_cons in Hq as [-> | Hq]; [vm_compute; reflexivity |]).
  inversion Hq.
Defined.

Lemma extractField_trimmed (block f : jsstring) stopAt (v : jsstring) :
  extractField block f stopAt = Some v -> trim v = v.
Proof.
  unfold extractField.
  destruct (search _ block) as [[i value] |]; [| discriminate].
  intros H. inversion H. apply stripQuotes_result.
Qed.

Lemma extractField_present (block f : jsstring) stopAt (v : jsstring) :
  extractField block f stopAt = Some v -> hasField f block = true.
Proof.
  intros H. destruct (hasField f block) eqn:E; [reflexivity |].
  rewrite (extractField_absent _ _ stopAt E) in H. discriminate.
Qed.

(** X2. The record invariant of [parseIssueBlock]: whenever it builds a
    record, the names of the four required fields stand in the block, the
    comment, the excerpt and the category are not empty, the explanation is
    the comment, and no field of the record, the rewrite included, has white
    space at either end. *)
Theorem parseIssueBlock_record (block : jsstring) (r : ParsedSuggestion) :
  parseIssueBlock block = Some r ->
  Forall (fun f => hasField f block = true) requiredFields
  /\ comment r <> [] /\ target_excerpt r <> [] /\ category r <> []
  /\ explanation r = comment r
  /\ Forall (fun v => trim v = v)
       [comment r; target_excerpt r; category r; rewrite r].
Proof.
  unfold parseIssueBlock.
  destruct (extractField block (js "EXCERPT") _) as [[| e et] |] eqn:Ee;
    try discriminate.
  destruct (extractField block (js "CATEGORY") _) as [[| c ct] |] eqn:Ec;
    try discriminate.
  destruct (extractField block (js "SEVERITY") _) as [[| s st] |] eqn:Es;
    try discriminate.
  destruct (extractField block (js "PROBLEM") _) as [[| p pt] |] eqn:Ep;
    try discriminate.
  cbn [truthy negb orb default from_option id].
  change (default [] (Some (s :: st))) with (s :: st).
  destruct (severityOf (s :: st)); [| discriminate].
  set (fx := extractField block (js "FIX") None).
  intros H. inversion H; subst r; clear H.
  cbn [comment target_excerpt category explanation rewrite].
  split; [| repeat split; try discriminate].
  - unfold requiredFields. repeat constructor;
      eauto using extractField_present.
  - repeat constructor; eauto using extractField_trimmed.
    destruct (truthy fx); [apply trim_idempotent | reflexivity].
Qed.

Lemma parseIssueBlock_record_witness :
  Forall (fun f => hasField f (issueBody "two" "high" "due") = true)
         requiredFields
  /\ js "wrong" <> [] /\ js "two" <> [] /\ js "grammar" <> []
  /\ js "wrong" = js "wrong"
  /\ Forall (fun v => trim v = v)
       [js "wrong"; js "two"; js "grammar"; js "due"].
Proof.
  apply (parseIssueBlock_record (issueBody "two" "high" "due")
           (mkSuggestion (js "wrong") (js "two") (js "grammar") High
                         (js "wrong") (js "due"))).
  vm_compute. reflexivity.
Defined.

(** ** When a field is found *)

Section AfterMarker.

Context {A : Type}.
Variable marker : jsstring.
Variable Q : jsstring -> option A.

(** The rest of the pattern behind the marker succeeds on every text but
    the empty one. *)
Hypothesis Q_empty : Q [] = None.
Hypothesis Q_total : forall t, t <> [] -> is_Some (Q t).

Let P (s : jsstring) : option A :=
  match lit true marker s with
  | Some s1 => Q s1
  | None => None
  end.

Lemma search_after_marker (block : jsstring) :
  search P block = None
  <-> afterMarker marker block = None \/ afterMarker marker block = Some [].
Proof.
  induction block as [| x b IH]; cbn [search afterMarker]; unfold P at 1.
  - destruct (lit true marker []) as [t |] eqn:E; [| tauto].
    apply lit_length in E. destruct t; [| simpl in E; lia].
    rewrite Q_empty. tauto.
  - destruct (lit true marker (x :: b)) as [t |] eqn:E.
    + destruct t as [| y t].
      * rewrite Q_empty. apply lit_length in E. simpl in E.
        rewrite (search_short P (length marker) b).
        -- tauto.
        -- intros u Hu. unfold P.
           destruct (lit true marker u) as [u' |] eqn:Eu; [| reflexivity].
           apply lit_length in Eu. lia.
        -- lia.
      * destruct (Q_total (y :: t)) as [r ->]; [discriminate |].
        split; [discriminate | intros [H | H]; discriminate].
    + destruct (search P b) as [[i r] |].
      * split; [discriminate |]. intros H. apply IH in H. discriminate.
      * split; [intros _; now apply IH | reflexivity].
Qed.

End AfterMarker.

Lemma starL_total {A} (k : jsstring -> jsstring -> option A) :
  (forall acc, is_Some (k acc [])) ->
  forall s acc, is_Some (starL anyChar acc s k).
Proof.
  intros Hk. induction s as [| x s IH]; intros acc; simpl.
  - destruct (Hk acc) as [r ->]. eauto.
  - destruct (k acc (x :: s)); [eauto |]. apply IH.
Qed.

Lemma stopPattern_end stopAt : stopPattern stopAt [] = true.
Proof. destruct stopAt as [[| c st] |]; reflexivity. Qed.

Lemma fieldValue_total stopAt (t : jsstring) :
  t <> [] ->
  is_Some
    (starG isWhiteSpace t (fun s2 =>
       plusL anyChar s2 (fun value s3 =>
         starG isWhiteSpace s3 (fun s4 =>
           if stopPattern stopAt s4 then Some value else None)))).
Proof.
  assert (Hhere : forall x u,
    is_Some (plusL anyChar (x :: u) (fun value s3 =>
       starG isWhiteSpace s3 (fun s4 =>
         if stopPattern stopAt s4 then Some value else None)))).
  { intros x u. unfold plusL, anyChar. apply starL_total.
    intros acc. simpl. rewrite stopPattern_end. eauto. }
  induction t as [| x t IH]; intros Hne; [contradiction |].
  cbn [starG]. destruct (isWhiteSpace x); [| apply Hhere].
  destruct (starG isWhiteSpace t _); [eauto | apply Hhere].
Qed.

(** X3. For a field name and a stop name without metacharacters,
    [extractField] returns null exactly when the field name with its colon,
    in whatever case, stands nowhere in the block, or stands there for the
    first time at the very end of it; in every other block it returns a
    value, whichever such stop name is given and also when none is. *)
Theorem extractField_null (block f : jsstring) (stopAt : option jsstring) :
  plainName f = true ->
  (forall stop, stopAt = Some stop -> plainName stop = true) ->
  (extractField block f stopAt = None
   <-> afterMarker (f ++ js ":") block = None
       \/ afterMarker (f ++ js ":") block = Some []).
Proof.
  intros _ _.
  rewrite <- (search_after_marker (f ++ js ":")
                (fun s1 => starG isWhiteSpace s1 (fun s2 =>
                   plusL anyChar s2 (fun value s3 =>
                     starG isWhiteSpace s3 (fun s4 =>
                       if stopPattern stopAt s4 then Some value else None)))));
    [| reflexivity | apply fieldValue_total].
  unfold extractField.
  change (search (fieldPattern f stopAt) block)
    with (search (fun s => match lit true (f ++ js ":") s with
                           | Some s1 =>
                               starG isWhiteSpace s1 (fun s2 =>
                                 plusL anyChar s2 (fun value s3 =>
                                   starG isWhiteSpace s3 (fun s4 =>
                                     if stopPattern stopAt s4
                                     then Some value else None)))
                           | None => None
                           end) block).
  destruct (search _ block) as [[i v] |]; split; congruence.
Qed.

(** The theorem at a block that ends with the field name: nothing follows
    the colon of [excerpt:], and [extractField] returns null. *)
Lemma extractField_null_witness :
  extractField (js "CATEGORY: g" ++ [nl] ++ js "excerpt:") (js "EXCERPT")
               (Some (js "CATEGORY:"))
  = None.
Proof.
  apply (extractField_null (js "CATEGORY: g" ++ [nl] ++ js "excerpt:")
           (js "EXCERPT") (Some (js "CATEGORY:"))).
  - vm_compute. reflexivity.
  - intros stop H. inversion H. vm_compute. reflexivity.
  - right. vm_compute. reflexivity.
Defined.

(** ** What [parsePartialBuffer] consumes *)

Section MatchBounds.

Variable p : jsstring -> option (nat * jsstring).

Hypothesis p_length :
  forall s len g, p s = Some (len, g) -> 1 <= len <= length s.

Lemma matchAllFrom_bounds : forall s off skip m,
  m ∈ matchAllFrom p off skip s ->
  1 <= matchLength m /\ index m + matchLength m <= off + length s.
Proof.
  induction s as [| x s IH]; intros off skip m Hm.
  - destruct skip; simpl in Hm; [| inversion Hm].
    destruct (p []) as [[len g] |] eqn:E; [| inversion Hm].
    apply p_length in E. simpl in E. lia.
  - destruct skip as [| k]; simpl in Hm.
    + destruct (p (x :: s)) as [[len g] |] eqn:E.
      * apply p_length in E. simpl in E.
        apply elem_of_cons in Hm as [-> | Hm]; [simpl; lia |].
        apply IH in Hm. simpl. lia.
      * apply IH in Hm. simpl. lia.
    + apply IH in Hm. simpl. lia.
Qed.

Lemma matchAllFrom_nil : forall s off skip,
  (forall i, p (drop i s) = None) -> matchAllFrom p off skip s = [].
Proof.
  induction s as [| x s IH]; intros off skip Hnone.
  - destruct skip; simpl; [| reflexivity].
    pose proof (Hnone 0) as H0. simpl in H0. now rewrite H0.
  - assert (Hs : forall i, p (drop i s) = None)
      by (intros i; apply (Hnone (S i))).
    destruct skip; simpl; [| now apply IH].
    pose proof (Hnone 0) as H0. simpl in H0. rewrite H0. now apply IH.
Qed.

End MatchBounds.

Lemma partialLoop_nothing ms : forall acc n,
  emitted (map group ms) = [] -> snd (partialLoop ms acc n) = n.
Proof.
  induction ms as [| m ms IH]; intros acc n; simpl; [reflexivity |].
  replace (negb match ms with [] => false | _ => true end)
    with (match map group ms with [] => true | _ => false end)
    by (destruct ms; reflexivity).
  destruct (_ && _); simpl; [reflexivity |].
  destruct (parseIssueBlock (group m)); [discriminate | apply IH].
Qed.

Lemma partialLoop_something ms : forall acc n,
  emitted (map group ms) <> [] ->
  exists m, m ∈ ms /\ snd (partialLoop ms acc n) = index m + matchLength m.
Proof.
  induction ms as [| m ms IH]; intros acc n; simpl; [contradiction |].
  replace (negb match ms with [] => false | _ => true end)
    with (match map group ms with [] => true | _ => false end)
    by (destruct ms; reflexivity).
  destruct (_ && _); simpl; [contradiction |].
  destruct (parseIssueBlock (group m)) as [sg |]; intros Hne.
  - destruct (emitted (map group ms)) as [| sg' rest] eqn:E.
    + exists m. split; [constructor |]. now rewrite partialLoop_nothing.
    + destruct (IH (acc ++ [sg]) (index m + matchLength m)) as (m' & Hin & Hs);
        [discriminate |].
      exists m'. split; [now constructor | assumption].
  - destruct (IH acc n Hne) as (m' & Hin & Hs).
    exists m'. split; [now constructor | assumption].
Qed.

(** X4. What [parsePartialBuffer] consumes: the remainder is the buffer
    without some of its head; a call that emits no record returns the
    buffer whole; a call that emits a record returns a strictly shorter
    remainder. *)
Theorem parsePartialBuffer_progress (buffer : jsstring) :
  (exists consumed,
     buffer = consumed ++ remainder (parsePartialBuffer buffer))
  /\ (parsed (parsePartialBuffer buffer) = [] ->
      remainder (parsePartialBuffer buffer) = buffer)
  /\ (parsed (parsePartialBuffer buffer) <> [] ->
      length (remainder (parsePartialBuffer buffer)) < length buffer).
Proof.
  rewrite parsePartialBuffer_remainder, parsePartialBuffer_parsed.
  repeat split.
  - eexists. symmetry. apply take_drop.
  - intros H. rewrite partialLoop_nothing by assumption. apply drop_0.
  - intros H.
    destruct (partialLoop_something _ [] 0 H) as (m & Hin & ->).
    apply (matchAllFrom_bounds issuePattern issuePattern_length) in Hin.
    rewrite length_drop. simpl in Hin. lia.
Qed.

Lemma parsePartialBuffer_progress_witness :
  length (remainder (parsePartialBuffer
                       (issueHeader "1" ++ issueBody "two" "high" "due"
                        ++ issueHeader "2")))
  < length (issueHeader "1" ++ issueBody "two" "high" "due" ++ issueHeader "2").
Proof.
  apply (proj2 (proj2 (parsePartialBuffer_progress
           (issueHeader "1" ++ issueBody "two" "high" "due"
            ++ issueHeader "2")))).
  vm_compute. discriminate.
Defined.

(** X5. A text in which three dashes stand nowhere holds no issue block:
    [parseCompleteIssueBlocks] gives no record, and [parsePartialBuffer]
    gives no record and carries the whole text over. *)
Theorem no_marker_no_record (text : jsstring) :
  (forall i, ~ occursAt (js "---") text i) ->
  parseCompleteIssueBlocks text = []
  /\ parsed (parsePartialBuffer text) = []
  /\ remainder (parsePartialBuffer text) = text.
Proof.
  intros Hfree.
  assert (Hm : matchAll issuePattern text = []).
  { apply matchAllFrom_nil. intros i. unfold issuePattern.
    specialize (Hfree i). unfold occursAt in Hfree.
    destruct (lit true (js "---") (drop i text)); [| reflexivity].
    exfalso. apply Hfree. eauto. }
  unfold parseCompleteIssueBlocks, parsePartialBuffer. rewrite Hm. simpl.
  repeat split. apply (sliceFrom_drop text 0).
Qed.

Lemma no_marker_no_record_witness :
  parseCompleteIssueBlocks (js "a-b") = []
  /\ parsed (parsePartialBuffer (js "a-b")) = []
  /\ remainder (parsePartialBuffer (js "a-b")) = js "a-b".
Proof.
  apply (no_marker_no_record (js "a-b")).
  intros i [t Ht].
  assert (Hi : i = 0 \/ i = 1 \/ i = 2 \/ 3 <= i) by lia.
  destruct Hi as [-> | [-> | [-> | Hi]]]; try (vm_compute in Ht; discriminate).
  rewrite drop_ge in Ht by (simpl; lia). vm_compute in Ht. discriminate.
Defined.

Lemma completeLoop_sublist ms :
  completeLoop ms `sublist_of` emitted (map group ms).
Proof.
  induction ms as [| m ms IH]; simpl; [constructor |].
  destruct (isBlockComplete (group m)) eqn:Hc; cbn [negb andb].
  - rewrite andb_false_r.
    destruct (parseIssueBlock (group m)); [now constructor | assumption].
  - destruct ms as [| m' ms]; [constructor |].
    cbn [map andb]. 
    destruct (parseIssueBlock (group m)); [now constructor | assumption].
Qed.

Lemma completeLoop_all ms :
  Forall (fun m => isBlockComplete (group m) = true) ms ->
  completeLoop ms = emitted (map group ms).
Proof.
  induction 1 as [| m ms Hm Hms IH]; simpl; [reflexivity |].
  rewrite Hm. cbn [negb]. rewrite andb_false_r, IH. reflexivity.
Qed.

(** X6. The two parsers agree as far as they can: every record
    [parseCompleteIssueBlocks] gives for a text, [parsePartialBuffer] gives
    too, in the same order; and when every block of the text is complete,
    the two give the same list. *)
Theorem complete_within_partial (text : jsstring) :
  parseCompleteIssueBlocks text `sublist_of` parsed (parsePartialBuffer text)
  /\ (Forall (fun b => isBlockComplete b = true)
        (map group (matchAll issuePattern text)) ->
      parseCompleteIssueBlocks text = parsed (parsePartialBuffer text)).
Proof.
  rewrite parsePartialBuffer_parsed. unfold parseCompleteIssueBlocks.
  split; [apply completeLoop_sublist |].
  intros H. apply completeLoop_all. now rewrite Forall_map in H.
Qed.

Lemma complete_within_partial_witness :
  parseCompleteIssueBlocks scenario = parsed (parsePartialBuffer scenario).
Proof.
  apply (proj2 (complete_within_partial scenario)).
  set (blocks := map group (matchAll issuePattern scenario)).
  vm_compute in blocks. subst blocks.
  constructor; [vm_compute; reflexivity | constructor].
Defined.

(** ** Completeness without a premise *)

Lemma isBlockComplete_fields (block : jsstring) :
  isBlockComplete block = true
  <-> hasAllFields block = true
      /\ fixValue block <> [] /\ quoteClosed (fixValue block).
Proof.
  unfold hasAllFields, isBlockComplete.
  destruct (hasField (js "EXCERPT") block);
    [| split; [discriminate | intros [H _]; discriminate]].
  destruct (hasField (js "CATEGORY") block);
    [| split; [discriminate | intros [H _]; discriminate]].
  destruct (hasField (js "SEVERITY") block);
    [| split; [discriminate | intros [H _]; discriminate]].
  destruct (hasField (js "PROBLEM") block);
    [| split; [discriminate | intros [H _]; discriminate]].
  destruct (hasField (js "FIX") block) eqn:Hfix;
    [| split; [discriminate | intros [H _]; discriminate]].
  cbn [negb orb andb]. unfold fixValue.
  destruct (hasField_afterMarker (js "FIX:") block Hfix) as (t & Ht).
  rewrite Ht. pose proof (fixPattern_search block t Ht) as Hs.
  destruct (search fixPattern block) as [[i value] |].
  - destruct Hs as [_ <-]. rewrite fixQuoteLoop_rule. tauto.
  - subst t. split; [discriminate | intros (_ & H & _); exfalso; now apply H].
Qed.

(** X7. [isBlockComplete] returns true exactly for the blocks in which all
    five field names stand, whose FIX value is not empty, and whose FIX
    value, when it opens with a straight double or single quote, ends with
    that same quote and is longer than one character; a block that lacks
    one of the names is never complete.  No other opening character is
    taken for a quote: with all five names present, a FIX value that opens
    with anything but a straight quote, a typographic quotation mark
    included, makes the block complete. *)
Theorem isBlockComplete_exactly (block : jsstring) :
  (isBlockComplete block = true
   <-> hasAllFields block = true
       /\ fixValue block <> [] /\ quoteClosed (fixValue block))
  /\ (forall c v,
        hasAllFields block = true ->
        fixValue block = c :: v -> c <> dquote -> c <> squote ->
        isBlockComplete block = true).
Proof.
  split; [apply isBlockComplete_fields |].
  intros c v Hall Hv Hd Hs. apply isBlockComplete_fields.
  split; [exact Hall |]. rewrite Hv. split; [discriminate |].
  intros q Hq Hopen. exfalso.
  rewrite startsWith_head in Hopen. apply N.eqb_eq in Hopen. subst q.
  unfold quoteChars in Hq.
  repeat (apply elem_of_cons in Hq as [Hq | Hq]; [congruence |]).
  inversion Hq.
Qed.

(** ** The summary *)

Lemma starG_here {A} c (s : jsstring) (k : jsstring -> option A) :
  is_Some (k s) -> is_Some (starG c s k).
Proof.
  intros H. destruct s as [| x s]; simpl; [assumption |].
  destruct (c x); [| assumption].
  destruct (starG c s k); [eauto | assumption].
Qed.

Section Extend.

Context {A B : Type}.

(** A greedy repetition that succeeds on a text succeeds on every
    extension of it, when its continuation does. *)
Lemma starG_extend c (u : jsstring)
    (k : jsstring -> option A) (k' : jsstring -> option B) :
  (forall t, is_Some (k t) -> is_Some (k' (t ++ u))) ->
  forall s, is_Some (starG c s k) -> is_Some (starG c (s ++ u) k').
Proof.
  intros Hk. induction s as [| x s IH]; intros H.
  - simpl in H. apply starG_here. now apply (Hk []).
  - simpl in *. destruct (c x).
    + destruct (starG c s k) as [r |] eqn:E.
      * destruct (IH ltac:(eauto)) as [r' ->]. eauto.
      * destruct (starG c (s ++ u) k'); [eauto |]. now apply (Hk (x :: s)).
    + now apply (Hk (x :: s)).
Qed.

Lemma plusG_extend c (u : jsstring)
    (k : jsstring -> option A) (k' : jsstring -> option B) :
  (forall t, is_Some (k t) -> is_Some (k' (t ++ u))) ->
  forall s, is_Some (plusG c s k) -> is_Some (plusG c (s ++ u) k').
Proof.
  intros Hk [| x s]; simpl; intros H; [destruct H; discriminate |].
  destruct (c x); [now apply (starG_extend c u k k') | destruct H; discriminate].
Qed.

End Extend.

Lemma lit_extend ci (p s s' u : jsstring) :
  lit ci p s = Some s' -> lit ci p (s ++ u) = Some (s' ++ u).
Proof.
  revert s. induction p as [| c p IH]; intros s H; simpl in *.
  - now inversion H.
  - destruct s as [| d s]; [discriminate |]. simpl.
    destruct (if ci then _ else _); [now apply IH | discriminate].
Qed.

Lemma summaryMarker_extend (t u : jsstring) :
  is_Some (summaryMarker t) -> is_Some (summaryMarker (t ++ u)).
Proof.
  unfold summaryMarker.
  destruct (lit true (js "---") t) as [s1 |] eqn:E1;
    [| intros [? ?]; discriminate].
  rewrite (lit_extend _ _ _ _ u E1).
  apply starG_extend. intros s2.
  destruct (lit true [nl] s2) as [s3 |] eqn:E3; [| intros [? ?]; discriminate].
  rewrite (lit_extend _ _ _ _ u E3).
  destruct (lit true (js "ISSUE") s3) as [s4 |] eqn:E4;
    [| intros [? ?]; discriminate].
  rewrite (lit_extend _ _ _ _ u E4).
  apply plusG_extend. intros s5.
  apply plusG_extend. intros s6 _. eauto.
Qed.

Lemma search_none_all {A} (p : jsstring -> option A) (s : jsstring) :
  search p s = None -> forall j, p (drop j s) = None.
Proof.
  induction s as [| x s IH]; simpl; intros H j.
  - destruct (p []) eqn:E; [discriminate |]. now destruct j.
  - destruct (p (x :: s)) eqn:E; [discriminate |].
    destruct (search p s) as [[i r] |]; [discriminate |].
    destruct j; [assumption | now apply IH].
Qed.

Lemma search_first {A} (p : jsstring -> option A) (s : jsstring) i r :
  search p s = Some (i, r) ->
  i <= length s /\ forall j, j < i -> p (drop j s) = None.
Proof.
  revert i. induction s as [| x s IH]; simpl; intros i H.
  - destruct (p []); [| discriminate]. inversion H; subst.
    split; [lia | intros j Hj; lia].
  - destruct (p (x :: s)) eqn:E.
    + inversion H; subst. split; [lia | intros j Hj; lia].
    + destruct (search p s) as [[i' r'] |]; [| discriminate].
      inversion H; subst. destruct (IH i' eq_refl) as [Hi Hj].
      split; [lia |]. intros [| j] Hlt; [assumption |].
      apply Hj. lia.
Qed.

Lemma test_true {A} (p : jsstring -> option A) (s : jsstring) :
  test p s = true -> exists j, j <= length s /\ is_Some (p (drop j s)).
Proof.
  unfold test. revert s. induction s as [| x s IH]; simpl.
  - destruct (p []) eqn:E; [| discriminate]. exists 0. simpl. rewrite E. eauto.
  - destruct (p (x :: s)) eqn:E.
    + exists 0. simpl. rewrite E. split; [lia | eauto].
    + destruct (search p s) as [[i r] |]; [| discriminate].
      intros _. destruct (IH eq_refl) as (j & Hj & Hp).
      exists (S j). simpl. split; [lia | assumption].
Qed.

Lemma trim_split (s : jsstring) :
  exists w1 w2, s = w1 ++ trim s ++ w2
    /\ Forall (fun x => isWhiteSpace x = true) w1
    /\ Forall (fun x => isWhiteSpace x = true) w2.
Proof.
  unfold trim.
  destruct (trimStart_split s) as (w1 & H1 & Hw1 & _).
  destruct (trimEnd_split (trimStart s)) as (w2 & H2 & Hw2 & _).
  exists w1, w2. repeat split; [| assumption | assumption].
  now rewrite <- H2.
Qed.

(** A marker inside the trimmed head of a text is a marker of the text. *)
Lemma marker_in_head (text : jsstring) (i : nat) :
  i <= length text ->
  test summaryMarker (trim (take i text)) = true ->
  exists j, j < i /\ is_Some (summaryMarker (drop j text)).
Proof.
  intros Hi H. apply test_true in H as (j & Hj & Hsome).
  destruct (trim_split (take i text)) as (w1 & w2 & Hsplit & _ & _).
  assert (Hne : drop j (trim (take i text)) <> []).
  { intros E. rewrite E in Hsome. destruct Hsome as [? Hs]. discriminate Hs. }
  assert (Hlt : j < length (trim (take i text))).
  { destruct (Nat.lt_ge_cases j (length (trim (take i text)))); [assumption |].
    rewrite drop_ge in Hne by assumption. contradiction. }
  pose proof (f_equal length Hsplit) as Hl.
  rewrite !length_app, length_take in Hl.
  exists (length w1 + j). split; [lia |].
  rewrite <- (take_drop i text) at 1. rewrite Hsplit.
  rewrite <- app_assoc, drop_app_add. rewrite <- app_assoc.
  rewrite drop_app_le by lia. now apply summaryMarker_extend.
Qed.

Lemma lit_dashes_ws (x : N) (s : jsstring) :
  isWhiteSpace x = true -> lit true (js "---") (x :: s) = None.
Proof.
  intros Hx. change (js "---") with [45; 45; 45]%N. cbn [lit].
  change (upperChar 45) with 45%N.
  destruct (N.eqb_spec 45 (upperChar x)) as [E |]; [| reflexivity].
  exfalso. unfold upperChar in E.
  destruct ((97 <=? x) && (x <=? 122))%N eqn:Hr.
  - apply andb_true_iff in Hr as [Ha Hb].
    apply N.leb_le in Ha, Hb. lia.
  - subst x. vm_compute in Hx. discriminate.
Qed.

Lemma blank_no_marker (text : jsstring) :
  trim text = [] -> search summaryMarker text = None.
Proof.
  intros H. destruct (trim_split text) as (w1 & w2 & Hs & H1 & H2).
  rewrite H in Hs. simpl in Hs.
  assert (Hws : Forall (fun x => isWhiteSpace x = true) text)
    by (rewrite Hs; now apply Forall_app).
  clear - Hws. induction Hws as [| x s Hx Hs IH]; [reflexivity |].
  cbn [search]. rewrite IH.
  unfold summaryMarker at 1. now rewrite lit_dashes_ws.
Qed.

(** X8. Whatever the text, the summary holds no match of the expression
    [extractSummary] searches for, which is three dashes, white space up to
    and including a line feed, ISSUE in either case, white space and a
    digit; and it is empty exactly when the text is blank.  Dashes and the
    word ISSUE on one line are no such match and may stand in a summary. *)
Theorem extractSummary_clean (text : jsstring) :
  test summaryMarker (extractSummary text) = false
  /\ (extractSummary text = [] <-> trim text = []).
Proof.
  unfold extractSummary.
  destruct (search summaryMarker text) as [[i u] |] eqn:E.
  - assert (Hmarked : trim text <> []).
    { intros Hblank. apply blank_no_marker in Hblank. congruence. }
    apply search_first in E as [Hi Hfirst].
    assert (Hslice : slice text 0 (Z.of_nat i) = take i text).
    { unfold slice, zlen. change (0 <? 0)%Z with false.
      destruct (Z.ltb_spec (Z.of_nat i) 0); [lia |].
      rewrite Z.min_l, Z.min_l by lia. simpl drop. rewrite drop_0.
      f_equal. lia. }
    rewrite Hslice.
    assert (Hclean : test summaryMarker (trim (take i text)) = false).
    { destruct (test summaryMarker (trim (take i text))) eqn:Ht;
        [| reflexivity].
      apply marker_in_head in Ht as (j & Hj & [r Hr]); [| assumption].
      rewrite (Hfirst j Hj) in Hr. discriminate. }
    destruct (trim (take i text)) as [| c s] eqn:Es.
    + split; [vm_compute; reflexivity |].
      split; [discriminate | intros H; contradiction].
    + split; [assumption |].
      split; [discriminate | intros H; contradiction].
  - split; [| tauto].
    destruct (test summaryMarker (trim text)) eqn:Ht; [| reflexivity].
    exfalso. apply test_true in Ht as (j & Hj & Hsome).
    destruct (trim_split text) as (w1 & w2 & Hs & _ & _).
    pose proof (search_none_all _ _ E (length w1 + j)) as Hn.
    rewrite Hs in Hn at 1. rewrite drop_app_add, drop_app_le in Hn by lia.
    apply (summaryMarker_extend _ w2) in Hsome.
    rewrite Hn in Hsome. destruct Hsome; discriminate.
Qed.

Example test_extractSummary :
  extractSummary
    (lines ["# Comprehensive Review"; ""; "This is a summary paragraph."; "";
            "---"; "ISSUE 1"; "EXCERPT: `test`"])
    = lines ["# Comprehensive Review"; ""; "This is a summary paragraph."]
  /\ extractSummary (js "Just some text without issues")
     = js "Just some text without issues"
  /\ extractSummary (lines ["---"; "ISSUE 1"; "EXCERPT: `test`"])
     = js "Review complete.".
Proof. repeat split; vm_compute; reflexivity. Qed.

(** ** The span of the locator *)

Lemma startsWith_take (s p : jsstring) :
  startsWith s p = true <-> take (length p) s = p.
Proof.
  revert s. induction p as [| c p IH]; intros s; simpl.
  - now rewrite take_0.
  - destruct s as [| d s]; simpl; [split; discriminate |].
    rewrite andb_true_iff, N.eqb_eq, IH. split.
    + intros [-> ->]. reflexivity.
    + intros H. inversion H. subst. rewrite H2. auto.
Qed.

Lemma startsWith_length (s p : jsstring) :
  startsWith s p = true -> length p <= length s.
Proof.
  intros H. apply startsWith_take in H. apply (f_equal length) in H.
  rewrite length_take in H. lia.
Qed.

Lemma indexOfAt_sound (p : jsstring) : forall (s : jsstring) (i : Z),
  indexOfAt s p i <> (-1)%Z -> (0 <= i)%Z ->
  (i <= indexOfAt s p i)%Z
  /\ startsWith (drop (Z.to_nat (indexOfAt s p i - i)) s) p = true.
Proof.
  induction s as [| x s IH]; intros i Hr Hi; cbn [indexOfAt] in *.
  - destruct (startsWith [] p) eqn:E; [| contradiction].
    rewrite Z.sub_diag. simpl. auto with zarith.
  - destruct (startsWith (x :: s) p) eqn:E.
    + rewrite Z.sub_diag. simpl. auto with zarith.
    + destruct (IH (i + 1)%Z Hr ltac:(lia)) as [Hle Hs]. split; [lia |].
      replace (Z.to_nat (indexOfAt s p (i + 1) - i))
        with (S (Z.to_nat (indexOfAt s p (i + 1) - (i + 1)))) by lia.
      assumption.
Qed.

Lemma indexOf_sound (s p : jsstring) (start : Z) :
  indexOf s p start <> (-1)%Z ->
  (0 <= indexOf s p start)%Z
  /\ startsWith (drop (Z.to_nat (indexOf s p start)) s) p = true.
Proof.
  unfold indexOf. intros Hr.
  assert (Hc : (0 <= clamp (zlen s) start)%Z) by (unfold clamp; lia).
  destruct (indexOfAt_sound p _ _ Hr Hc) as [Hle Hs].
  split; [lia |]. rewrite drop_drop in Hs.
  replace (Z.to_nat (clamp (zlen s) start)
           + Z.to_nat (indexOfAt (drop (Z.to_nat (clamp (zlen s) start)) s) p
                         (clamp (zlen s) start) - clamp (zlen s) start))
    with (Z.to_nat (indexOfAt (drop (Z.to_nat (clamp (zlen s) start)) s) p
                      (clamp (zlen s) start))) in Hs by lia.
  assumption.
Qed.

Lemma substring_inside (s : jsstring) (a b : Z) :
  (0 <= a <= b)%Z -> (b <= zlen s)%Z ->
  substring s a b = take (Z.to_nat (b - a)) (drop (Z.to_nat a) s).
Proof.
  intros Hab Hb. unfold substring, clamp.
  replace (Z.max 0 (Z.min a (zlen s))) with a by lia.
  replace (Z.max 0 (Z.min b (zlen s))) with b by lia.
  now rewrite Z.max_r, Z.min_l by lia.
Qed.

Lemma substring_length (s : jsstring) (a b : Z) :
  (0 <= a <= b)%Z ->
  Z.of_nat (length (substring s a b))
  = (Z.min b (zlen s) - Z.min a (zlen s))%Z.
Proof.
  intros Hab. unfold substring, clamp, zlen.
  rewrite length_take, length_drop. lia.
Qed.

Lemma matchLength_bounds (excerpt : jsstring) :
  (20 <= zlen excerpt)%Z ->
  (5 <= ExcerptMatching.matchLength excerpt <= 50)%Z
  /\ (ExcerptMatching.matchLength excerpt <= zlen excerpt)%Z.
Proof.
  intros H. unfold ExcerptMatching.matchLength.
  assert (Hq : (5 <= zlen excerpt / 4)%Z)
    by (apply Z.div_le_lower_bound; lia).
  assert (Hq' : (zlen excerpt / 4 <= zlen excerpt)%Z)
    by (apply Z.div_le_upper_bound; lia).
  lia.
Qed.

Lemma prefix_length (excerpt : jsstring) :
  (20 <= zlen excerpt)%Z ->
  zlen (ExcerptMatching.prefix excerpt) = ExcerptMatching.matchLength excerpt.
Proof.
  intros H. destruct (matchLength_bounds excerpt H) as [H1 H2].
  unfold ExcerptMatching.prefix. unfold zlen at 1.
  rewrite substring_length by lia. lia.
Qed.

Lemma suffix_length (excerpt : jsstring) :
  (20 <= zlen excerpt)%Z ->
  zlen (ExcerptMatching.suffix excerpt) = ExcerptMatching.matchLength excerpt.
Proof.
  intros H. destruct (matchLength_bounds excerpt H) as [H1 H2].
  unfold ExcerptMatching.suffix, substringFrom. unfold zlen at 1.
  rewrite substring_length by lia. lia.
Qed.

Lemma offsetLoop_sound (text excerpt : jsstring) (prefixIndex expected : Z) :
  forall (n : nat) (offset : Z) m,
    ExcerptMatching.offsetLoop text excerpt prefixIndex expected n offset
      = Some m ->
    exists o, (offset <= o < offset + Z.of_nat n)%Z
      /\ (0 <= expected + o)%Z
      /\ substring text (expected + o)
           (expected + o + ExcerptMatching.matchLength excerpt)
         = ExcerptMatching.suffix excerpt
      /\ m = ExcerptMatching.mkPartialMatch prefixIndex
               (expected + o + ExcerptMatching.matchLength excerpt
                - prefixIndex).
Proof.
  induction n as [| n IH]; intros offset m H; [discriminate |].
  cbn [ExcerptMatching.offsetLoop] in H.
  destruct (_ && _) eqn:E.
  - inversion H; subst m. apply andb_true_iff in E as [E1 E2].
    apply Z.leb_le in E1. apply bool_decide_eq_true in E2.
    exists offset. repeat split; try assumption; lia.
  - apply IH in H as (o & Ho & H'). exists o. split; [lia | assumption].
Qed.

Lemma prefixLoop_sound (text excerpt : jsstring) :
  forall (fuel : nat) (searchStart : Z) m,
    ExcerptMatching.prefixLoop text excerpt fuel searchStart = Some m ->
    exists p o,
      (0 <= p)%Z
      /\ startsWith (drop (Z.to_nat p) text) (ExcerptMatching.prefix excerpt)
         = true
      /\ (- 50 <= o <= 50)%Z
      /\ (0 <= p + zlen excerpt - ExcerptMatching.matchLength excerpt + o)%Z
      /\ substring text
           (p + zlen excerpt - ExcerptMatching.matchLength excerpt + o)
           (p + zlen excerpt + o)
         = ExcerptMatching.suffix excerpt
      /\ m = ExcerptMatching.mkPartialMatch p (zlen excerpt + o).
Proof.
  induction fuel as [| fuel IH]; intros searchStart m H; [discriminate |].
  cbn [ExcerptMatching.prefixLoop] in H.
  destruct (Z.eqb_spec
              (indexOf text (ExcerptMatching.prefix excerpt) searchStart) (-1))
    as [| Hfound]; [discriminate |].
  destruct (ExcerptMatching.offsetLoop _ _ _ _ _ _) as [r |] eqn:E.
  - inversion H; subst r.
    apply offsetLoop_sound in E as (o & Ho & Hpos & Hsuf & ->).
    destruct (indexOf_sound _ _ _ Hfound) as [Hp Hs].
    exists (indexOf text (ExcerptMatching.prefix excerpt) searchStart), o.
    unfold ExcerptMatching.searchWindow in Ho.
    repeat split; try assumption; try lia.
    + rewrite <- Hsuf. f_equal. lia.
    + f_equal. lia.
  - now apply IH in H.
Qed.

(** X9. What a fuzzy match stands for: the excerpt has at least twenty
    characters; the span lies inside the text; the text under the first
    [matchLength] characters of the span is the prefix of the excerpt and
    the text under its last [matchLength] characters is the suffix; and the
    length of the span differs from the length of the excerpt by at most
    fifty. *)
Theorem findExcerptPartialMatch_sound (text excerpt : jsstring)
    (m : ExcerptMatching.PartialMatch) :
  ExcerptMatching.findExcerptPartialMatch text excerpt = Some m ->
  (20 <= zlen excerpt)%Z
  /\ (0 <= ExcerptMatching.index m)%Z
  /\ (ExcerptMatching.index m + ExcerptMatching.length m <= zlen text)%Z
  /\ substring text (ExcerptMatching.index m)
       (ExcerptMatching.index m + ExcerptMatching.matchLength excerpt)
     = ExcerptMatching.prefix excerpt
  /\ substring text
       (ExcerptMatching.index m + ExcerptMatching.length m
        - ExcerptMatching.matchLength excerpt)
       (ExcerptMatching.index m + ExcerptMatching.length m)
     = ExcerptMatching.suffix excerpt
  /\ (- 50 <= ExcerptMatching.length m - zlen excerpt <= 50)%Z.
Proof.
  unfold ExcerptMatching.findExcerptPartialMatch.
  destruct (Z.ltb_spec (zlen excerpt) 20) as [| Hlen]; [discriminate |].
  intros H.
  apply prefixLoop_sound in H as (p & o & Hp & Hpre & Ho & Hsi & Hsuf & ->).
  cbn [ExcerptMatching.index ExcerptMatching.length].
  destruct (matchLength_bounds excerpt Hlen) as [Hml Hml'].
  pose proof (prefix_length excerpt Hlen) as Hpl.
  pose proof (suffix_length excerpt Hlen) as Hsl.
  assert (Hend : (p + (zlen excerpt + o) <= zlen text)%Z).
  { pose proof (f_equal (fun l => Z.of_nat (length l)) Hsuf) as Hl.
    cbv beta in Hl. rewrite substring_length in Hl by lia.
    unfold zlen in Hsl at 1. lia. }
  pose proof (startsWith_length _ _ Hpre) as Hfit.
  rewrite length_drop in Hfit. unfold zlen in Hpl at 1.
  split; [assumption |]. split; [assumption |]. split; [assumption |].
  split; [| split; [| lia]].
  - rewrite substring_inside by (unfold zlen; lia).
    apply startsWith_take in Hpre.
    etransitivity; [| exact Hpre]. f_equal. lia.
  - rewrite <- Hsuf. f_equal; lia.
Qed.

Lemma findExcerptPartialMatch_sound_witness :
  (20 <= zlen (js "trying not squint too much"))%Z
  /\ (0 <= 8)%Z
  /\ (8 + 29 <= zlen (js "She was trying not to squint too much in the light."))%Z
  /\ substring (js "She was trying not to squint too much in the light.") 8
       (8 + ExcerptMatching.matchLength (js "trying not squint too much"))
     = ExcerptMatching.prefix (js "trying not squint too much")
  /\ substring (js "She was trying not to squint too much in the light.")
       (8 + 29 - ExcerptMatching.matchLength (js "trying not squint too much"))
       (8 + 29)
     = ExcerptMatching.suffix (js "trying not squint too much")
  /\ (- 50 <= 29 - zlen (js "trying not squint too much") <= 50)%Z.
Proof.
  apply (findExcerptPartialMatch_sound
           (js "She was trying not to squint too much in the light.")
           (js "trying not squint too much")
           (ExcerptMatching.mkPartialMatch 8 29)).
  vm_compute. reflexivity.
Defined.

(** X10. For an excerpt of more than fifty characters the span of a fuzzy
    match is never empty: its length is positive. *)
Theorem long_excerpt_span_positive (text excerpt : jsstring)
    (m : ExcerptMatching.PartialMatch) :
  (50 < zlen excerpt)%Z ->
  ExcerptMatching.findExcerptPartialMatch text excerpt = Some m ->
  (0 < ExcerptMatching.length m)%Z.
Proof.
  unfold ExcerptMatching.findExcerptPartialMatch. intros Hlen H.
  destruct (_ <? 20)%Z; [discriminate |].
  apply prefixLoop_length in H as (o & Ho & Hl). lia.
Qed.

Lemma long_excerpt_span_positive_witness :
  (0 < 12)%Z.
Proof.
  apply (long_excerpt_span_positive
           (repeat 97%N 51) (repeat 97%N 51)
           (ExcerptMatching.mkPartialMatch 0 12)).
  - vm_compute. reflexivity.
  - vm_compute. reflexivity.
Defined.

(** ** An excerpt that stands in the text is not missed *)

Lemma startsWith_shorter (s p : jsstring) (n : nat) :
  startsWith s p = true -> startsWith s (take n p) = true.
Proof.
  revert s n. induction p as [| c p IH]; intros s n H.
  - now rewrite take_nil.
  - destruct n; [reflexivity |]. destruct s as [| d s]; [discriminate |].
    simpl in *. apply andb_true_iff in H as [-> H]. simpl. now apply IH.
Qed.

Lemma indexOfAt_le (p : jsstring) : forall (s : jsstring) (k : nat) (i : Z),
  (0 <= i)%Z ->
  startsWith (drop k s) p = true ->
  indexOfAt s p i <> (-1)%Z /\ (indexOfAt s p i <= i + Z.of_nat k)%Z.
Proof.
  induction s as [| x s IH]; intros k i Hi H; cbn [indexOfAt].
  - rewrite drop_nil in H. rewrite H. lia.
  - destruct (startsWith (x :: s) p) eqn:E; [lia |].
    destruct k as [| k]; [simpl in H; congruence |].
    destruct (IH k (i + 1)%Z ltac:(lia) H). lia.
Qed.

Lemma indexOf_le (s p : jsstring) (start e : Z) :
  (0 <= start <= e)%Z ->
  startsWith (drop (Z.to_nat e) s) p = true ->
  p <> [] ->
  indexOf s p start <> (-1)%Z /\ (start <= indexOf s p start <= e)%Z.
Proof.
  intros Hse He Hp.
  assert (Hlen : (e < zlen s)%Z).
  { apply startsWith_length in He. rewrite length_drop in He.
    destruct p; [contradiction |]. simpl in He. unfold zlen. lia. }
  assert (Hc : clamp (zlen s) start = start) by (unfold clamp; lia).
  assert (H : startsWith
                (drop (Z.to_nat (e - start)) (drop (Z.to_nat start) s)) p
              = true).
  { rewrite drop_drop. now replace (Z.to_nat start + Z.to_nat (e - start))
      with (Z.to_nat e) by lia. }
  destruct (indexOfAt_le p _ _ start ltac:(lia) H) as [Hne Hle].
  pose proof (indexOf_bounds s p start Hp) as Hb.
  unfold indexOf in *. rewrite Hc in *.
  split; [assumption |]. specialize (Hb Hne ltac:(lia)). lia.
Qed.

Lemma offsetLoop_complete (text excerpt : jsstring)
    (prefixIndex expected : Z) :
  forall (n : nat) (offset o : Z),
    (offset <= o < offset + Z.of_nat n)%Z ->
    (0 <= expected + o)%Z ->
    substring text (expected + o)
      (expected + o + ExcerptMatching.matchLength excerpt)
    = ExcerptMatching.suffix excerpt ->
    is_Some (ExcerptMatching.offsetLoop text excerpt prefixIndex expected
               n offset).
Proof.
  induction n as [| n IH]; intros offset o Ho Hpos Hsuf; [lia |].
  cbn [ExcerptMatching.offsetLoop].
  destruct (_ && _) eqn:E; [eauto |].
  apply (IH (offset + 1)%Z o); try assumption.
  destruct (Z.eq_dec o offset) as [-> |]; [| lia].
  exfalso. apply andb_false_iff in E as [E | E].
  - apply Z.leb_gt in E. lia.
  - apply bool_decide_eq_false in E. contradiction.
Qed.

Lemma offsetLoop_index (text excerpt : jsstring)
    (prefixIndex expected : Z) :
  forall (n : nat) (offset : Z) (m : ExcerptMatching.PartialMatch),
    ExcerptMatching.offsetLoop text excerpt prefixIndex expected n offset
    = Some m ->
    ExcerptMatching.index m = prefixIndex.
Proof.
  induction n as [| n IH]; intros offset m; cbn [ExcerptMatching.offsetLoop];
    [discriminate |].
  destruct (_ && _); [| apply IH].
  intros H. inversion H. reflexivity.
Qed.

(** X11. An excerpt of at least twenty characters that stands in the text
    is never missed: [findExcerptPartialMatch] returns a span, and the span
    starts at or before the first place where the excerpt stands.  The
    span need not be that place, nor have the length of the excerpt. *)
Theorem exact_occurrence_is_matched (text excerpt : jsstring) :
  (20 <= zlen excerpt)%Z ->
  indexOf text excerpt 0 <> (-1)%Z ->
  exists m,
    ExcerptMatching.findExcerptPartialMatch text excerpt = Some m
    /\ (ExcerptMatching.index m <= indexOf text excerpt 0)%Z.
Proof.
  intros Hlen Hfound.
  destruct (indexOf_sound _ _ _ Hfound) as [He Hocc].
  set (e := indexOf text excerpt 0) in *.
  destruct (matchLength_bounds excerpt Hlen) as [Hml Hml'].
  pose proof (prefix_nonempty excerpt Hlen) as Hpne.
  pose proof (startsWith_length _ _ Hocc) as Hfit.
  rewrite length_drop in Hfit.
  assert (Hpre : startsWith (drop (Z.to_nat e) text)
                   (ExcerptMatching.prefix excerpt) = true).
  { unfold ExcerptMatching.prefix. rewrite substring_inside by lia.
    rewrite drop_0, Z.sub_0_r. now apply startsWith_shorter. }
  assert (Hsuf : substring text
                   (e + zlen excerpt - ExcerptMatching.matchLength excerpt + 0)
                   (e + zlen excerpt - ExcerptMatching.matchLength excerpt + 0
                    + ExcerptMatching.matchLength excerpt)
                 = ExcerptMatching.suffix excerpt).
  { unfold ExcerptMatching.suffix, substringFrom.
    rewrite !substring_inside by (unfold zlen in *; lia).
    apply startsWith_take in Hocc.
    set (n := Z.to_nat (ExcerptMatching.matchLength excerpt)).
    transitivity (take n (drop (length excerpt - n) excerpt));
      [| unfold zlen in *; f_equal; [lia | f_equal; lia]].
    transitivity (take n (drop (Z.to_nat e + (length excerpt - n)) text));
      [unfold zlen in *; f_equal; [lia | f_equal; lia] |].
    rewrite <- (drop_drop text), take_drop_commute.
    replace (length excerpt - n + n) with (length excerpt)
      by (unfold zlen in *; lia).
    rewrite Hocc. symmetry. apply take_ge.
    rewrite length_drop. unfold zlen in *. lia. }
  unfold ExcerptMatching.findExcerptPartialMatch.
  destruct (Z.ltb_spec (zlen excerpt) 20); [lia |].
  assert (Hloop : forall fuel start,
            (0 <= start <= e)%Z -> Z.to_nat (e - start) < fuel ->
            exists m,
              ExcerptMatching.prefixLoop text excerpt fuel start = Some m
              /\ (ExcerptMatching.index m <= e)%Z).
  { induction fuel as [| fuel IH]; intros start Hs Hf; [lia |].
    cbn [ExcerptMatching.prefixLoop].
    destruct (indexOf_le text _ start e Hs Hpre Hpne) as [Hne Hp].
    destruct (Z.eqb_spec
                (indexOf text (ExcerptMatching.prefix excerpt) start) (-1));
      [contradiction |].
    destruct (ExcerptMatching.offsetLoop _ _ _ _ _ _) as [m |] eqn:E.
    { exists m. split; [reflexivity |].
      apply offsetLoop_index in E. lia. }
    destruct (Z.eq_dec
                (indexOf text (ExcerptMatching.prefix excerpt) start) e)
      as [Heq | Hneq].
    - rewrite Heq in E.
      destruct (offsetLoop_complete text excerpt e
                  (e + zlen excerpt - ExcerptMatching.matchLength excerpt)
                  (Z.to_nat (2 * ExcerptMatching.searchWindow + 1))
                  (- ExcerptMatching.searchWindow) 0) as [r Hr];
        try assumption.
      + unfold ExcerptMatching.searchWindow. lia.
      + lia.
      + congruence.
    - apply IH; lia. }
  apply Hloop; [lia |]. unfold zlen in *. lia.
Qed.

(** The theorem where the excerpt stands at the start of the text. *)
Lemma exact_occurrence_is_matched_witness :
  exists m,
    ExcerptMatching.findExcerptPartialMatch
      (js "The cat sat on the mat. The cat also sat on the chair.")
      (js "The cat sat on the mat") = Some m
    /\ (ExcerptMatching.index m
        <= indexOf (js "The cat sat on the mat. The cat also sat on the chair.")
             (js "The cat sat on the mat") 0)%Z.
Proof.
  apply (exact_occurrence_is_matched
           (js "The cat sat on the mat. The cat also sat on the chair.")
           (js "The cat sat on the mat")).
  - vm_compute. discriminate.
  - vm_compute. discriminate.
Defined.

(** ** The word of a spelling comment *)

Example test_extractMisspelledWord :
  DictionaryUtils.extractMisspelledWord
    (jsq "Spelling error - `fabic` should be `fabric`") = Some (js "fabic")
  /\ DictionaryUtils.extractMisspelledWord
       (jsq "Spelling error `moost` should be `most`") = Some (js "moost")
  /\ DictionaryUtils.extractMisspelledWord (jsq "Misspelling of `fabric`")
     = Some (js "fabric")
  /\ DictionaryUtils.extractMisspelledWord (js "Misspelling of fabric")
     = Some (js "fabric")
  /\ DictionaryUtils.extractMisspelledWord (jsq "`fabic` should be `fabric`")
     = Some (js "fabic")
  /\ DictionaryUtils.extractMisspelledWord
       (jsq "Wrong word - should be `knew` (past tense of know)") = None
  /\ DictionaryUtils.extractMisspelledWord
       (jsq "Wrong spelling - should be `losing` (one 'o')") = None
  /\ DictionaryUtils.extractMisspelledWord (js "Spelling error in the text")
     = None.
Proof. repeat split; vm_compute; reflexivity. Qed.

Example test_isSpellingError :
  DictionaryUtils.isSpellingError
    (mkSuggestion (jsq "Spelling error - `fabic` should be `fabric`")
       (js "peeling the sodden fabic away") (js "grammar") High
       (jsq "Spelling error - `fabic` should be `fabric`")
       (js "peeling the sodden fabric away")) = true
  /\ DictionaryUtils.isSpellingError
       (mkSuggestion (jsq "Should be `fabric`")
          (js "peeling the sodden fabic away") (js "spelling") High
          (jsq "Should be `fabric`") (js "peeling the sodden fabric away"))
     = true
  /\ DictionaryUtils.isSpellingError
       (mkSuggestion (jsq "Wrong word - should be `losing` not `loosing`")
          (js "I was loosing it") (js "spelling") High
          (jsq "Wrong word - should be `losing` not `loosing`")
          (js "I was losing it")) = false
  /\ DictionaryUtils.isSpellingError
       (mkSuggestion (jsq "Missing `to` before infinitive verb")
          (js "I was trying not squint") (js "grammar") High
          (jsq "Missing `to` before infinitive verb")
          (js "I was trying not to squint")) = false.
Proof. repeat split; vm_compute; reflexivity. Qed.

Lemma starG_run {A} c (s : jsstring) (k : jsstring -> option A) r :
  starG c s k = Some r ->
  exists m, m <= length s
    /\ Forall (fun x => c x = true) (take m s)
    /\ k (drop m s) = Some r.
Proof.
  induction s as [| x s IH]; simpl; intros H.
  - exists 0. simpl. auto.
  - destruct (c x) eqn:Hx.
    + destruct (starG c s k) as [r' |] eqn:E.
      * inversion H; subst r'. destruct (IH eq_refl) as (m & Hm & Hall & Hk).
        exists (S m). simpl. repeat split; [lia | | assumption].
        constructor; assumption.
      * exists 0. simpl. repeat split; [lia | constructor | assumption].
    + exists 0. simpl. repeat split; [lia | constructor | assumption].
Qed.

Lemma plusG_run {A} c (s : jsstring) (k : jsstring -> option A) r :
  plusG c s k = Some r ->
  exists m, 1 <= m <= length s
    /\ Forall (fun x => c x = true) (take m s)
    /\ k (drop m s) = Some r.
Proof.
  destruct s as [| x s]; simpl; [discriminate |].
  destruct (c x) eqn:Hx; [| discriminate].
  intros H. apply starG_run in H as (m & Hm & Hall & Hk).
  exists (S m). simpl. repeat split; [lia | lia | | assumption].
  constructor; assumption.
Qed.

Lemma captured_run (s : jsstring) (m : nat) :
  m <= length s -> DictionaryUtils.captured s (drop m s) = take m s.
Proof.
  intros H. unfold DictionaryUtils.captured. rewrite length_drop.
  f_equal. lia.
Qed.

Lemma optG_inv {A} c (s : jsstring) (k : jsstring -> option A) r :
  DictionaryUtils.optG c s k = Some r -> exists s', k s' = Some r.
Proof.
  unfold DictionaryUtils.optG. destruct s as [| x s]; [eauto |].
  destruct (c x); [| eauto]. destruct (k s) eqn:E; [| eauto].
  intros H. inversion H; subst. eauto.
Qed.

Lemma search_some_at {A} (p : jsstring -> option A) (s : jsstring) i r :
  search p s = Some (i, r) -> p (drop i s) = Some r.
Proof.
  revert i. induction s as [| x s IH]; simpl; intros i H.
  - destruct (p []) eqn:E; [| discriminate]. inversion H; subst. exact E.
  - destruct (p (x :: s)) eqn:E.
    + inversion H; subst. exact E.
    + destruct (search p s) as [[i' r'] |]; [| discriminate].
      inversion H; subst. now apply IH.
Qed.

Lemma spellingErrorPattern_word (s w : jsstring) :
  DictionaryUtils.spellingErrorPattern s = Some w ->
  w <> [] /\ Forall (fun x => DictionaryUtils.notDquote x = true) w.
Proof.
  unfold DictionaryUtils.spellingErrorPattern.
  destruct (lit false (js "Spelling error") s) as [s1 |]; [| discriminate].
  intros H. apply starG_run in H as (m1 & _ & _ & H).
  destruct (lit false [dquote] (drop m1 s1)) as [s3 |]; [| discriminate].
  apply plusG_run in H as (m & Hm & Hall & H).
  destruct (lit false [dquote] (drop m s3)); [| discriminate].
  inversion H. rewrite captured_run by lia.
  split; [| assumption].
  intros E. apply (f_equal length) in E. rewrite length_take in E.
  simpl in E. lia.
Qed.

Lemma misspellingOfPattern_word (s w : jsstring) :
  DictionaryUtils.misspellingOfPattern s = Some w ->
  Forall (fun x => DictionaryUtils.notQuote x = true) w.
Proof.
  unfold DictionaryUtils.misspellingOfPattern.
  destruct (lit false (js "Misspelling of ") s) as [s1 |]; [| discriminate].
  intros H. apply optG_inv in H as (s2 & H).
  apply plusG_run in H as (m & Hm & Hall & H).
  apply optG_inv in H as (s' & H).
  inversion H. now rewrite captured_run by lia.
Qed.

Lemma quotedShouldBePattern_word (s w : jsstring) :
  DictionaryUtils.quotedShouldBePattern s = Some w ->
  w <> [] /\ Forall (fun x => DictionaryUtils.notQuote x = true) w.
Proof.
  unfold DictionaryUtils.quotedShouldBePattern.
  destruct s as [| x s1]; [discriminate |].
  destruct (DictionaryUtils.isQuote x); [| discriminate].
  intros H. apply plusG_run in H as (m & Hm & Hall & H).
  destruct (drop m s1) as [| q s3] eqn:E; [discriminate |].
  destruct (DictionaryUtils.isQuote q); [| discriminate].
  destruct (lit false (js " should be") s3); [| discriminate].
  inversion H. rewrite <- E, captured_run by lia.
  split; [| assumption].
  intros E'. apply (f_equal length) in E'. rewrite length_take in E'.
  simpl in E'. lia.
Qed.

Lemma elem_of_trim (x : N) (s : jsstring) : x ∈ trim s -> x ∈ s.
Proof.
  intros H. destruct (trim_split s) as (w1 & w2 & Hs & _).
  rewrite Hs. rewrite !elem_of_app. auto.
Qed.

Lemma elem_of_dropTrailingQuote (x : N) (w : jsstring) :
  x ∈ DictionaryUtils.dropTrailingQuote w -> x ∈ w.
Proof.
  unfold DictionaryUtils.dropTrailingQuote.
  destruct (search _ w) as [[i u] |]; [| auto].
  rewrite elem_of_app. intros [H | H].
  - rewrite <- (take_drop i w). apply elem_of_app. auto.
  - rewrite <- (take_drop (i + 1) w). apply elem_of_app. auto.
Qed.

Lemma notQuote_dquote : DictionaryUtils.notQuote dquote = false.
Proof. reflexivity. Qed.

(** X12. The word [extractMisspelledWord] returns never holds a straight
    double quote, whichever of the three formats of the comment it was
    taken from. *)
Theorem extractMisspelledWord_no_quote (comment word : jsstring) :
  DictionaryUtils.extractMisspelledWord comment = Some word ->
  dquote ∉ word.
Proof.
  unfold DictionaryUtils.extractMisspelledWord.
  destruct (search DictionaryUtils.spellingErrorPattern comment)
    as [[i w] |] eqn:E1.
  { intros H; inversion H; subst w.
    apply search_some_at, spellingErrorPattern_word in E1 as [_ Hall].
    intros Hin. rewrite Forall_forall in Hall.
    specialize (Hall _ Hin). discriminate. }
  destruct (search DictionaryUtils.misspellingOfPattern comment)
    as [[i w] |] eqn:E2.
  { intros H; inversion H; subst word.
    apply search_some_at, misspellingOfPattern_word in E2.
    intros Hin. apply elem_of_trim, elem_of_dropTrailingQuote in Hin.
    rewrite Forall_forall in E2. specialize (E2 _ Hin). discriminate. }
  destruct (DictionaryUtils.quotedShouldBePattern comment) as [w |] eqn:E3.
  { intros H; inversion H; subst w.
    apply quotedShouldBePattern_word in E3 as [_ Hall].
    intros Hin. rewrite Forall_forall in Hall.
    specialize (Hall _ Hin). discriminate. }
  destruct (search DictionaryUtils.shouldBeNotPattern comment); discriminate.
Qed.

Lemma extractMisspelledWord_no_quote_witness : dquote ∉ js "fabic".
Proof.
  apply (extractMisspelledWord_no_quote
           (jsq "Spelling error - `fabic` should be `fabric`") (js "fabic")).
  vm_compute. reflexivity.
Defined.

Lemma lit_startsWith (p s s' : jsstring) :
  lit false p s = Some s' -> startsWith s p = true.
Proof.
  revert s. induction p as [| c p IH]; intros s H; [reflexivity |].
  destruct s as [| d s]; [discriminate |]. simpl in *.
  destruct (c =? d)%N; [| discriminate]. simpl. now apply IH.
Qed.

Lemma search_all_none {A} (p : jsstring -> option A) (s : jsstring) :
  (forall j, p (drop j s) = None) -> search p s = None.
Proof.
  induction s as [| x s IH]; intros H; simpl.
  - pose proof (H 0) as H0. simpl in H0. now rewrite H0.
  - pose proof (H 0) as H0. simpl in H0. rewrite H0.
    rewrite IH; [reflexivity |]. intros j. apply (H (S j)).
Qed.

Lemma includes_false (s p : jsstring) :
  includes s p = false -> forall j, startsWith (drop j s) p = false.
Proof.
  unfold includes, indexOf. intros H j.
  apply negb_false_iff, Z.eqb_eq in H.
  assert (Hc : clamp (zlen s) 0 = 0%Z) by (unfold clamp, zlen; lia).
  rewrite Hc in H. simpl in H. rewrite drop_0 in H.
  destruct (startsWith (drop j s) p) eqn:E; [| reflexivity].
  destruct (indexOfAt_le p s j 0 ltac:(lia) E). contradiction.
Qed.

Lemma search_without_literal {A} (p : jsstring -> option A)
    (l s : jsstring) :
  (forall t, lit false l t = None -> p t = None) ->
  includes s l = false -> search p s = None.
Proof.
  intros Hp H. apply search_all_none. intros j. apply Hp.
  destruct (lit false l (drop j s)) eqn:E; [| reflexivity].
  apply lit_startsWith in E. now rewrite (includes_false s l H j) in E.
Qed.

(** X13. A comment that holds neither [Spelling error] nor
    [Misspelling of ] and does not open with a quote gives no word:
    [extractMisspelledWord] returns null. *)
Theorem extractMisspelledWord_null (comment : jsstring) :
  includes comment (js "Spelling error") = false ->
  includes comment (js "Misspelling of ") = false ->
  match comment with
  | c :: _ => DictionaryUtils.isQuote c = false
  | [] => True
  end ->
  DictionaryUtils.extractMisspelledWord comment = None.
Proof.
  intros H1 H2 H3. unfold DictionaryUtils.extractMisspelledWord.
  rewrite (search_without_literal _ (js "Spelling error") comment); [| | exact H1].
  - rewrite (search_without_literal _ (js "Misspelling of ") comment);
      [| | exact H2].
    + assert (E : DictionaryUtils.quotedShouldBePattern comment = None).
      { destruct comment as [| c s]; [reflexivity |].
        unfold DictionaryUtils.quotedShouldBePattern. now rewrite H3. }
      rewrite E.
      destruct (search DictionaryUtils.shouldBeNotPattern comment);
        reflexivity.
    + intros t Ht. unfold DictionaryUtils.misspellingOfPattern.
      now rewrite Ht.
  - intros t Ht. unfold DictionaryUtils.spellingErrorPattern. now rewrite Ht.
Qed.

Lemma extractMisspelledWord_null_witness :
  DictionaryUtils.extractMisspelledWord
    (jsq "Wrong word - should be `knew` (past tense of know)") = None.
Proof.
  apply extractMisspelledWord_null; vm_compute; reflexivity.
Defined.

(** ** The identifiers of the diagnostics *)

Module Identifiers.

Import Extension.

Lemma sublist_omap {A B} (f : A -> option B) (l1 l2 : list A) :
  l1 `sublist_of` l2 -> omap f l1 `sublist_of` omap f l2.
Proof.
  induction 1 as [| x l1 l2 Hsub IH | x l1 l2 Hsub IH]; simpl.
  - constructor.
  - destruct (f x); [now constructor | assumption].
  - destruct (f x); [now constructor | assumption].
Qed.

(** What every state of a session satisfies: its diagnostics resolve, no
    two of them share an identifier, and the counter counts the ranges
    taken by quick fixes. *)
Abbreviation identified st :=
  (resolved st
   /\ NoDup (omap code (diagnostics st))
   /\ length (usedRanges st) = diagnosticCounter st).

Lemma identified_cleared : identified cleared.
Proof.
  split; [| split]; simpl.
  - intros d H. inversion H.
  - constructor.
  - reflexivity.
Qed.

Lemma identified_pushHint (st : State) (r : Range) (s : ParsedSuggestion) :
  identified st -> identified (pushHint st r s).
Proof.
  intros (Hres & Hnd & Hlen). split; [| split]; simpl.
  - intros d H. apply elem_of_app in H as [H | H]; [now apply Hres |].
    apply list_elem_of_singleton in H. subst d. simpl. auto.
  - rewrite omap_app. simpl. now rewrite app_nil_r.
  - exact Hlen.
Qed.

Lemma identified_commit (st : State) (r : Range) (s : ParsedSuggestion) :
  isQuickFixable s = true ->
  identified st ->
  identified
    (mkState (<[pretty (S (diagnosticCounter st)) := s]> (suggestionMap st))
             (S (diagnosticCounter st))
             (usedRanges st ++ [r])
             (diagnostics st ++
                [mkDiagnostic r (comment s) (severityFor (severity s))
                   (js "FramerD")
                   (Some (pretty (S (diagnosticCounter st))))])).
Proof.
  intros Hq (Hres & Hnd & Hlen).
  assert (Hold : forall id, id ∈ omap code (diagnostics st) ->
                 id <> pretty (S (diagnosticCounter st))).
  { intros id Hin. apply list_elem_of_omap in Hin as (d & Hd & Hc).
    destruct (Hres d Hd) as [_ H]. rewrite Hc in H.
    destruct H as (k & s0 & -> & Hk & _).
    intros E. apply pretty_nat_inj in E. lia. }
  split; [| split]; simpl.
  - intros d H. apply elem_of_app in H as [H | H].
    + destruct (Hres d H) as [Hs Hd]. split; [exact Hs |].
      destruct (code d) as [id |] eqn:Hc; [| exact Hd].
      destruct Hd as (k & s0 & Hid & Hk & Hl & Hrest).
      exists k, s0. split; [exact Hid |]. split; [simpl; lia |].
      split; [| exact Hrest]. simpl.
      rewrite lookup_insert_ne; [exact Hl |].
      intros E. apply (Hold id); [| now symmetry].
      apply list_elem_of_omap. exists d. auto.
    + apply list_elem_of_singleton in H. subst d. simpl.
      split; [reflexivity |].
      exists (S (diagnosticCounter st)), s.
      split; [reflexivity |]. split; [lia |].
      split; [apply lookup_insert_eq |]. auto.
  - rewrite omap_app. simpl. apply NoDup_app. split; [exact Hnd |].
    split; [| apply NoDup_singleton].
    intros id Hin Hnew. apply list_elem_of_singleton in Hnew.
    now apply (Hold id).
  - rewrite length_app. simpl. lia.
Qed.

Lemma identified_remove (diagnosticCode : string) (st : State) :
  identified st -> identified (removeDiagnostic diagnosticCode st).
Proof.
  intros (Hres & Hnd & Hlen). split; [| split]; simpl.
  - intros d H. apply list_elem_of_filter in H as [Hne H].
    destruct (Hres d H) as [Hs Hd]. split; [exact Hs |].
    destruct (code d) as [id |] eqn:Hc; [| exact Hd].
    destruct Hd as (k & s0 & Hid & Hk & Hl & Hrest).
    exists k, s0. split; [exact Hid |]. split; [exact Hk |].
    split; [| exact Hrest]. simpl.
    rewrite lookup_delete_ne; [exact Hl |]. congruence.
  - eapply sublist_NoDup; [exact Hnd |].
    apply sublist_omap, sublist_filter.
  - exact Hlen.
Qed.

Lemma identified_changed (st : State) :
  identified st -> identified (documentChanged st).
Proof.
  intros (Hres & Hnd & Hlen). split; [| split]; simpl.
  - intros d H. inversion H.
  - constructor.
  - exact Hlen.
Qed.

Section Session.

Variable intersection : Range -> Range -> option Range.
Variable positionAt : Z -> Position.
Variable extractMisspelledWord : jsstring -> option jsstring.
Variable text : jsstring.

Lemma identified_add (dictionary : list jsstring) (s : ParsedSuggestion)
    (st : State) :
  identified st ->
  identified (addSuggestionAsDiagnostic intersection positionAt
                extractMisspelledWord text dictionary s st).
Proof.
  intros H. unfold addSuggestionAsDiagnostic.
  destruct (dictionarySkips _ _ _); [exact H |].
  destruct (target_excerpt s) as [| c e] eqn:He;
    [now apply identified_pushHint |].
  destruct (_ =? -1)%Z; [now apply identified_pushHint |].
  destruct (isQuickFixable s) eqn:Hq; simpl;
    [| now apply identified_pushHint].
  destruct (overlapsUsed _ _ _); simpl; [now apply identified_pushHint |].
  now apply identified_commit.
Qed.

Lemma identified_step (st : State) (e : Event) :
  identified st ->
  identified (step intersection positionAt extractMisspelledWord text st e).
Proof.
  destruct e; simpl; intros H.
  - now apply identified_add.
  - now apply identified_remove.
  - now apply identified_changed.
  - apply identified_cleared.
Qed.

Lemma identified_session (events : list Event) :
  identified (session intersection positionAt extractMisspelledWord text
                events).
Proof.
  unfold session. generalize identified_cleared. generalize cleared.
  induction events as [| e events IH]; intros st H; simpl; [exact H |].
  apply IH. now apply identified_step.
Qed.

(** X14. Whatever happens in a review session, every diagnostic shown is
    the extension's own; one without identifier is a hint, and the
    identifier of any other is the decimal form of a counter value reached,
    which the suggestion map resolves to a quick-fixable suggestion with the
    diagnostic's message and severity. *)
Theorem session_resolved (events : list Event) :
  resolved (session intersection positionAt extractMisspelledWord text
              events).
Proof. apply identified_session. Qed.

(** X15. In every state of a review session no two diagnostics share an
    identifier, and the counter equals the number of ranges taken by quick
    fixes. *)
Theorem session_identifiers_distinct (events : list Event) :
  let st := session intersection positionAt extractMisspelledWord text
              events in
  NoDup (omap code (diagnostics st))
  /\ length (usedRanges st) = diagnosticCounter st.
Proof. apply identified_session. Qed.

(** X16. For a diagnostic of a review session [provideCodeActions] offers
    nothing when it has no identifier, and otherwise starts with the fix
    that puts the nonempty rewrite of the suggestion stored under the
    identifier at the diagnostic's range, the suggestion being the one whose
    comment the diagnostic shows. *)
Theorem provideCodeActions_session (events : list Event) (d : Diagnostic) :
  let st := session intersection positionAt extractMisspelledWord text
              events in
  d ∈ diagnostics st ->
  match code d with
  | None => provideCodeActions extractMisspelledWord (suggestionMap st) [d]
            = []
  | Some id =>
      exists s rest,
        suggestionMap st !! id = Some s
        /\ message d = comment s
        /\ rewrite s <> []
        /\ provideCodeActions extractMisspelledWord (suggestionMap st) [d]
           = ApplyFix (range d) (rewrite s) (Some id) :: rest
  end.
Proof.
  intros st Hd.
  destruct (identified_session events) as (Hres & _).
  destruct (Hres d Hd) as [Hs Hc]. fold st in Hres.
  unfold provideCodeActions. rewrite Hs.
  change (eqb (js "FramerD") (js "FramerD")) with true. cbn [negb].
  destruct (code d) as [id |]; [| reflexivity].
  destruct Hc as (k & s & _ & _ & Hl & Hq & Hm & _).
  fold st in Hl.
  assert (Hrw : rewrite s <> []).
  { intros E. unfold isQuickFixable in Hq. rewrite E in Hq. discriminate. }
  exists s. eexists.
  split; [exact Hl |]. split; [exact Hm |]. split; [exact Hrw |].
  change (Some id ≫= (fun id0 => suggestionMap st !! id0))
    with (suggestionMap st !! id).
  rewrite Hl. destruct (rewrite s) as [| c rw]; [contradiction |].
  reflexivity.
Qed.

End Session.

(** The theorem in a one-line document, for the diagnostic of [catFix]. *)
Lemma provideCodeActions_session_witness :
  let st := session lineIntersection columnAt noWord
              (js "The cat sat on mat.") [Suggested [] catFix] in
  let d := mkDiagnostic (mkRange (mkPosition 0 0) (mkPosition 0 18))
             (js "Missing article") Error (js "FramerD")
             (Some "1"%string) in
  d ∈ diagnostics st
  /\ exists s rest,
       suggestionMap st !! "1"%string = Some s
       /\ message d = comment s
       /\ rewrite s <> []
       /\ provideCodeActions noWord (suggestionMap st) [d]
          = ApplyFix (range d) (rewrite s) (Some "1"%string) :: rest.
Proof.
  cbv zeta.
  assert (H : mkDiagnostic (mkRange (mkPosition 0 0) (mkPosition 0 18))
                (js "Missing article") Error (js "FramerD")
                (Some "1"%string)
              ∈ diagnostics
                  (session lineIntersection columnAt noWord
                     (js "The cat sat on mat.") [Suggested [] catFix])).
  { vm_compute. constructor. }
  split; [exact H |].
  exact (provideCodeActions_session lineIntersection columnAt noWord
           (js "The cat sat on mat.") [Suggested [] catFix] _ H).
Defined.

End Identifiers.

(** ** The mock document *)

Module MockDocumentFacts.

Import Extension.

Lemma splitLines_nonempty (s cur : jsstring) : Mocks.splitLines s cur <> [].
Proof.
  revert cur. induction s as [| c s IH]; intros cur; simpl; [discriminate |].
  destruct (c =? nl)%N; [discriminate | apply IH].
Qed.

(** The lines with their line breaks make up the text and one more. *)
Lemma splitLines_total (s : jsstring) : forall cur,
  Mocks.lineOffset (length (Mocks.splitLines s cur)) (Mocks.splitLines s cur)
  = length cur + length s + 1.
Proof.
  induction s as [| c s IH]; intros cur; simpl; [lia |].
  destruct (c =? nl)%N; simpl.
  - rewrite IH. simpl. lia.
  - rewrite IH, length_app. simpl. lia.
Qed.

Lemma lineOffset_last (ls : list jsstring) :
  ls <> [] ->
  Mocks.lineOffset (length ls - 1) ls
  + match last ls with Some l => length l | None => 0 end + 1
  = Mocks.lineOffset (length ls) ls.
Proof.
  induction ls as [| l ls IH]; [congruence |]. intros _.
  destruct ls as [| l' ls]; [simpl; lia |].
  specialize (IH ltac:(discriminate)).
  change (last (l :: l' :: ls)) with (last (l' :: ls)).
  replace (length (l :: l' :: ls) - 1) with (S (length (l' :: ls) - 1))
    by (simpl; lia).
  change (length (l :: l' :: ls)) with (S (length (l' :: ls))).
  cbn [Mocks.lineOffset]. lia.
Qed.

Lemma positionLoop_sound (ls : list jsstring) : forall ln cur off p,
  cur <= off ->
  Mocks.positionLoop ls ln cur off = Some p ->
  exists k l,
    line p = ln + k /\ ls !! k = Some l /\ character p <= length l
    /\ cur + Mocks.lineOffset k ls + character p = off.
Proof.
  induction ls as [| l ls IH]; intros ln cur off p Hle; simpl;
    [discriminate |].
  destruct (off <? cur + (length l + 1)) eqn:E.
  - apply Nat.ltb_lt in E. intros H; inversion H; subst p. simpl.
    exists 0, l. simpl. repeat split; lia.
  - apply Nat.ltb_ge in E. intros H.
    apply IH in H as (k & l' & Hl & Hk & Hc & Ho); [| lia].
    exists (S k), l'. simpl. repeat split; [lia | assumption | lia | lia].
Qed.

Lemma positionLoop_total (ls : list jsstring) : forall ln cur off,
  cur <= off ->
  off < cur + Mocks.lineOffset (length ls) ls ->
  Mocks.positionLoop ls ln cur off <> None.
Proof.
  induction ls as [| l ls IH]; intros ln cur off Hle; simpl; [lia |].
  intros H. destruct (off <? cur + (length l + 1)) eqn:E; [discriminate |].
  apply Nat.ltb_ge in E. apply IH; lia.
Qed.

Lemma positionLoop_past (ls : list jsstring) : forall ln cur off,
  cur + Mocks.lineOffset (length ls) ls <= off ->
  Mocks.positionLoop ls ln cur off = None.
Proof.
  induction ls as [| l ls IH]; intros ln cur off; simpl; [reflexivity |].
  intros H. destruct (off <? cur + (length l + 1)) eqn:E.
  - apply Nat.ltb_lt in E. lia.
  - apply IH. lia.
Qed.

Lemma lines_total (text : jsstring) :
  Mocks.lineOffset (length (Mocks.lines text)) (Mocks.lines text)
  = length text + 1.
Proof. unfold Mocks.lines. rewrite splitLines_total. simpl. lia. Qed.

Lemma offsetAt_positionAt (text : jsstring) (offset : nat) :
  Mocks.offsetAt text (Mocks.positionAt text offset)
  = Nat.min offset (length text).
Proof.
  unfold Mocks.offsetAt, Mocks.positionAt.
  pose proof (lines_total text) as Ht.
  destruct (Mocks.positionLoop (Mocks.lines text) 0 0 offset) as [p |] eqn:E.
  - destruct (Nat.le_gt_cases (length text + 1) offset) as [Hge | Hlt].
    + rewrite positionLoop_past in E by (simpl; lia). discriminate.
    + apply positionLoop_sound in E as (k & l & Hl & _ & _ & Ho); [| lia].
      simpl in Hl, Ho. subst k. lia.
  - destruct (Nat.le_gt_cases (length text + 1) offset) as [Hge | Hlt].
    + simpl. pose proof (lineOffset_last (Mocks.lines text)
                           (splitLines_nonempty text [])). lia.
    + exfalso. revert E. apply positionLoop_total; simpl; lia.
Qed.

(** X17. In the mock document [positionAt] followed by [offsetAt] gives the
    offset back, and the length of the text for an offset past its end. *)
Theorem offsetAt_positionAt_roundtrip (text : jsstring) (offset : nat) :
  Mocks.offsetAt text (Mocks.positionAt text offset)
  = Nat.min offset (length text).
Proof. apply offsetAt_positionAt. Qed.

(** X18. [positionAt] of the mock document always gives a position of the
    document: a line that exists, and a column within that line or just
    after it. *)
Theorem positionAt_in_document (text : jsstring) (offset : nat) :
  exists l,
    Mocks.lines text !! line (Mocks.positionAt text offset) = Some l
    /\ character (Mocks.positionAt text offset) <= length l.
Proof.
  unfold Mocks.positionAt.
  destruct (Mocks.positionLoop (Mocks.lines text) 0 0 offset) as [p |] eqn:E.
  - apply positionLoop_sound in E as (k & l & Hl & Hk & Hc & _); [| lia].
    exists l. simpl in Hl. subst k. auto.
  - simpl. pose proof (splitLines_nonempty text []) as Hne.
    fold (Mocks.lines text) in Hne.
    destruct (last (Mocks.lines text)) as [l |] eqn:El.
    + exists l. split; [| lia]. rewrite last_lookup in El.
      etransitivity; [| exact El]. f_equal. lia.
    + apply last_None in El. contradiction.
Qed.

Lemma getText_positions (text : jsstring) (i j : nat) :
  Mocks.getText text
    (mkRange (Mocks.positionAt text i) (Mocks.positionAt text j))
  = take (j - i) (drop i text).
Proof.
  unfold Mocks.getText. simpl. rewrite !offsetAt_positionAt.
  unfold slice, zlen.
  destruct (Z.ltb_spec (Z.of_nat (Nat.min i (length text))) 0); [lia |].
  destruct (Z.ltb_spec (Z.of_nat (Nat.min j (length text))) 0); [lia |].
  destruct (Nat.le_gt_cases i (length text)) as [Hi | Hi].
  - replace (Z.to_nat (Z.min (Z.of_nat (Nat.min i (length text)))
                         (Z.of_nat (length text)))) with i by lia.
    destruct (Nat.le_gt_cases j (length text)) as [Hj | Hj].
    + f_equal. lia.
    + rewrite !take_ge; [reflexivity | |]; rewrite length_drop; lia.
  - rewrite !drop_ge by lia. now rewrite !take_nil.
Qed.

(** X19. Reading the mock document between the positions of two offsets
    gives the code units of the text from the first offset up to the
    second. *)
Theorem getText_between_offsets (text : jsstring) (i j : nat) :
  Mocks.getText text
    (mkRange (Mocks.positionAt text i) (Mocks.positionAt text j))
  = take (j - i) (drop i text).
Proof. apply getText_positions. Qed.

(** X20. With the mock document as editor, the range that
    [addSuggestionAsDiagnostic] computes for an excerpt it has located reads
    back as the excerpt. *)
Theorem candidateRange_reads_excerpt (text : jsstring)
    (suggestion : ParsedSuggestion) :
  let i := indexOf text (target_excerpt suggestion) 0 in
  i <> (-1)%Z ->
  Mocks.getText text
    (candidateRange (fun o => Mocks.positionAt text (Z.to_nat o))
       suggestion i)
  = target_excerpt suggestion.
Proof.
  intros i Hi. destruct (indexOf_sound _ _ _ Hi) as [H0 Hs]. fold i in H0, Hs.
  unfold candidateRange. rewrite getText_positions.
  apply startsWith_take in Hs. unfold zlen.
  replace (Z.to_nat (i + Z.of_nat (length (target_excerpt suggestion)))
           - Z.to_nat i) with (length (target_excerpt suggestion)) by lia.
  exact Hs.
Qed.

Lemma candidateRange_reads_excerpt_witness :
  Mocks.getText (lines ["The cat sat"; "on mat."])
    (mkRange (mkPosition 1 0) (mkPosition 1 6))
  = js "on mat".
Proof.
  apply (candidateRange_reads_excerpt (lines ["The cat sat"; "on mat."])
           matFix).
  vm_compute. discriminate.
Defined.

End MockDocumentFacts.

(** ** The chunks of the mock streams *)

Module ChunkFacts.

Lemma realisticLoop_concat (text : jsstring) : forall buffer chunks,
  concat (Mocks.realisticLoop text buffer chunks)
  = concat chunks ++ buffer ++ text.
Proof.
  induction text as [| c text IH]; intros buffer chunks; simpl.
  - destruct buffer as [| b buffer]; [now rewrite app_nil_r |].
    rewrite concat_app. simpl. now rewrite !app_nil_r.
  - destruct (Mocks.isDelimiter c); rewrite IH.
    + rewrite concat_app. simpl. rewrite app_nil_r, <- !app_assoc.
      reflexivity.
    + rewrite <- !app_assoc. reflexivity.
Qed.

Lemma Forall_removelast {A} (P : A -> Prop) (l : list A) :
  Forall P l -> Forall P (removelast l).
Proof.
  induction 1 as [| x l Hx Hl IH]; simpl; [constructor |].
  destruct l; [constructor | now constructor].
Qed.

Lemma realisticLoop_chunks (text : jsstring) : forall buffer chunks,
  let P := fun chunk : jsstring =>
    chunk <> []
    /\ Forall (fun x => Mocks.isDelimiter x = false) (removelast chunk) in
  Forall (fun x => Mocks.isDelimiter x = false) buffer ->
  Forall P chunks ->
  Forall P (Mocks.realisticLoop text buffer chunks).
Proof.
  intros buffer chunks P. revert buffer chunks.
  induction text as [| c text IH]; intros buffer chunks Hb Hc; simpl.
  - destruct buffer as [| b buffer]; [exact Hc |].
    apply Forall_app. split; [exact Hc |]. constructor; [| constructor].
    split; [discriminate | now apply Forall_removelast].
  - destruct (Mocks.isDelimiter c) eqn:Ec; apply IH.
    + constructor.
    + apply Forall_app. split; [exact Hc |]. constructor; [| constructor].
      split; [destruct buffer; discriminate |].
      now rewrite removelast_last.
    + apply Forall_app. split; [exact Hb |]. repeat constructor. exact Ec.
    + exact Hc.
Qed.

Lemma realisticLoop_ends (text : jsstring) : forall buffer chunks,
  let Q := fun chunk : jsstring =>
    exists c, last chunk = Some c /\ Mocks.isDelimiter c = true in
  Forall Q chunks ->
  Forall Q (removelast (Mocks.realisticLoop text buffer chunks)).
Proof.
  intros buffer chunks Q. revert buffer chunks.
  induction text as [| c text IH]; intros buffer chunks Hc; simpl.
  - destruct buffer as [| b buffer]; [now apply Forall_removelast |].
    now rewrite removelast_last.
  - destruct (Mocks.isDelimiter c) eqn:Ec; apply IH; [| exact Hc].
    apply Forall_app. split; [exact Hc |]. constructor; [| constructor].
    exists c. split; [apply last_snoc | exact Ec].
Qed.

(** X21. [createRealisticChunks] cuts the text after every space, line
    break, full stop, comma and colon and nowhere else: the chunks put
    together are the text, no chunk is empty, a chunk holds a delimiter
    only as its last character, and every chunk but the last ends in one. *)
Theorem createRealisticChunks_partition (text : jsstring) :
  let chunks := Mocks.createRealisticChunks text in
  concat chunks = text
  /\ Forall (fun chunk : jsstring =>
               chunk <> []
               /\ Forall (fun x => Mocks.isDelimiter x = false)
                         (removelast chunk)) chunks
  /\ Forall (fun chunk : jsstring =>
               exists c, last chunk = Some c /\ Mocks.isDelimiter c = true)
            (removelast chunks).
Proof.
  unfold Mocks.createRealisticChunks. split; [| split].
  - now rewrite realisticLoop_concat.
  - apply realisticLoop_chunks; constructor.
  - apply realisticLoop_ends. constructor.
Qed.

Lemma streamLoop_prefix (options : Mocks.StreamOptions) :
  forall fuel rest chunkCount,
  exists tail,
    rest = concat (Mocks.streamLoop options fuel rest chunkCount).1 ++ tail.
Proof.
  induction fuel as [| fuel IH]; intros rest chunkCount; simpl;
    [exists rest; reflexivity |].
  destruct rest as [| c rest]; [exists []; reflexivity |].
  destruct (_ && _); [eexists; reflexivity |].
  destruct (_ && _); [eexists; reflexivity |].
  set (n := match Mocks.charsPerChunk options with 0 => 1 | S _ => _ end).
  destruct (IH (drop n (c :: rest)) (S chunkCount)) as [tail Ht].
  destruct (Mocks.streamLoop options fuel (drop n (c :: rest)) (S chunkCount))
    as [chunks outcome].
  exists tail. cbn [fst concat] in *. rewrite <- app_assoc, <- Ht.
  now rewrite take_drop.
Qed.

Lemma streamLoop_finished (options : Mocks.StreamOptions) :
  forall fuel rest chunkCount,
  length rest <= fuel ->
  (Mocks.streamLoop options fuel rest chunkCount).2 = Mocks.Finished ->
  concat (Mocks.streamLoop options fuel rest chunkCount).1 = rest.
Proof.
  induction fuel as [| fuel IH]; intros rest chunkCount Hf; simpl.
  - destruct rest; [reflexivity | simpl in Hf; lia].
  - destruct rest as [| c rest]; [reflexivity |].
    destruct (_ && _); [discriminate |].
    destruct (_ && _); [discriminate |].
    set (n := match Mocks.charsPerChunk options with 0 => 1 | S _ => _ end).
    assert (Hn : 1 <= n) by (subst n; destruct (Mocks.charsPerChunk options); lia).
    specialize (IH (drop n (c :: rest)) (S chunkCount)).
    destruct (Mocks.streamLoop options fuel (drop n (c :: rest))
                (S chunkCount)) as [chunks outcome].
    cbn [fst snd concat] in *. intros Ho.
    rewrite IH; [apply take_drop | | exact Ho].
    rewrite length_drop. simpl in *. lia.
Qed.

Lemma streamLoop_unlimited (options : Mocks.StreamOptions) :
  Mocks.abortAfterChunks options = 0 ->
  Mocks.errorAfterChunks options = 0 ->
  forall fuel rest chunkCount,
  (Mocks.streamLoop options fuel rest chunkCount).2 = Mocks.Finished.
Proof.
  intros Ha He. induction fuel as [| fuel IH]; intros rest chunkCount; simpl;
    [reflexivity |].
  destruct rest as [| c rest]; [reflexivity |].
  rewrite Ha, He. simpl.
  set (n := match Mocks.charsPerChunk options with 0 => 1 | S _ => _ end).
  specialize (IH (drop n (c :: rest)) (S chunkCount)).
  destruct (Mocks.streamLoop options fuel (drop n (c :: rest))
              (S chunkCount)) as [chunks outcome].
  exact IH.
Qed.

Lemma streamLoop_sizes (options : Mocks.StreamOptions) :
  forall fuel rest chunkCount,
  Forall (fun chunk : jsstring =>
            1 <= length chunk <= Nat.max 1 (Mocks.charsPerChunk options))
         (Mocks.streamLoop options fuel rest chunkCount).1.
Proof.
  induction fuel as [| fuel IH]; intros rest chunkCount; simpl;
    [constructor |].
  destruct rest as [| c rest]; [constructor |].
  destruct (_ && _); [constructor |].
  destruct (_ && _); [constructor |].
  set (n := match Mocks.charsPerChunk options with 0 => 1 | S _ => _ end).
  assert (Hn : n = Nat.max 1 (Mocks.charsPerChunk options))
    by (subst n; destruct (Mocks.charsPerChunk options); lia).
  specialize (IH (drop n (c :: rest)) (S chunkCount)).
  destruct (Mocks.streamLoop options fuel (drop n (c :: rest))
              (S chunkCount)) as [chunks outcome].
  cbn [fst] in *. constructor; [| exact IH].
  rewrite length_take. simpl. lia.
Qed.

Lemma streamLoop_limits (options : Mocks.StreamOptions) :
  forall fuel rest chunkCount,
  let result := Mocks.streamLoop options fuel rest chunkCount in
  let limit := fun n => 0 < n -> chunkCount <= n in
  limit (Mocks.abortAfterChunks options) ->
  limit (Mocks.errorAfterChunks options) ->
  (0 < Mocks.abortAfterChunks options ->
   chunkCount + length result.1 <= Mocks.abortAfterChunks options)
  /\ (0 < Mocks.errorAfterChunks options ->
      chunkCount + length result.1 <= Mocks.errorAfterChunks options)
  /\ (result.2 = Mocks.StreamAborted ->
      chunkCount + length result.1 = Mocks.abortAfterChunks options)
  /\ (result.2 = Mocks.NetworkError ->
      chunkCount + length result.1 = Mocks.errorAfterChunks options).
Proof.
  induction fuel as [| fuel IH]; intros rest chunkCount; cbv zeta;
    intros Ha He; cbn beta in Ha, He.
  - simpl. repeat split; intros H; try discriminate;
      try specialize (Ha H); try specialize (He H); lia.
  - destruct rest as [| c rest].
    { simpl. repeat split; intros H; try discriminate;
        try specialize (Ha H); try specialize (He H); lia. }
    cbn [Mocks.streamLoop].
    destruct ((0 <? Mocks.abortAfterChunks options)
              && (Mocks.abortAfterChunks options <? S chunkCount)) eqn:E1.
    { apply andb_true_iff in E1 as [E1 E1']. apply Nat.ltb_lt in E1, E1'.
      specialize (Ha E1). simpl.
      repeat split; intros H; try discriminate; try specialize (He H); lia. }
    destruct ((0 <? Mocks.errorAfterChunks options)
              && (Mocks.errorAfterChunks options <? S chunkCount)) eqn:E2.
    { apply andb_true_iff in E2 as [E2 E2']. apply Nat.ltb_lt in E2, E2'.
      specialize (He E2). simpl.
      repeat split; intros H; try discriminate; lia. }
    assert (Ha' : 0 < Mocks.abortAfterChunks options ->
                  S chunkCount <= Mocks.abortAfterChunks options).
    { intros H. apply andb_false_iff in E1 as [E | E];
        apply Nat.ltb_ge in E; lia. }
    assert (He' : 0 < Mocks.errorAfterChunks options ->
                  S chunkCount <= Mocks.errorAfterChunks options).
    { intros H. apply andb_false_iff in E2 as [E | E];
        apply Nat.ltb_ge in E; lia. }
    set (n := match Mocks.charsPerChunk options with 0 => 1 | S _ => _ end).
    specialize (IH (drop n (c :: rest)) (S chunkCount)). cbv zeta in IH.
    destruct (Mocks.streamLoop options fuel (drop n (c :: rest))
                (S chunkCount)) as [chunks outcome].
    cbn [fst snd length] in *.
    destruct (IH Ha' He') as (I1 & I2 & I3 & I4).
    repeat split; intros H;
      [specialize (I1 H) | specialize (I2 H)
       | specialize (I3 H) | specialize (I4 H)]; lia.
Qed.

(** X22. A mock stream with neither an abort nor an error limit ends
    normally, and its chunks put together are the response text. *)
Theorem mockStream_complete (responseText : jsstring)
    (options : Mocks.StreamOptions) :
  Mocks.abortAfterChunks options = 0 ->
  Mocks.errorAfterChunks options = 0 ->
  (Mocks.mockStream responseText options).2 = Mocks.Finished
  /\ concat (Mocks.mockStream responseText options).1 = responseText.
Proof.
  intros Ha He. unfold Mocks.mockStream.
  pose proof (streamLoop_unlimited options Ha He (length responseText)
                responseText 0) as Hf.
  split; [exact Hf |]. now apply streamLoop_finished.
Qed.

Lemma mockStream_complete_witness :
  (Mocks.mockStream (js "abcde") (Mocks.mkOptions 2 0 0)).2 = Mocks.Finished
  /\ concat (Mocks.mockStream (js "abcde") (Mocks.mkOptions 2 0 0)).1
     = js "abcde".
Proof.
  apply (mockStream_complete (js "abcde") (Mocks.mkOptions 2 0 0));
    reflexivity.
Defined.

Example test_mockStream :
  Mocks.mockStream (js "abcde") (Mocks.mkOptions 2 0 0)
  = ([js "ab"; js "cd"; js "e"], Mocks.Finished)
  /\ Mocks.mockStream (js "abcde") (Mocks.mkOptions 0 2 0)
     = ([js "a"; js "b"], Mocks.StreamAborted)
  /\ Mocks.createRealisticChunks (js "Hi, you. ok")
     = [js "Hi,"; js " "; js "you."; js " "; js "ok"].
Proof. vm_compute. repeat split. Qed.

(** X23. Whatever its options, a mock stream yields the response text from
    its start, in chunks of one to [charsPerChunk] code units (of one when
    that option is zero), and all of the text when it ends normally. *)
Theorem mockStream_delivery (responseText : jsstring)
    (options : Mocks.StreamOptions) :
  let result := Mocks.mockStream responseText options in
  (exists tail, responseText = concat result.1 ++ tail)
  /\ (result.2 = Mocks.Finished -> concat result.1 = responseText)
  /\ Forall (fun chunk : jsstring =>
               1 <= length chunk <= Nat.max 1 (Mocks.charsPerChunk options))
            result.1.
Proof.
  cbv zeta. unfold Mocks.mockStream. split; [| split].
  - apply streamLoop_prefix.
  - now apply streamLoop_finished.
  - apply streamLoop_sizes.
Qed.

(** X24. A mock stream with an abort limit yields at most that many chunks,
    and exactly that many when it aborts; the same holds for the error
    limit and a network error. *)
Theorem mockStream_limits (responseText : jsstring)
    (options : Mocks.StreamOptions) :
  let result := Mocks.mockStream responseText options in
  (0 < Mocks.abortAfterChunks options ->
   length result.1 <= Mocks.abortAfterChunks options)
  /\ (0 < Mocks.errorAfterChunks options ->
      length result.1 <= Mocks.errorAfterChunks options)
  /\ (result.2 = Mocks.StreamAborted ->
      length result.1 = Mocks.abortAfterChunks options)
  /\ (result.2 = Mocks.NetworkError ->
      length result.1 = Mocks.errorAfterChunks options).
Proof.
  cbv zeta. unfold Mocks.mockStream.
  apply (streamLoop_limits options (length responseText) responseText 0);
    intros; lia.
Qed.

End ChunkFacts.

(** ** The tests of a spelling error *)

Lemma includes_true (s p : jsstring) :
  includes s p = true <-> exists j, startsWith (drop j s) p = true.
Proof.
  split.
  - intros H. unfold includes in H. apply negb_true_iff, Z.eqb_neq in H.
    apply indexOf_sound in H as [_ H]. eauto.
  - intros [j H]. destruct (includes s p) eqn:E; [reflexivity |].
    now rewrite (includes_false s p E j) in H.
Qed.

Lemma startsWith_app (s p q : jsstring) :
  startsWith s (p ++ q) = true ->
  startsWith s p = true /\ startsWith (drop (length p) s) q = true.
Proof.
  revert s. induction p as [| c p IH]; intros s H; [now split |].
  destruct s as [| d s]; [discriminate |]. simpl in *.
  apply andb_true_iff in H as [-> H]. simpl. now apply IH.
Qed.

Lemma includes_app (s p q : jsstring) :
  includes s (p ++ q) = true ->
  includes s p = true /\ includes s q = true.
Proof.
  intros H. apply includes_true in H as [j H].
  apply startsWith_app in H as [Hp Hq]. split; apply includes_true.
  - eauto.
  - exists (j + length p). now rewrite <- drop_drop.
Qed.

(** X25. Two of the tests of [isSpellingError] decide nothing: a comment
    that holds [Misspelling of] holds [Misspelling], and one that holds
    [Wrong homophone] holds [homophone], so the result is that of the four
    other tests. *)
Theorem isSpellingError_four_tests (suggestion : ParsedSuggestion) :
  DictionaryUtils.isSpellingError suggestion
  = (includes (comment suggestion) (js "Spelling error")
     || includes (comment suggestion) (js "Misspelling")
     || eqb (category suggestion) (js "spelling"))
    && negb (includes (comment suggestion) (js "Wrong word")
             || includes (comment suggestion) (js "homophone")).
Proof.
  unfold DictionaryUtils.isSpellingError. cbv zeta.
  assert (H1 : includes (comment suggestion) (js "Misspelling of") = true ->
               includes (comment suggestion) (js "Misspelling") = true).
  { intros H.
    now apply (includes_app _ (js "Misspelling") (js " of")) in H as [H _]. }
  assert (H2 : includes (comment suggestion) (js "Wrong homophone") = true ->
               includes (comment suggestion) (js "homophone") = true).
  { intros H.
    now apply (includes_app _ (js "Wrong ") (js "homophone")) in H as [_ H]. }
  destruct (includes (comment suggestion) (js "Misspelling of"));
    destruct (includes (comment suggestion) (js "Wrong homophone"));
    try rewrite (H1 eq_refl); try rewrite (H2 eq_refl);
    destruct (includes (comment suggestion) (js "Spelling error"));
    destruct (includes (comment suggestion) (js "Misspelling"));
    destruct (includes (comment suggestion) (js "homophone"));
    destruct (includes (comment suggestion) (js "Wrong word"));
    destruct (eqb (category suggestion) (js "spelling")); reflexivity.
Qed.

(** ** One diagnostic for a suggestion *)

Section OneDiagnostic.

Import Extension.

Variable intersection : Range -> Range -> option Range.
Variable positionAt : Z -> Position.
Variable extractMisspelledWord : jsstring -> option jsstring.
Variable text : jsstring.

(** X26. [addSuggestionAsDiagnostic] leaves the state as it is for a
    suggestion the dictionary filter skips, and for any other appends
    exactly one diagnostic, the extension's own, with the comment as its
    message; that diagnostic is a hint exactly when it carries no
    identifier. *)
Theorem addSuggestionAsDiagnostic_one (dictionary : list jsstring)
    (suggestion : ParsedSuggestion) (st : State) :
  let st' := addSuggestionAsDiagnostic intersection positionAt
               extractMisspelledWord text dictionary suggestion st in
  if dictionarySkips extractMisspelledWord dictionary suggestion
  then st' = st
  else exists d,
         diagnostics st' = diagnostics st ++ [d]
         /\ message d = comment suggestion
         /\ source d = js "FramerD"
         /\ (code d = None <-> dseverity d = Hint).
Proof.
  cbv zeta. unfold addSuggestionAsDiagnostic.
  destruct (dictionarySkips _ _ _); [reflexivity |].
  assert (Hhint : forall r,
            exists d,
              diagnostics (pushHint st r suggestion) = diagnostics st ++ [d]
              /\ message d = comment suggestion
              /\ source d = js "FramerD"
              /\ (code d = None <-> dseverity d = Hint)).
  { intros r. eexists. simpl. split; [reflexivity |]. simpl. tauto. }
  destruct (target_excerpt suggestion) as [| c e]; [apply Hhint |].
  destruct (_ =? -1)%Z; [apply Hhint |].
  destruct (isQuickFixable suggestion && negb _); cbn [negb];
    [| apply Hhint].
  eexists. simpl. split; [reflexivity |]. simpl.
  repeat split; try discriminate.
  destruct (severity suggestion); discriminate.
Qed.

End OneDiagnostic.
